(** * Glucoscillator: the glucose-to-wavetable pipeline

    A shallow embedding of the data pipeline of the repository
    (src/parser/libreview.ts, src/synthesis/wavetable.ts and the
    statistics helpers of src/synthesis/effects-config.ts) together with
    the properties stated about it.

    Conventions of the embedding.

    - A JavaScript [number] is a value of [number] below: the IEEE special
      values NaN, +Infinity and -Infinity are kept, with their propagation
      rules, and a finite number is an exact rational.  Rounding, overflow
      to Infinity and the sign of zero are not modelled; a [Float32Array]
      is a [list number] (the rounding to single precision on a store is
      not modelled either).
    - A JavaScript string is a [string] of 8-bit code units; case mapping
      and white space are those of ASCII.
    - A JavaScript object used as a record of columns and a [Map] are
      association lists that keep the insertion order of their keys.
    - A [Date] is kept as its local time value; the host time zone is a
      fixed offset from UTC (no daylight-saving transitions). *)

From Stdlib Require Import List Bool Arith ZArith QArith Qround Qabs Lia Lqa.
From Stdlib Require Import Ascii String Sorted Permutation.
Import ListNotations.

Local Open Scope Q_scope.

(** ** Numbers *)

Inductive number : Type :=
| NaN
| PInf
| NInf
| Fin (q : Q).

Declare Scope num_scope.
Delimit Scope num_scope with num.
Bind Scope num_scope with number.

Definition fin (q : Q) : number := Fin (Qred q).

Definition zero : number := Fin 0.
Definition one : number := Fin 1.
Definition two : number := Fin 2.

Definition of_Z (z : Z) : number := Fin (inject_Z z).
Definition of_nat (n : nat) : number := of_Z (Z.of_nat n).

Definition isNaN (x : number) : bool :=
  match x with NaN => true | _ => false end.

Definition isFinite (x : number) : bool :=
  match x with Fin _ => true | _ => false end.

Definition Qltb (a b : Q) : bool := negb (Qle_bool b a).

(** Sign of a finite number: the product and quotient with an infinity
    take their sign from it. *)
Definition Qpos_b (q : Q) : bool := Qltb 0 q.
Definition Qneg_b (q : Q) : bool := Qltb q 0.
Definition Qzero_b (q : Q) : bool := Qeq_bool q 0.

Definition nneg (x : number) : number :=
  match x with
  | NaN => NaN
  | PInf => NInf
  | NInf => PInf
  | Fin q => fin (- q)
  end.

Definition nadd (x y : number) : number :=
  match x, y with
  | NaN, _ | _, NaN => NaN
  | PInf, NInf | NInf, PInf => NaN
  | PInf, _ | _, PInf => PInf
  | NInf, _ | _, NInf => NInf
  | Fin a, Fin b => fin (a + b)
  end.

Definition nsub (x y : number) : number :=
  match x, y with
  | NaN, _ | _, NaN => NaN
  | PInf, PInf | NInf, NInf => NaN
  | PInf, _ | _, NInf => PInf
  | NInf, _ | _, PInf => NInf
  | Fin a, Fin b => fin (a - b)
  end.

(** An infinity times a finite number: NaN at zero, else by sign. *)
Definition inf_times (positive : bool) (q : Q) : number :=
  if Qzero_b q then NaN
  else if Bool.eqb positive (Qpos_b q) then PInf else NInf.

Definition nmul (x y : number) : number :=
  match x, y with
  | NaN, _ | _, NaN => NaN
  | PInf, PInf | NInf, NInf => PInf
  | PInf, NInf | NInf, PInf => NInf
  | PInf, Fin q | Fin q, PInf => inf_times true q
  | NInf, Fin q | Fin q, NInf => inf_times false q
  | Fin a, Fin b => fin (a * b)
  end.

(** Division.  The only zero of the model is the positive one, so a
    non-zero finite number over zero is the infinity of its own sign. *)
Definition ndiv (x y : number) : number :=
  match x, y with
  | NaN, _ | _, NaN => NaN
  | PInf, Fin q => if Qneg_b q then NInf else PInf
  | NInf, Fin q => if Qneg_b q then PInf else NInf
  | PInf, _ | NInf, _ => NaN
  | Fin _, PInf | Fin _, NInf => zero
  | Fin a, Fin b =>
      if Qzero_b b then
        if Qzero_b a then NaN else if Qpos_b a then PInf else NInf
      else fin (a / b)
  end.

(** Comparisons: every comparison with NaN is false. *)
Definition nlt (x y : number) : bool :=
  match x, y with
  | NaN, _ | _, NaN => false
  | _, NInf => false
  | NInf, _ => true
  | PInf, _ => false
  | _, PInf => true
  | Fin a, Fin b => Qltb a b
  end.

Definition nle (x y : number) : bool :=
  match x, y with
  | NaN, _ | _, NaN => false
  | NInf, _ => true
  | _, NInf => false
  | _, PInf => true
  | PInf, _ => false
  | Fin a, Fin b => Qle_bool a b
  end.

Definition ngt (x y : number) : bool := nlt y x.
Definition nge (x y : number) : bool := nle y x.

(** Strict equality [===] on numbers. *)
Definition neq (x y : number) : bool :=
  match x, y with
  | PInf, PInf | NInf, NInf => true
  | Fin a, Fin b => Qeq_bool a b
  | _, _ => false
  end.

Infix "+" := nadd : num_scope.
Infix "-" := nsub : num_scope.
Infix "*" := nmul : num_scope.
Infix "/" := ndiv : num_scope.
Infix "<?" := nlt : num_scope.
Infix "<=?" := nle : num_scope.
Infix ">?" := ngt : num_scope.
Infix ">=?" := nge : num_scope.
Infix "===" := neq (at level 70) : num_scope.

(** [Math.floor]. *)
Definition Math_floor (x : number) : number :=
  match x with
  | Fin q => of_Z (Qfloor q)
  | _ => x
  end.

(** [Math.min(...args)] and [Math.max(...args)]: NaN if any argument is,
    else the running extremum, started at the opposite infinity. *)
Definition min_step (lowest v : number) : number :=
  if (v <? lowest)%num then v else lowest.

Definition max_step (highest v : number) : number :=
  if (v >? highest)%num then v else highest.

Definition Math_min (args : list number) : number :=
  if existsb isNaN args then NaN else fold_left min_step args PInf.

Definition Math_max (args : list number) : number :=
  if existsb isNaN args then NaN else fold_left max_step args NInf.

Definition Math_min2 (a b : number) : number := Math_min [a; b].
Definition Math_max2 (a b : number) : number := Math_max [a; b].

(** ** Typed arrays *)

Definition Float32Array : Type := list number.

(** [new Float32Array(n).fill(0)]. *)
Definition zeros (n : nat) : Float32Array := repeat zero n.

(** The index denoted by a number, when it is a non-negative integer. *)
Definition to_index (x : number) : option nat :=
  match x with
  | Fin q =>
      if Qeq_bool (inject_Z (Qfloor q)) q && (0 <=? Qfloor q)%Z
      then Some (Z.to_nat (Qfloor q)) else None
  | _ => None
  end.

(** A read [a[x]] used as an operand: out of range it is [undefined],
    which arithmetic turns into NaN. *)
Definition f32_get (a : Float32Array) (x : number) : number :=
  match to_index x with
  | Some i => nth i a NaN
  | None => NaN
  end.

(** ** Dates

    A valid [Date] is kept as its local time value in milliseconds
    (ECMAScript's LocalTime of the time value); [InvalidDate] is the date
    whose time value is NaN. *)

Inductive Date : Type :=
| DateTV (t : Z)
| InvalidDate.

(** ** Core data types (src/types.ts) *)

Record GlucoseReading : Type := mkReading {
  timestamp : Date;
  value : number;
  recordType : nat
}.

Record DayStats : Type := mkStats {
  st_min : number;
  st_max : number;
  st_avg : number;
  st_timeInRange : number
}.

Record DailyGlucoseData : Type := mkDay {
  date : string;
  readings : list GlucoseReading;
  wavetable : option Float32Array;
  stats : DayStats
}.

Inductive GlucoseUnit : Type := mg_dL | mmol_L.

Record ParsedLibreViewData : Type := mkParsed {
  days : list (string * DailyGlucoseData);
  unit : GlucoseUnit;
  deviceName : string;
  serialNumber : string
}.

(** ** Wavetable generation (src/synthesis/wavetable.ts) *)

Definition WAVETABLE_SIZE : nat := 2048.

Definition normalizeGlucoseValues (values : list number) : Float32Array :=
  if (List.length values =? 0)%nat then []
  else
    let min := Math_min values in
    let max := Math_max values in
    let range := (max - min)%num in
    if (range === zero)%num then zeros (List.length values)
    else map (fun v => (((v - min) / range) * two - one)%num) values.

(** One iteration of the interpolation loop: the value stored at [i]. *)
Definition resample_at (values : Float32Array) (ratio : number) (i : nat)
  : number :=
  let srcIndex := (of_nat i * ratio)%num in
  let srcIndexFloor := Math_floor srcIndex in
  let srcIndexCeil :=
    Math_min2 (srcIndexFloor + one)%num (of_nat (List.length values) - one)%num in
  let fraction := (srcIndex - srcIndexFloor)%num in
  (f32_get values srcIndexFloor * (one - fraction)
   + f32_get values srcIndexCeil * fraction)%num.

Definition resampleToWavetableSize (values : Float32Array) (targetSize : nat)
  : Float32Array :=
  if (List.length values =? 0)%nat then zeros targetSize
  else if (List.length values =? targetSize)%nat then values
  else
    let ratio := (of_nat (List.length values) / of_nat targetSize)%num in
    map (resample_at values ratio) (seq 0 targetSize).

Definition quarter : number := Fin (1 # 4).
Definition half : number := Fin (1 # 2).

(** One pass of the circular three-point average: [temp] is filled from
    the unchanged [wavetable], then copied back. *)
Definition smooth_at (wavetable : Float32Array) (i : nat) : number :=
  let n := List.length wavetable in
  let prev := nth ((i + n - 1) mod n) wavetable NaN in
  let curr := nth i wavetable NaN in
  let next := nth ((i + 1) mod n) wavetable NaN in
  (prev * quarter + curr * half + next * quarter)%num.

Definition smooth_pass (wavetable : Float32Array) : Float32Array :=
  map (smooth_at wavetable) (seq 0 (List.length wavetable)).

Fixpoint smoothWavetable (wavetable : Float32Array) (passes : nat)
  : Float32Array :=
  match passes with
  | O => wavetable
  | S p => smoothWavetable (smooth_pass wavetable) p
  end.

Definition generateWavetable (dayData : DailyGlucoseData) : Float32Array :=
  let readings := readings dayData in
  if (List.length readings =? 0)%nat then zeros WAVETABLE_SIZE
  else
    let values := map value readings in
    let normalized := normalizeGlucoseValues values in
    let wavetable := resampleToWavetableSize normalized WAVETABLE_SIZE in
    smoothWavetable wavetable 2.

(** ** Strings *)

Local Open Scope string_scope.
Local Open Scope char_scope.

Definition ascii_in (lo hi : nat) (c : ascii) : bool :=
  let n := nat_of_ascii c in ((lo <=? n) && (n <=? hi))%nat.

Definition is_digit (c : ascii) : bool := ascii_in 48 57 c.

(** White space, as [String.prototype.trim] and the class [\s] see it. *)
Definition is_space (c : ascii) : bool :=
  ascii_in 9 13 c || Ascii.eqb c " ".

Definition is_upper (c : ascii) : bool := ascii_in 65 90 c.

Definition lower_char (c : ascii) : ascii :=
  if is_upper c then ascii_of_nat (nat_of_ascii c + 32) else c.

Fixpoint toLowerCase (s : string) : string :=
  match s with
  | EmptyString => EmptyString
  | String c s' => String (lower_char c) (toLowerCase s')
  end.

Fixpoint trimStart (s : string) : string :=
  match s with
  | String c s' => if is_space c then trimStart s' else s
  | EmptyString => EmptyString
  end.

(** [trimEnd]: a run of white space is dropped when nothing follows it. *)
Fixpoint trimEnd (s : string) : string :=
  match s with
  | EmptyString => EmptyString
  | String c s' =>
      match trimEnd s' with
      | EmptyString => if is_space c then EmptyString else String c EmptyString
      | t => String c t
      end
  end.

Definition trim (s : string) : string := trimEnd (trimStart s).

(** [hay.includes(needle)]. *)
Fixpoint includes (hay needle : string) : bool :=
  prefix needle hay ||
  match hay with
  | EmptyString => false
  | String _ hay' => includes hay' needle
  end.

(** [parts.join(sep)]. *)
Fixpoint join (sep : string) (parts : list string) : string :=
  match parts with
  | [] => EmptyString
  | [p] => p
  | p :: rest => p ++ sep ++ join sep rest
  end.

(** A string is falsy exactly when it is empty. *)
Definition truthy (s : string) : bool :=
  match s with EmptyString => false | _ => true end.

(** [s.padStart(2, '0')]. *)
Definition padStart2 (s : string) : string :=
  match s with
  | String c EmptyString => String "0" s
  | _ => s
  end.

(** Decimal digits of a natural number, most significant first. *)
Fixpoint digits_of_pos (fuel : nat) (n : N) (acc : string) : string :=
  match fuel with
  | O => acc
  | S f =>
      let d := ascii_of_N (48 + N.modulo n 10) in
      let q := N.div n 10 in
      if N.eqb q 0 then String d acc else digits_of_pos f q (String d acc)
  end.

Definition string_of_N (n : N) : string :=
  digits_of_pos (S (N.to_nat (N.log2 n))) n EmptyString.

Definition string_of_Z (z : Z) : string :=
  match z with
  | Zneg p => String "-" (string_of_N (Npos p))
  | _ => string_of_N (Z.to_N z)
  end.

(** [String(x)] for a number that is an integer or NaN. *)
Definition String_of_int (x : option Z) : string :=
  match x with
  | Some z => string_of_Z z
  | None => "NaN"%string
  end.

Definition digit_val (c : ascii) : Z := Z.of_nat (nat_of_ascii c) - 48.

(** Longest prefix of decimal digits, and what follows it. *)
Fixpoint span_digits (s : string) : string * string :=
  match s with
  | String c s' =>
      if is_digit c then let (d, r) := span_digits s' in (String c d, r)
      else (EmptyString, s)
  | EmptyString => (EmptyString, EmptyString)
  end.

Fixpoint decimal_value (acc : Z) (s : string) : Z :=
  match s with
  | String c s' => decimal_value (10 * acc + digit_val c) s'
  | EmptyString => acc
  end.

(** ** Regular expressions

    A backtracking matcher for the fragment the parser uses: character
    classes, concatenation, capture groups and greedy bounded or unbounded
    repetition.  The continuation receives the rest of the input and the
    captures so far; the first success in priority order is the result. *)

Inductive regex : Type :=
| Chr (p : ascii -> bool)
| Cat (r1 r2 : regex)
| Grp (n : nat) (r : regex)
| Rep (r : regex) (lo : nat) (hi : option nat).

Definition captures : Type := list (nat * string).

Fixpoint get_cap (n : nat) (c : captures) : option string :=
  match c with
  | [] => None
  | (m, s) :: c' => if (m =? n)%nat then Some s else get_cap n c'
  end.

Definition set_cap (n : nat) (s : string) (c : captures) : captures :=
  (n, s) :: c.

Fixpoint groups_of (r : regex) : list nat :=
  match r with
  | Chr _ => []
  | Cat r1 r2 => groups_of r1 ++ groups_of r2
  | Grp n r1 => n :: groups_of r1
  | Rep r1 _ _ => groups_of r1
  end.

(** Entering an iteration of a repetition forgets the groups inside. *)
Definition clear_caps (gs : list nat) (c : captures) : captures :=
  filter (fun e => negb (existsb (Nat.eqb (fst e)) gs)) c.

(** What was consumed between the input [s] and its suffix [s']. *)
Definition consumed (s s' : string) : string :=
  substring 0 (String.length s - String.length s') s.

Definition hi_zero (hi : option nat) : bool :=
  match hi with Some O => true | _ => false end.

Definition hi_pred (hi : option nat) : option nat :=
  match hi with Some n => Some (pred n) | None => None end.

Definition cont : Type := string -> captures -> option captures.

(** The repetition of a matcher [m1] between [lo] and [hi] times, greedily:
    one more iteration is tried first, the continuation after it.  An
    iteration that consumes nothing once [lo] is reached is refused. *)
Fixpoint rep_loop (m1 : string -> captures -> cont -> option captures)
    (gs : list nat) (k : cont) (fuel lo : nat) (hi : option nat)
    (s : string) (c : captures) {struct fuel} : option captures :=
  match fuel with
  | O => None
  | S f =>
      if hi_zero hi then k s c
      else
        let more :=
          m1 s (clear_caps gs c)
             (fun s' c' =>
                if (lo =? 0)%nat && (String.length s' =? String.length s)%nat
                then None
                else rep_loop m1 gs k f (pred lo) (hi_pred hi) s' c') in
        if (0 <? lo)%nat then more
        else match more with
             | Some res => Some res
             | None => k s c
             end
  end.

Fixpoint rmatch (r : regex) : string -> captures -> cont -> option captures :=
  match r with
  | Chr p => fun s c k =>
      match s with
      | String a s' => if p a then k s' c else None
      | EmptyString => None
      end
  | Cat r1 r2 => fun s c k =>
      rmatch r1 s c (fun s' c' => rmatch r2 s' c' k)
  | Grp n r1 => fun s c k =>
      rmatch r1 s c (fun s' c' => k s' (set_cap n (consumed s s') c'))
  | Rep r1 lo hi => fun s c k =>
      rep_loop (rmatch r1) (groups_of r1) k (S (String.length s + lo)) lo hi
               s c
  end.

(** [str.match(re)] for a regular expression without flags: the leftmost
    match, group 0 being the whole match. *)
Fixpoint regex_match (r : regex) (s : string) : option captures :=
  match rmatch r s [] (fun s' c => Some (set_cap 0 (consumed s s') c)) with
  | Some c => Some c
  | None =>
      match s with
      | String _ s' => regex_match r s'
      | EmptyString => None
      end
  end.

(** ** Calendar arithmetic of ECMAScript dates *)

Local Open Scope Z_scope.

Definition msPerDay : Z := 86400000.
Definition msPerHour : Z := 3600000.
Definition msPerMinute : Z := 60000.

(** The host time zone: a fixed offset from UTC, here UTC itself.  Another
    fixed offset shifts every [getTime] by the same constant. *)
Definition LocalTZA : Z := 0.

Definition UTC (t : Z) : Z := t - LocalTZA.
Definition LocalTime (t : Z) : Z := t + LocalTZA.

Definition Day (t : Z) : Z := t / msPerDay.

Definition DayFromYear (y : Z) : Z :=
  365 * (y - 1970) + (y - 1969) / 4 - (y - 1901) / 100 + (y - 1601) / 400.

Definition isLeapYear (y : Z) : bool :=
  ((y mod 4 =? 0) && negb (y mod 100 =? 0)) || (y mod 400 =? 0).

(** Days of the year before the first of month [mn] (0 is January). *)
Definition daysBeforeMonth (leap : bool) (mn : Z) : Z :=
  nth (Z.to_nat mn) [0; 31; 59; 90; 120; 151; 181; 212; 243; 273; 304; 334] 0
  + (if leap && (2 <=? mn) then 1 else 0).

Definition MakeDay (year month dt : Z) : Z :=
  let ym := year + month / 12 in
  let mn := month mod 12 in
  DayFromYear ym + daysBeforeMonth (isLeapYear ym) mn + dt - 1.

Definition MakeTime (hour min sec ms : Z) : Z :=
  hour * msPerHour + min * msPerMinute + sec * 1000 + ms.

Definition MakeDate (day time : Z) : Z := day * msPerDay + time.

(** Year, month (from 1) and day of the month of a day number. *)
Definition civil_from_days (z : Z) : Z * Z * Z :=
  let z := z + 719468 in
  let era := z / 146097 in
  let doe := z - era * 146097 in
  let yoe := (doe - doe / 1460 + doe / 36524 - doe / 146096) / 365 in
  let y := yoe + era * 400 in
  let doy := doe - (365 * yoe + yoe / 4 - yoe / 100) in
  let mp := (5 * doy + 2) / 153 in
  let d := doy - (153 * mp + 2) / 5 + 1 in
  let m := if mp <? 10 then mp + 3 else mp - 9 in
  (if m <=? 2 then y + 1 else y, m, d).

Definition YearFromTime (t : Z) : Z := fst (fst (civil_from_days (Day t))).
Definition MonthFromTime (t : Z) : Z := snd (fst (civil_from_days (Day t))) - 1.
Definition DateFromTime (t : Z) : Z := snd (civil_from_days (Day t)).

Definition Qtrunc (q : Q) : Z := Z.quot (Qnum q) (Zpos (Qden q)).

Definition maxTimeValue : Z := 8640000000000000.

(** [new Date(year, month, day, hour, minute)]. *)
Definition newDate (year month day hour minute : number) : Date :=
  match year, month, day, hour, minute with
  | Fin y, Fin m, Fin d, Fin h, Fin mi =>
      let yi := Qtrunc y in
      let yr := if (0 <=? yi) && (yi <=? 99) then 1900 + yi else yi in
      let t := MakeDate (MakeDay yr (Qtrunc m) (Qtrunc d))
                        (MakeTime (Qtrunc h) (Qtrunc mi) 0 0) in
      if Z.abs (UTC t) <=? maxTimeValue then DateTV t else InvalidDate
  | _, _, _, _, _ => InvalidDate
  end.

(** The getters answer an integer, or NaN ([None]) on an invalid date. *)
Definition getFullYear (d : Date) : option Z :=
  match d with DateTV t => Some (YearFromTime t) | InvalidDate => None end.

Definition getMonth (d : Date) : option Z :=
  match d with DateTV t => Some (MonthFromTime t) | InvalidDate => None end.

Definition getDate (d : Date) : option Z :=
  match d with DateTV t => Some (DateFromTime t) | InvalidDate => None end.

Definition getTime (d : Date) : number :=
  match d with DateTV t => of_Z (UTC t) | InvalidDate => NaN end.

(** ** [parseInt] and [parseFloat] *)

Definition strip_sign (s : string) : bool * string :=
  match s with
  | String "-" s' => (true, s')
  | String "+" s' => (false, s')
  | _ => (false, s)
  end.

Definition hex_val (c : ascii) : option Z :=
  if is_digit c then Some (digit_val c)
  else if ascii_in 97 102 c then Some (Z.of_nat (nat_of_ascii c) - 87)
  else if ascii_in 65 70 c then Some (Z.of_nat (nat_of_ascii c) - 55)
  else None.

(** Value of the longest prefix of hexadecimal digits, if not empty. *)
Fixpoint hex_prefix (acc : option Z) (s : string) : option Z :=
  match s with
  | String c s' =>
      match hex_val c with
      | Some v =>
          hex_prefix (Some (16 * match acc with Some a => a | None => 0 end + v)) s'
      | None => acc
      end
  | EmptyString => acc
  end.

Definition signed (negative : bool) (z : Z) : Z := if negative then - z else z.

(** [parseInt(s)] without a radix. *)
Definition parseInt (s : string) : number :=
  let (negative, body) := strip_sign (trimStart s) in
  match body with
  | String "0" (String x rest) =>
      if Ascii.eqb x "x" || Ascii.eqb x "X" then
        match hex_prefix None rest with
        | Some v => of_Z (signed negative v)
        | None => NaN
        end
      else of_Z (signed negative (decimal_value 0 (fst (span_digits body))))
  | _ =>
      match fst (span_digits body) with
      | EmptyString => NaN
      | ds => of_Z (signed negative (decimal_value 0 ds))
      end
  end.

Definition exponent_of (s : string) : Z :=
  match s with
  | String e rest =>
      if Ascii.eqb e "e" || Ascii.eqb e "E" then
        let (negative, ds) := strip_sign rest in
        match fst (span_digits ds) with
        | EmptyString => 0
        | d => signed negative (decimal_value 0 d)
        end
      else 0
  | EmptyString => 0
  end.

(** [parseFloat(s)]: the longest prefix that is a decimal literal. *)
Definition parseFloat (s : string) : number :=
  let (negative, body) := strip_sign (trimStart s) in
  if prefix "Infinity" body then (if negative then NInf else PInf)
  else
    let (d1, r1) := span_digits body in
    let (d2, r2) :=
      match r1 with
      | String "." r => span_digits r
      | _ => (EmptyString, r1)
      end in
    match (d1 ++ d2)%string with
    | EmptyString => NaN
    | ds =>
        let mant := inject_Z (signed negative (decimal_value 0 ds)) in
        let e := exponent_of r2 - Z.of_nat (String.length d2) in
        fin (mant * Qpower (inject_Z 10) e)
    end.

(** ** The LibreView parser (src/parser/libreview.ts) *)

Definition dquote : ascii := ascii_of_nat 34.
Definition LF : ascii := ascii_of_nat 10.
Definition CR : ascii := ascii_of_nat 13.

Definition snoc (s : string) (c : ascii) : string :=
  (s ++ String c EmptyString)%string.

(** [s.split(/\r?\n/)]; [current] is the line being read. *)
Fixpoint split_lines (s current : string) : list string :=
  match s with
  | EmptyString => [current]
  | String c rest =>
      if Ascii.eqb c LF then current :: split_lines rest EmptyString
      else if Ascii.eqb c CR then
        match rest with
        | String c' rest' =>
            if Ascii.eqb c' LF then current :: split_lines rest' EmptyString
            else split_lines rest (snoc current c)
        | EmptyString => split_lines rest (snoc current c)
        end
      else split_lines rest (snoc current c)
  end.

Fixpoint parseCSVLine_loop (line : string) (result : list string)
    (current : string) (inQuotes : bool) : list string :=
  match line with
  | EmptyString => result ++ [current]
  | String char rest =>
      if Ascii.eqb char dquote then
        parseCSVLine_loop rest result current (negb inQuotes)
      else if Ascii.eqb char "," && negb inQuotes then
        parseCSVLine_loop rest (result ++ [current]) EmptyString inQuotes
      else parseCSVLine_loop rest result (snoc current char) inQuotes
  end.

Definition parseCSVLine (line : string) : list string :=
  parseCSVLine_loop line [] EmptyString false.

Definition is_header_line (line : string) : bool :=
  includes (toLowerCase line) "device"
  && includes (toLowerCase line) "timestamp".

(** The header search: the first index below [bound] whose line names both
    words, scanning from [i]. *)
Fixpoint header_scan (lines : list string) (i bound : nat) : option nat :=
  match bound, lines with
  | S b, line :: rest =>
      if is_header_line line then Some i else header_scan rest (S i) b
  | _, _ => None
  end.

Definition findHeaderIndex (lines : list string) : nat :=
  match header_scan lines 0 (Nat.min 10 (List.length lines)) with
  | Some i => i
  | None => 0%nat
  end.

(** A row object: own properties in insertion order. *)
Definition CSVRow : Type := list (string * string).

Fixpoint row_get (key : string) (row : CSVRow) : option string :=
  match row with
  | [] => None
  | (k, v) :: rest => if String.eqb k key then Some v else row_get key rest
  end.

Definition row_has (key : string) (row : CSVRow) : bool :=
  match row_get key row with Some _ => true | None => false end.

Fixpoint row_update (key v : string) (row : CSVRow) : CSVRow :=
  match row with
  | [] => [(key, v)]
  | (k, w) :: rest =>
      if String.eqb k key then (k, v) :: rest
      else (k, w) :: row_update key v rest
  end.

(** [row[key] = v].  Assigning a string to [__proto__] changes nothing. *)
Definition row_set (key v : string) (row : CSVRow) : CSVRow :=
  if String.eqb key "__proto__" then row else row_update key v row.

(** [row[key] || ''] for a key of the row's own. *)
Definition row_str (key : string) (row : CSVRow) : string :=
  match row_get key row with Some v => v | None => EmptyString end.

(** A canonical array index: these keys come first in [Object.keys]. *)
Definition array_index (k : string) : option Z :=
  match k with
  | EmptyString => None
  | String c rest =>
      let (ds, tl) := span_digits k in
      if truthy tl then None
      else if Ascii.eqb c "0" && truthy rest then None
      else
        let v := decimal_value 0 ds in
        if v <=? 4294967294 then Some v else None
  end.

Fixpoint insert_index (e : Z * string) (l : list (Z * string))
  : list (Z * string) :=
  match l with
  | [] => [e]
  | e' :: rest =>
      if fst e <=? fst e' then e :: l else e' :: insert_index e rest
  end.

Definition Object_keys (row : CSVRow) : list string :=
  let indexed :=
    fold_right
      (fun kv acc =>
         match array_index (fst kv) with
         | Some i => insert_index (i, fst kv) acc
         | None => acc
         end) [] row in
  let named :=
    filter
      (fun k => match array_index k with Some _ => false | None => true end)
      (map fst row) in
  map snd indexed ++ named.

Definition build_row (headers values : list string) : CSVRow :=
  fold_left (fun row hv => row_set (trim (fst hv)) (trim (snd hv)) row)
            (combine headers values) [].

Definition collect_rows (headers : list string) (lines : list string)
  : list CSVRow :=
  flat_map
    (fun line =>
       let values := parseCSVLine line in
       if (List.length values =? List.length headers)%nat
       then [build_row headers values] else [])
    lines.

Definition detectUnit (headers : list string) : GlucoseUnit :=
  let headerStr := toLowerCase (join " " headers) in
  if includes headerStr "mmol/l" then mmol_L else mg_dL.

Definition glucoseColumns : list string :=
  [ "Historic Glucose mg/dL"; "Historic Glucose mmol/L";
    "Scan Glucose mg/dL"; "Scan Glucose mmol/L";
    "Historic Glucose (mg/dL)"; "Historic Glucose (mmol/L)" ]%string.

Definition timestampColumns : list string :=
  [ "Device Timestamp"; "Timestamp"; "Time"; "Date/Time" ]%string.

Definition findGlucoseColumn (row : CSVRow) : option string :=
  match find (fun col => row_has col row && truthy (row_str col row))
             glucoseColumns with
  | Some col => Some col
  | None =>
      find (fun key =>
              (includes (toLowerCase key) "historic glucose"
               && truthy (row_str key row))
              || (includes (toLowerCase key) "scan glucose"
                  && truthy (row_str key row)))
           (Object_keys row)
  end.

Definition findTimestampColumn (row : CSVRow) : option string :=
  match find (fun col => row_has col row) timestampColumns with
  | Some col => Some col
  | None =>
      find (fun key => includes (toLowerCase key) "timestamp")
           (Object_keys row)
  end.

Definition is_date_sep (c : ascii) : bool :=
  Ascii.eqb c "-" || Ascii.eqb c "/" || Ascii.eqb c ".".

Definition is_colon (c : ascii) : bool := Ascii.eqb c ":".

Definition digits (lo hi : nat) : regex := Rep (Chr is_digit) lo (Some hi).

(** [/(\d{1,4})[-\/.](\d{1,2})[-\/.](\d{1,4})\s+(\d{1,2}):(\d{2})(?::(\d{2}))?/] *)
Definition timestampRe : regex :=
  Cat (Grp 1 (digits 1 4))
 (Cat (Chr is_date_sep)
 (Cat (Grp 2 (digits 1 2))
 (Cat (Chr is_date_sep)
 (Cat (Grp 3 (digits 1 4))
 (Cat (Rep (Chr is_space) 1 None)
 (Cat (Grp 4 (digits 1 2))
 (Cat (Chr is_colon)
 (Cat (Grp 5 (digits 2 2))
      (Rep (Cat (Chr is_colon) (Grp 6 (digits 2 2))) 0 (Some 1%nat)))))))))).

(** A group of the match array; groups 1 to 5 take part in every match. *)
Definition group (parts : captures) (n : nat) : string :=
  match get_cap n parts with Some s => s | None => EmptyString end.

Definition twelve : number := Fin 12.

(** The arguments [parseTimestamp] passes to [new Date], for a string the
    pattern matches: year, month index, day, hour and minute. *)
Definition timestamp_fields (parts : captures)
  : number * number * number * number * number :=
  let p1 := group parts 1 in
  let p2 := group parts 2 in
  let p3 := group parts 3 in
  let hour := group parts 4 in
  let minute := group parts 5 in
  let '(year, month, day) :=
    if (String.length p1 =? 4)%nat then
      (parseInt p1, (parseInt p2 - one)%num, parseInt p3)
    else if (String.length p3 =? 4)%nat then
      let year := parseInt p3 in
      let n1 := parseInt p1 in
      let n2 := parseInt p2 in
      if (n1 >? twelve)%num then (year, (n2 - one)%num, n1)
      else if (n2 >? twelve)%num then (year, (n1 - one)%num, n2)
      else (year, (n2 - one)%num, n1)
    else
      ((of_Z 2000 + parseInt p1)%num, (parseInt p2 - one)%num, parseInt p3) in
  (year, month, day, parseInt hour, parseInt minute).

Section Parser.

(** [Date.parse] on a string outside the pattern: the time value, or NaN
    ([None]).  What it accepts is left to the host. *)
Variable Date_parse : string -> option Z.

Definition parseTimestamp (str : string) : option Date :=
  if negb (truthy str) then None
  else
    match regex_match timestampRe str with
    | Some parts =>
        let '(year, month, day, hour, minute) := timestamp_fields parts in
        Some (newDate year month day hour minute)
    | None =>
        match Date_parse str with
        | Some tv => Some (DateTV (LocalTime tv))
        | None => None
        end
    end.

Definition mmol_factor : number := Fin (90091 # 5000).

(** One iteration of the loop over rows: the reading pushed, if any. *)
Definition reading_of_row (timestampCol : option string) (unit : GlucoseUnit)
    (row : CSVRow) : option GlucoseReading :=
  match findGlucoseColumn row, timestampCol with
  | Some glucoseCol, Some timestampCol =>
      let valueStr := row_str glucoseCol row in
      let timestampStr := row_str timestampCol row in
      if negb (truthy valueStr) || String.eqb valueStr "Lo"
         || String.eqb valueStr "Hi"
      then None
      else
        let value := parseFloat valueStr in
        if isNaN value then None
        else
          let normalizedValue :=
            match unit with
            | mmol_L => (value * mmol_factor)%num
            | mg_dL => value
            end in
          match parseTimestamp timestampStr with
          | None => None
          | Some timestamp =>
              let recordType :=
                if includes (toLowerCase glucoseCol) "scan" then 1%nat
                else 0%nat in
              Some (mkReading timestamp normalizedValue recordType)
          end
  | _, _ => None
  end.

(** The readings in row order, before they are sorted. *)
Definition collect_readings (rows : list CSVRow) (unit : GlucoseUnit)
  : list GlucoseReading :=
  match rows with
  | [] => []
  | row0 :: _ =>
      let timestampCol := findTimestampColumn row0 in
      flat_map
        (fun row =>
           match reading_of_row timestampCol unit row with
           | Some r => [r]
           | None => []
           end)
        rows
  end.

(** [Array.prototype.sort] with a comparator: a stable sort; a comparator
    result that is NaN counts as zero. *)
Fixpoint sort_insert {A : Type} (cmp : A -> A -> number) (x : A) (l : list A)
  : list A :=
  match l with
  | [] => [x]
  | y :: rest =>
      if (cmp x y >? zero)%num then y :: sort_insert cmp x rest
      else x :: l
  end.

Definition Array_sort {A : Type} (cmp : A -> A -> number) (l : list A)
  : list A :=
  fold_right (sort_insert cmp) [] l.

Definition byTimestamp (a b : GlucoseReading) : number :=
  (getTime (timestamp a) - getTime (timestamp b))%num.

Definition parseGlucoseReadings (rows : list CSVRow) (unit : GlucoseUnit)
  : list GlucoseReading :=
  Array_sort byTimestamp (collect_readings rows unit).

Definition formatDateKey (d : Date) : string :=
  let year := String_of_int (getFullYear d) in
  let month :=
    padStart2 (String_of_int (option_map (Z.add 1) (getMonth d))) in
  let day := padStart2 (String_of_int (getDate d)) in
  (year ++ "-" ++ month ++ "-" ++ day)%string.

Definition seventy : number := Fin 70.
Definition oneEighty : number := Fin 180.
Definition hundred : number := Fin 100.

Definition inTargetRange (v : number) : bool :=
  (v >=? seventy)%num && (v <=? oneEighty)%num.

Definition sum_values (values : list number) : number :=
  fold_left nadd values zero.

Definition calculateDayStats (dayData : DailyGlucoseData) : DailyGlucoseData :=
  let values := map value (readings dayData) in
  if (List.length values =? 0)%nat then
    mkDay (date dayData) (readings dayData) (wavetable dayData)
          (mkStats zero zero zero zero)
  else
    let min := Math_min values in
    let max := Math_max values in
    let avg := (sum_values values / of_nat (List.length values))%num in
    let inRange := List.length (filter inTargetRange values) in
    let timeInRange :=
      ((of_nat inRange / of_nat (List.length values)) * hundred)%num in
    mkDay (date dayData) (readings dayData) (wavetable dayData)
          (mkStats min max avg timeInRange).

(** The [Map] of days: keys in insertion order. *)
Definition DayMap : Type := list (string * DailyGlucoseData).

Definition map_has (key : string) (m : DayMap) : bool :=
  existsb (fun e => String.eqb (fst e) key) m.

Definition push_reading (key : string) (r : GlucoseReading) (m : DayMap)
  : DayMap :=
  map (fun e =>
         if String.eqb (fst e) key then
           (fst e, mkDay (date (snd e)) (readings (snd e) ++ [r])%list
                         (wavetable (snd e)) (stats (snd e)))
         else e) m.

Definition emptyDay (key : string) : DailyGlucoseData :=
  mkDay key [] None (mkStats PInf NInf zero zero).

Definition add_reading (m : DayMap) (reading : GlucoseReading) : DayMap :=
  let dateKey := formatDateKey (timestamp reading) in
  let m' :=
    if map_has dateKey m then m
    else (m ++ [(dateKey, emptyDay dateKey)])%list in
  push_reading dateKey reading m'.

Definition groupReadingsByDay (readings : list GlucoseReading) : DayMap :=
  map (fun e => (fst e, calculateDayStats (snd e)))
      (fold_left add_reading readings []).

(** The body of [parseLibreViewCSV] once the header line is chosen. *)
Definition dataset_from (lines : list string) (headerIndex : nat)
  : ParsedLibreViewData :=
  let headers := parseCSVLine (nth headerIndex lines EmptyString) in
  let rows := collect_rows headers (skipn (S headerIndex) lines) in
  let unit := detectUnit headers in
  let deviceName :=
    match rows with
    | row0 :: _ =>
        if truthy (row_str "Device" row0) then row_str "Device" row0
        else "Unknown Device"%string
    | [] => "Unknown Device"%string
    end in
  let serialNumber :=
    match rows with
    | row0 :: _ => row_str "Serial Number" row0
    | [] => EmptyString
    end in
  let readings := parseGlucoseReadings rows unit in
  let days := groupReadingsByDay readings in
  mkParsed days unit deviceName serialNumber.

Definition csv_lines (csvContent : string) : list string :=
  split_lines (trim csvContent) EmptyString.

Definition parseLibreViewCSV (csvContent : string) : ParsedLibreViewData :=
  let lines := csv_lines csvContent in
  dataset_from lines (findHeaderIndex lines).

(** What a caller of [parseLibreViewCSV] observes.  The function has no
    [throw] and none of its operations raises, so the call always returns
    a dataset. *)
Inductive IngestionOutcome : Type :=
| Ingested (data : ParsedLibreViewData)
| IngestionFailure.

Definition ingest (csvContent : string) : IngestionOutcome :=
  Ingested (parseLibreViewCSV csvContent).

End Parser.

(** ** Glucose descriptors (src/synthesis/effects-config.ts) *)

Record GlucoseStatsWithVolatility : Type := mkGStats {
  min : number;
  max : number;
  avg : number;
  timeInRange : number;
  volatility : number
}.

(** [GLUCOSE_THRESHOLDS]. *)
Definition volatility_high : number := Fin 40.
Definition volatility_low : number := Fin 20.
Definition average_high : number := Fin 150.
Definition average_low : number := Fin 100.
Definition average_target : number := Fin 120.

Definition defaultStats : GlucoseStatsWithVolatility :=
  mkGStats (Fin 70) (Fin 180) (Fin 120) (Fin 70) (Fin 25).

(** The reducer of [combineGlucoseStats] and its initial accumulator. *)
Definition combine_step (acc stats : GlucoseStatsWithVolatility)
  : GlucoseStatsWithVolatility :=
  mkGStats (Math_min2 (min acc) (min stats))
           (Math_max2 (max acc) (max stats))
           (avg acc + avg stats)%num
           (timeInRange acc + timeInRange stats)%num
           (volatility acc + volatility stats)%num.

Definition combine_init : GlucoseStatsWithVolatility :=
  mkGStats PInf NInf zero zero zero.

Definition combineGlucoseStats (statsArray : list GlucoseStatsWithVolatility)
  : GlucoseStatsWithVolatility :=
  match statsArray with
  | [] => defaultStats
  | [s] => s
  | _ =>
      let combined := fold_left combine_step statsArray combine_init in
      let n := of_nat (List.length statsArray) in
      mkGStats (min combined) (max combined)
               (avg combined / n)%num
               (timeInRange combined / n)%num
               (volatility combined / n)%num
  end.

Inductive StatType : Type := Volatility | Average | TimeInRange.

Definition normalizeGlucoseStat (value : number) (type : StatType) : number :=
  match type with
  | Volatility =>
      Math_min2 one
        (Math_max2 zero
           ((value - volatility_low) / (volatility_high - volatility_low))%num)
  | Average =>
      if (value <=? average_low)%num then zero
      else if (value >=? average_high)%num then one
      else if (value <=? average_target)%num then
        (half * (value - average_low) / (average_target - average_low))%num
      else
        (half + half * (value - average_target)
                / (average_high - average_target))%num
  | TimeInRange =>
      Math_min2 one (Math_max2 zero (value / hundred)%num)
  end.

Local Close Scope Z_scope.
Local Close Scope char_scope.
Local Close Scope string_scope.
Local Close Scope Q_scope.

(** * Further code of the pipeline *)

(** ** src/synthesis/wavetable.ts, continued *)

Local Open Scope num_scope.

(** [GLUCOSE_RANGE.absolute] of src/types.ts. *)
Definition absolute_min : number := Fin 40.
Definition absolute_max : number := Fin 400.

Definition normalizeToPhysiologicalRange (values : list number)
  : Float32Array :=
  let min := absolute_min in
  let max := absolute_max in
  let range := max - min in
  map (fun v =>
         let clamped := Math_max2 min (Math_min2 max v) in
         ((clamped - min) / range) * two - one)
      values.

(** [wavetable[x]] read as a value: [undefined] ([None]) unless [x] is an
    index of the array. *)
Definition f32_read (a : Float32Array) (x : number) : option number :=
  match to_index x with
  | Some i => nth_error a i
  | None => None
  end.

(** [getWaveformForDisplay(wavetable, points)] for a whole number of
    points. *)
Definition getWaveformForDisplay (wavetable : Float32Array) (points : nat)
  : list (option number) :=
  let step := of_nat (List.length wavetable) / of_nat points in
  map (fun i => let index := Math_floor (of_nat i * step) in
                f32_read wavetable index)
      (seq 0 points).

Definition set_wavetable (dayData : DailyGlucoseData) (w : Float32Array)
  : DailyGlucoseData :=
  mkDay (date dayData) (readings dayData) (Some w) (stats dayData).

(** [generateAllWavetables(days)]: every day of the map receives its
    wavetable, in place. *)
Definition generateAllWavetables (days : DayMap) : DayMap :=
  map (fun e => (fst e, set_wavetable (snd e) (generateWavetable (snd e))))
      days.

(** ** src/parser/libreview.ts, continued *)

(** The comparison [Array.prototype.sort] makes without a comparator:
    strings are ordered by their code units. *)
Definition SortCompare (x y : string) : number :=
  match String.compare x y with
  | Lt => Fin (-1)
  | Eq => zero
  | Gt => one
  end.

Definition getAvailableDates (data : ParsedLibreViewData) : list string :=
  Array_sort SortCompare (map fst (days data)).

(** ** src/synthesis/effects-config.ts, continued *)

(** [Math.abs]. *)
Definition Math_abs (x : number) : number :=
  match x with
  | NaN => NaN
  | PInf | NInf => PInf
  | Fin q => fin (Qabs q)
  end.

(** The loop of [computeRateOfChange]: [prev] is the value of the reading
    before those still to visit.  As everywhere in the embedding the
    differences and the sum are exact: where the source overflows to
    Infinity the embedding has a large finite number, so it is used only
    for what does not depend on the overflow. *)
Fixpoint total_change (prev : number) (rest : list GlucoseReading)
    (totalChange : number) : number :=
  match rest with
  | [] => totalChange
  | r :: rest' =>
      total_change (value r) rest' (totalChange + Math_abs (value r - prev))
  end.

Definition computeRateOfChange (readings : list GlucoseReading) : number :=
  if (List.length readings <? 2)%nat then zero
  else
    match readings with
    | r0 :: rest =>
        total_change (value r0) rest zero
        / (of_nat (List.length readings) - one)
    | [] => zero
    end.

Local Close Scope num_scope.

(** * Specification-level notions *)

(** The rational a finite number stands for. *)
Definition toQ (x : number) : Q :=
  match x with Fin q => q | _ => 0%Q end.

(** [x] is the finite number of value [q]. *)
Definition denotes (x : number) (q : Q) : Prop :=
  exists q', x = Fin q' /\ (q' == q)%Q.

Definition all_finite (l : list number) : Prop :=
  Forall (fun x => isFinite x = true) l.

(** A sequence of numbers is non-decreasing when each element is below or
    equal to every later one (and to itself, which excludes NaN). *)
Definition non_decreasing (l : list number) : Prop :=
  forall i j, i <= j < List.length l ->
    (nth i l NaN <=? nth j l NaN)%num = true.

(** The piecewise-linear interpolant of [qs 0 .. qs (n-1)] at position [s],
    constant from the last point on. *)
Definition interp (qs : nat -> Q) (n : Z) (s : Q) : Q :=
  let k := Qfloor s in
  let c := Z.min (k + 1) (n - 1) in
  (qs (Z.to_nat k) * (1 - (s - inject_Z k))
   + qs (Z.to_nat c) * (s - inject_Z k))%Q.

(** The source position of output sample [i] when [n] values are resampled
    to [T]. *)
Definition src_pos (n T i : nat) : Q :=
  (inject_Z (Z.of_nat i) * (inject_Z (Z.of_nat n) / inject_Z (Z.of_nat T)))%Q.

(** [x] clamped to the interval from [lo] to [hi]. *)
Definition clamp (x lo hi : number) : number :=
  if (x <=? lo)%num then lo else if (x >=? hi)%num then hi else x.

(** The linear map that sends the interval from [a] to [b] onto the one
    from [c] to [d]. *)
Definition linear_map (a b c d x : number) : number :=
  (c + (x - a) * ((d - c) / (b - a)))%num.

(** The normalisation curves, as the specification words them. *)
Definition normalized_stat (value : number) (type : StatType) : number :=
  match type with
  | Volatility =>
      clamp ((value - Fin 20) / (Fin 40 - Fin 20))%num zero one
  | Average =>
      if (value <=? Fin 100)%num then zero
      else if (value >=? Fin 150)%num then one
      else if (value <=? Fin 120)%num
      then linear_map (Fin 100) (Fin 120) zero half value
      else linear_map (Fin 120) (Fin 150) half one value
  | TimeInRange => clamp (value / Fin 100)%num zero one
  end.

(** The arithmetic mean of a list of numbers. *)
Definition mean (l : list number) : number :=
  (fold_left nadd l zero / of_nat (List.length l))%num.

(** A value lies in the target band when it is a finite number between 70
    and 180, both included. *)
Definition in_target_band (v : number) : Prop :=
  exists q, v = Fin q /\ (70 <= q)%Q /\ (q <= 180)%Q.

(** The number of values of a list in the target band. *)
Fixpoint band_count (values : list number) : nat :=
  match values with
  | [] => 0
  | Fin q :: rest =>
      (if Qle_bool 70 q && Qle_bool q 180 then 1 else 0) + band_count rest
  | _ :: rest => band_count rest
  end.

(** ** Inputs of the scenarios *)

Definition newline : string := String LF EmptyString.

(** The two-line export of the end-to-end scenario. *)
Definition scenario_csv : string :=
  ("Device Timestamp,Historic Glucose mg/dL" ++ newline
   ++ "01-06-2024 10:00,120")%string.

Definition scenario_day : DailyGlucoseData :=
  mkDay "2024-06-01"
        [mkReading (DateTV 1717236000000) (Fin 120) 0] None
        (mkStats (Fin 120) (Fin 120) (Fin 120) (Fin 100)).

(** The same export with the reading [Infinity], which [parseFloat]
    accepts and [isNaN] lets through. *)
Definition infinite_csv : string :=
  ("Device Timestamp,Historic Glucose mg/dL" ++ newline
   ++ "01-06-2024 10:00,Infinity")%string.

(** A day holding the given values, in this order. *)
Definition dayOf (values : list number) : DailyGlucoseData :=
  mkDay "2024-06-01"
        (map (fun v => mkReading (DateTV 1717236000000) v 0) values) None
        (mkStats PInf NInf zero zero).

(** ** What a regular expression matches

    [matches r s c s' c']: from the input [s] and the captures [c], the
    expression [r] can consume a prefix of [s], leaving [s'] and the
    captures [c']. *)

Inductive matches : regex -> string -> captures -> string -> captures -> Prop :=
| M_chr p a s c :
    p a = true -> matches (Chr p) (String a s) c s c
| M_cat r1 r2 s c s1 c1 s2 c2 :
    matches r1 s c s1 c1 -> matches r2 s1 c1 s2 c2 ->
    matches (Cat r1 r2) s c s2 c2
| M_grp n r s c s' c' :
    matches r s c s' c' ->
    matches (Grp n r) s c s' (set_cap n (consumed s s') c')
| M_rep_stop r lo hi s c :
    lo = 0 \/ hi = Some 0 -> matches (Rep r lo hi) s c s c
| M_rep_more r lo hi s c s1 c1 s2 c2 :
    hi <> Some 0 ->
    matches r s (clear_caps (groups_of r) c) s1 c1 ->
    matches (Rep r (pred lo) (hi_pred hi)) s1 c1 s2 c2 ->
    matches (Rep r lo hi) s c s2 c2.

(** Every character of a string satisfies [p]. *)
Fixpoint str_all (p : ascii -> bool) (s : string) : bool :=
  match s with
  | EmptyString => true
  | String a s' => p a && str_all p s'
  end.

(** A non-empty run of at most [n] decimal digits. *)
Definition digit_run (n : nat) (s : string) : Prop :=
  str_all is_digit s = true /\ 1 <= String.length s <= n.

(** A date that is not the invalid date. *)
Definition valid_date (d : Date) : Prop := exists t, d = DateTV t.

(** The day and the month (in this order) that the two leading groups [a]
    and [b] of a day-month-year timestamp stand for: a group above 12 can
    only be the day, and the day comes first when both could be a month. *)
Definition resolve_day_month (a b : number) : number * number :=
  if (a >? Fin 12)%num then (a, b)
  else if (b >? Fin 12)%num then (b, a)
  else (a, b).

(** A timestamp of the form A-B-C hh:mm or A-B-C hh:mm:ss. *)
Definition timestamp_string (A B C hh mm tail : string) (sep1 sep2 : ascii)
  : string :=
  (A ++ String sep1 (B ++ String sep2 (C ++ String " "%char
     (hh ++ String ":"%char (mm ++ tail)))))%string.

(** Nothing, or a colon and two digits of seconds. *)
Definition seconds_tail (tail : string) : Prop :=
  tail = EmptyString
  \/ exists x y, is_digit x = true /\ is_digit y = true
       /\ tail = String ":"%char (String x (String y EmptyString)).

(** The day of the month and the month (from 1) of a parsed timestamp. *)
Definition date_of (d : option Date) : option Z * option Z :=
  match d with
  | Some d => (getDate d, option_map (Z.add 1) (getMonth d))
  | None => (None, None)
  end.

(** A host whose [Date.parse] accepts nothing. *)
Definition no_native_parse : string -> option Z := fun _ => None.

(** Order and equality of readings by time. *)
Definition time_le (a b : GlucoseReading) : Prop :=
  (getTime (timestamp a) <=? getTime (timestamp b))%num = true.

Definition at_time (t : number) (r : GlucoseReading) : bool :=
  (getTime (timestamp r) === t)%num.

Definition valid_reading (r : GlucoseReading) : Prop :=
  valid_date (timestamp r).

(** The time of a valid reading as an integer. *)
Definition time_of (r : GlucoseReading) : Z :=
  match timestamp r with DateTV t => UTC t | InvalidDate => 0%Z end.

(** The readings of a list that fall on the day [key]. *)
Definition on_day (key : string) (rs : list GlucoseReading)
  : list GlucoseReading :=
  filter (fun r => String.eqb (formatDateKey (timestamp r)) key) rs.

(** The map of days [m] holds, day by day, the readings [rs] seen so far. *)
Definition grouped (m : DayMap) (rs : list GlucoseReading) : Prop :=
  (forall e, In e m -> readings (snd e) = on_day (fst e) rs)
  /\ (forall r, In r rs -> map_has (formatDateKey (timestamp r)) m = true).

(** None of the first ten lines of the export names both words of the
    header. *)
Definition no_header_in_prefix (csvContent : string) : Prop :=
  Forall (fun line => is_header_line line = false)
         (firstn 10 (csv_lines csvContent)).

(** An export whose first line lacks the word "device". *)
Definition headerless_csv : string :=
  ("Timestamp,Historic Glucose mg/dL" ++ newline
   ++ "01-06-2024 10:00,120")%string.

(** ** The Gregorian calendar *)

(** The number of days of month [m] (from 1) of year [y]. *)
Definition daysInMonth (y m : Z) : Z :=
  (if m =? 2 then (if isLeapYear y then 29 else 28)
   else if (m =? 4) || (m =? 6) || (m =? 9) || (m =? 11) then 30 else 31)%Z.

(** Days from the first of March of year 0 to the first of March of year
    [Y]. *)
Definition march_days (Y : Z) : Z :=
  (365 * Y + Y / 4 - Y / 100 + Y / 400)%Z.

(** A finite number between 0 and 1. *)
Definition unit_interval (x : number) : Prop :=
  exists q, x = Fin q /\ (0 <= q <= 1)%Q.

(** * Further specification-level notions *)

Definition is_comma (c : ascii) : bool := Ascii.eqb c ","%char.
Definition is_dquote (c : ascii) : bool := Ascii.eqb c dquote.

(** A field that is written without quoting: it holds neither a comma nor
    a double quote. *)
Definition plain_field (f : string) : Prop :=
  str_all (fun c => negb (is_comma c) && negb (is_dquote c)) f = true.

Definition quote_free (s : string) : Prop :=
  str_all (fun c => negb (is_dquote c)) s = true.

Definition comma : string := String ","%char EmptyString.

(** A line of text: no carriage return and no line feed. *)
Definition line_text (s : string) : Prop :=
  str_all (fun c => negb (Ascii.eqb c CR) && negb (Ascii.eqb c LF)) s = true.

Definition crlf : string := String CR newline.

(** One column stored in a row under construction. *)
Definition set_column (row : CSVRow) (hv : string * string) : CSVRow :=
  row_set (trim (fst hv)) (trim (snd hv)) row.

(** A column name that mentions a glucose measurement. *)
Definition names_glucose (key : string) : bool :=
  (includes (toLowerCase key) "historic glucose"
   || includes (toLowerCase key) "scan glucose")%string.

(** A reading as the parser leaves it: a value that is a number, a valid
    timestamp and a record type 0 (historic) or 1 (scan). *)
Definition well_formed_reading (r : GlucoseReading) : Prop :=
  isNaN (value r) = false
  /\ valid_date (timestamp r)
  /\ (recordType r = 0%nat \/ recordType r = 1%nat).

(** A reading with its value converted from mmol/L to mg/dL. *)
Definition in_mg_dL (r : GlucoseReading) : GlucoseReading :=
  mkReading (timestamp r) (value r * mmol_factor)%num (recordType r).

(** The local calendar date of a parsed timestamp: year, month (from 1)
    and day of the month. *)
Definition calendar_date (d : option Date) : option (Z * Z * Z) :=
  match d with
  | Some d =>
      match getFullYear d, getMonth d, getDate d with
      | Some y, Some m, Some dd => Some (y, (m + 1)%Z, dd)
      | _, _, _ => None
      end
  | None => None
  end.

(** The value of a run of decimal digits. *)
Definition digits_value (s : string) : Z := decimal_value 0 s.

(** The fields exist as a time on a day of the calendar. *)
Definition calendar_time (y m d h mi : Z) : Prop :=
  (1 <= m <= 12 /\ 1 <= d <= daysInMonth y m /\ h <= 23 /\ mi <= 59)%Z.

(** The map of days [m] is the index of the readings [rs]: one entry for
    each day key, named after its key, and every key is that of some
    reading. *)
Definition day_index (m : DayMap) (rs : list GlucoseReading) : Prop :=
  NoDup (map fst m)
  /\ (forall e, In e m -> date (snd e) = fst e /\ wavetable (snd e) = None)
  /\ (forall e, In e m ->
        exists r, In r rs /\ formatDateKey (timestamp r) = fst e).

(** All the readings held by a map of days, day after day. *)
Definition all_readings (m : DayMap) : list GlucoseReading :=
  flat_map (fun e => readings (snd e)) m.

(** An amplitude: a finite number between -1 and 1. *)
Definition unit_amplitude (x : number) : Prop :=
  exists q, x = Fin q /\ (-1 <= q <= 1)%Q.

(** The values are not all equal. *)
Definition not_flat (values : list number) : Prop :=
  exists a b, In a values /\ In b values /\ (a <? b)%num = true.

(** The key YYYY-MM-DD of a day of the calendar, month and day on two
    digits. *)
Definition date_key (y m d : Z) : string :=
  (string_of_Z y ++ "-" ++ padStart2 (string_of_Z m) ++ "-"
   ++ padStart2 (string_of_Z d))%string.

(** A string that starts with a decimal digit. *)
Definition head_digit (s : string) : bool :=
  match s with String c _ => is_digit c | EmptyString => false end.

(** The string holds no white space of the kind that separates headers. *)
Definition space_free (s : string) : Prop :=
  str_all (fun c => negb (Ascii.eqb c " "%char)) s = true.

(** A day of the calendar is not after another. *)
Definition date_le (y1 m1 d1 y2 m2 d2 : Z) : Prop :=
  (y1 < y2 \/ (y1 = y2 /\ (m1 < m2 \/ (m1 = m2 /\ d1 <= d2))))%Z.

Definition string_le (a b : string) : Prop := String.leb a b = true.

(** One of the two infinities. *)
Definition is_infinite (x : number) : bool :=
  match x with PInf | NInf => true | _ => false end.

(** The array holds no infinity (it may hold NaN). *)
Definition no_infinity (l : list number) : Prop :=
  Forall (fun x => is_infinite x = false) l.

(** [Number.MAX_VALUE], the largest finite double. *)
Definition MAX_VALUE : Q := inject_Z (2 ^ 1024 - 2 ^ 971).

(** The difference between the largest and the smallest of the values is
    at most the largest double: in the source [max - min] does not
    overflow to Infinity. *)
Definition spread_in_range (values : list number) : Prop :=
  (toQ (Math_max values) - toQ (Math_min values) <= MAX_VALUE)%Q.

(** * Properties *)

(** ** Arithmetic of finite numbers *)

Section NumberFacts.
Local Open Scope Q_scope.

Lemma denotes_Fin q : denotes (Fin q) q.
Proof. exists q; split; [reflexivity | apply Qeq_refl]. Qed.

Lemma denotes_fin q : denotes (fin q) q.
Proof. exists (Qred q); split; [reflexivity | apply Qred_correct]. Qed.

Lemma denotes_eq x p q : denotes x p -> p == q -> denotes x q.
Proof. intros (p' & -> & E) H. exists p'. split; [reflexivity|]. now rewrite E. Qed.

Lemma fin_eq p q : p == q -> fin p = fin q.
Proof. intro H. unfold fin. f_equal. now apply Qred_complete. Qed.

Lemma Qltb_iff a b : Qltb a b = true <-> a < b.
Proof.
  unfold Qltb. rewrite negb_true_iff. split; intro H.
  - apply Qnot_le_lt. intro L. apply Qle_bool_iff in L. congruence.
  - destruct (Qle_bool b a) eqn:E; [|reflexivity].
    apply Qle_bool_iff in E. exfalso. apply (Qlt_not_le _ _ H E).
Qed.

Lemma Qzero_b_iff q : Qzero_b q = true <-> q == 0.
Proof. apply Qeq_bool_iff. Qed.

Lemma denotes_add x y a b :
  denotes x a -> denotes y b -> denotes (x + y)%num (a + b).
Proof.
  intros (a' & -> & Ea) (b' & -> & Eb). simpl.
  eapply denotes_eq; [apply denotes_fin|]. now rewrite Ea, Eb.
Qed.

Lemma denotes_sub x y a b :
  denotes x a -> denotes y b -> denotes (x - y)%num (a - b).
Proof.
  intros (a' & -> & Ea) (b' & -> & Eb). simpl.
  eapply denotes_eq; [apply denotes_fin|]. now rewrite Ea, Eb.
Qed.

Lemma denotes_mul x y a b :
  denotes x a -> denotes y b -> denotes (x * y)%num (a * b).
Proof.
  intros (a' & -> & Ea) (b' & -> & Eb). simpl.
  eapply denotes_eq; [apply denotes_fin|]. now rewrite Ea, Eb.
Qed.

Lemma denotes_div x y a b :
  denotes x a -> denotes y b -> ~ b == 0 -> denotes (x / y)%num (a / b).
Proof.
  intros (a' & -> & Ea) (b' & -> & Eb) Hb. simpl.
  destruct (Qzero_b b') eqn:Z.
  - apply Qzero_b_iff in Z. exfalso. apply Hb. now rewrite <- Eb.
  - eapply denotes_eq; [apply denotes_fin|]. now rewrite Ea, Eb.
Qed.

Lemma denotes_floor x a :
  denotes x a -> denotes (Math_floor x) (inject_Z (Qfloor a)).
Proof.
  intros (a' & -> & Ea). simpl. unfold of_Z. rewrite Ea. apply denotes_Fin.
Qed.

Lemma denotes_of_Z z : denotes (of_Z z) (inject_Z z).
Proof. apply denotes_Fin. Qed.

Lemma denotes_of_nat n : denotes (of_nat n) (inject_Z (Z.of_nat n)).
Proof. apply denotes_Fin. Qed.

Lemma nle_denotes x y a b :
  denotes x a -> denotes y b -> ((x <=? y)%num = true <-> a <= b).
Proof.
  intros (a' & -> & Ea) (b' & -> & Eb). simpl.
  rewrite Qle_bool_iff. now rewrite Ea, Eb.
Qed.

Lemma nlt_denotes x y a b :
  denotes x a -> denotes y b -> ((x <? y)%num = true <-> a < b).
Proof.
  intros (a' & -> & Ea) (b' & -> & Eb). simpl.
  rewrite Qltb_iff. now rewrite Ea, Eb.
Qed.

Lemma neq_denotes x y a b :
  denotes x a -> denotes y b -> ((x === y)%num = true <-> a == b).
Proof.
  intros (a' & -> & Ea) (b' & -> & Eb). simpl.
  rewrite Qeq_bool_iff. now rewrite Ea, Eb.
Qed.

Lemma to_index_denotes x (k : Z) :
  denotes x (inject_Z k) -> (0 <= k)%Z -> to_index x = Some (Z.to_nat k).
Proof.
  intros (q & -> & E) Hk. unfold to_index.
  assert (F : Qfloor q = k) by (rewrite E; apply Qfloor_Z).
  rewrite F.
  assert (B : Qeq_bool (inject_Z k) q = true) by (apply Qeq_bool_iff; now rewrite E).
  rewrite B. simpl.
  destruct (Z.leb_spec 0 k); [reflexivity | lia].
Qed.

Lemma f32_get_denotes a x (k : Z) :
  denotes x (inject_Z k) -> (0 <= k)%Z -> f32_get a x = nth (Z.to_nat k) a NaN.
Proof.
  intros D Hk. unfold f32_get. now rewrite (to_index_denotes _ _ D Hk).
Qed.

(** Two-argument minimum on integers. *)
Lemma Math_min2_denotes_Z x y (a b : Z) :
  denotes x (inject_Z a) -> denotes y (inject_Z b) ->
  denotes (Math_min2 x y) (inject_Z (Z.min a b)).
Proof.
  intros (a' & -> & Ea) (b' & -> & Eb).
  unfold Math_min2, Math_min. simpl. unfold min_step. simpl.
  destruct (Qltb b' a') eqn:L.
  - apply Qltb_iff in L. rewrite Ea, Eb in L. rewrite <- Zlt_Qlt in L.
    exists b'. split; [reflexivity|]. rewrite Eb. now rewrite Z.min_r by lia.
  - exists a'. split; [reflexivity|]. rewrite Ea.
    assert (~ (b < a)%Z) as N.
    { intro H. rewrite Zlt_Qlt in H. rewrite <- Ea, <- Eb in H.
      apply Qltb_iff in H. congruence. }
    now rewrite Z.min_l by lia.
Qed.

End NumberFacts.

(** ** The wavetable has a fixed length *)

Lemma zeros_length n : List.length (zeros n) = n.
Proof. apply repeat_length. Qed.

Lemma normalizeGlucoseValues_length values :
  List.length (normalizeGlucoseValues values) = List.length values.
Proof.
  unfold normalizeGlucoseValues.
  destruct (Nat.eqb_spec (List.length values) 0) as [E|E].
  - now rewrite E.
  - destruct (neq _ _); [apply zeros_length | apply length_map].
Qed.

Lemma resampleToWavetableSize_length values targetSize :
  List.length (resampleToWavetableSize values targetSize) = targetSize.
Proof.
  unfold resampleToWavetableSize.
  destruct (Nat.eqb_spec (List.length values) 0); [apply zeros_length|].
  destruct (Nat.eqb_spec (List.length values) targetSize); [assumption|].
  now rewrite length_map, length_seq.
Qed.

Lemma smooth_pass_length w : List.length (smooth_pass w) = List.length w.
Proof. unfold smooth_pass. now rewrite length_map, length_seq. Qed.

Lemma smoothWavetable_length passes : forall w,
  List.length (smoothWavetable w passes) = List.length w.
Proof.
  induction passes as [|p IH]; intro w; simpl; [reflexivity|].
  now rewrite IH, smooth_pass_length.
Qed.

(** C4.  Whatever the number of readings of a day (none, one, exactly 2048
    or any other), [generateWavetable] returns exactly 2048 samples. *)
Theorem generateWavetable_length (dayData : DailyGlucoseData) :
  List.length (generateWavetable dayData) = 2048%nat.
Proof.
  unfold generateWavetable.
  destruct (List.length (readings dayData) =? 0)%nat.
  - apply zeros_length.
  - rewrite smoothWavetable_length. apply resampleToWavetableSize_length.
Qed.

(** ** Resampling *)

Section WavetableFacts.
Local Open Scope Q_scope.

Lemma isFinite_denotes x : isFinite x = true -> denotes x (toQ x).
Proof. destruct x; try discriminate. intros _. apply denotes_Fin. Qed.

Lemma all_finite_nth l i :
  all_finite l -> (i < List.length l)%nat -> denotes (nth i l NaN) (toQ (nth i l NaN)).
Proof.
  intros F Hi. apply isFinite_denotes.
  unfold all_finite in F. rewrite Forall_forall in F. apply F. now apply nth_In.
Qed.

Lemma Qfloor_bounds s (n : Z) :
  0 <= s -> s < inject_Z n -> (0 <= Qfloor s < n)%Z.
Proof.
  intros H0 Hn. split.
  - change 0%Z with (Qfloor 0). now apply Qfloor_resp_le.
  - rewrite Zlt_Qlt. eapply Qle_lt_trans; [apply Qfloor_le | exact Hn].
Qed.

Lemma interp_mono (qs : nat -> Q) (n : Z) (s s' : Q) :
  (forall i j, (i <= j)%nat -> (Z.of_nat j < n)%Z -> qs i <= qs j) ->
  0 <= s -> s <= s' -> s' < inject_Z n ->
  interp qs n s <= interp qs n s'.
Proof.
  intros M H0 Hs Hn. unfold interp.
  assert (Hn0 : s < inject_Z n) by (eapply Qle_lt_trans; eauto).
  assert (H0' : 0 <= s') by (eapply Qle_trans; eauto).
  destruct (Qfloor_bounds s n H0 Hn0) as [K0 Kn].
  destruct (Qfloor_bounds s' n H0' Hn) as [K0' Kn'].
  pose proof (Qfloor_resp_le _ _ Hs) as KK.
  pose proof (Qfloor_le s) as F1. pose proof (Qlt_floor s) as F2.
  pose proof (Qfloor_le s') as F1'. pose proof (Qlt_floor s') as F2'.
  set (k := Qfloor s) in *. set (k' := Qfloor s') in *.
  rewrite inject_Z_plus in F2, F2'. change (inject_Z 1) with 1 in F2, F2'.
  assert (A : qs (Z.to_nat k) <= qs (Z.to_nat (Z.min (k + 1) (n - 1)))).
  { apply M; [|rewrite Z2Nat.id]; lia. }
  assert (A' : qs (Z.to_nat k') <= qs (Z.to_nat (Z.min (k' + 1) (n - 1)))).
  { apply M; [|rewrite Z2Nat.id]; lia. }
  destruct (Z.eq_dec k k') as [E|NE].
  - rewrite <- E in *.
    set (a := qs (Z.to_nat k)) in *.
    set (b := qs (Z.to_nat (Z.min (k + 1) (n - 1)))) in *.
    nra.
  - assert (B : qs (Z.to_nat (Z.min (k + 1) (n - 1))) <= qs (Z.to_nat k')).
    { apply M; [|rewrite Z2Nat.id]; lia. }
    set (a := qs (Z.to_nat k)) in *.
    set (b := qs (Z.to_nat (Z.min (k + 1) (n - 1)))) in *.
    set (a' := qs (Z.to_nat k')) in *.
    set (b' := qs (Z.to_nat (Z.min (k' + 1) (n - 1)))) in *.
    apply Qle_trans with b; [nra|].
    apply Qle_trans with a'; [exact B | nra].
Qed.


Lemma src_pos_bounds n T i :
  (0 < n)%nat -> (i < T)%nat ->
  0 <= src_pos n T i /\ src_pos n T i < inject_Z (Z.of_nat n).
Proof.
  intros Hn Hi. unfold src_pos.
  assert (Tp : 0 < inject_Z (Z.of_nat T)).
  { change 0 with (inject_Z 0). rewrite <- Zlt_Qlt. lia. }
  assert (Np : 0 < inject_Z (Z.of_nat n)).
  { change 0 with (inject_Z 0). rewrite <- Zlt_Qlt. lia. }
  assert (I0 : 0 <= inject_Z (Z.of_nat i)).
  { change 0 with (inject_Z 0). rewrite <- Zle_Qle. lia. }
  assert (IT : inject_Z (Z.of_nat i) < inject_Z (Z.of_nat T)).
  { rewrite <- Zlt_Qlt. lia. }
  set (r := inject_Z (Z.of_nat n) / inject_Z (Z.of_nat T)).
  assert (R : r * inject_Z (Z.of_nat T) == inject_Z (Z.of_nat n)).
  { unfold r. field. intro E. rewrite E in Tp. now apply Qlt_irrefl in Tp. }
  assert (Rp : 0 < r).
  { unfold r. apply Qlt_shift_div_l; [exact Tp|]. now rewrite Qmult_0_l. }
  split; [nra|]. rewrite <- R. nra.
Qed.

Lemma src_pos_mono n T i j :
  (0 < n)%nat -> (0 < T)%nat -> (i <= j)%nat -> src_pos n T i <= src_pos n T j.
Proof.
  intros Hn HT Hij. unfold src_pos.
  assert (Tp : 0 < inject_Z (Z.of_nat T)).
  { change 0 with (inject_Z 0). rewrite <- Zlt_Qlt. lia. }
  assert (Np : 0 < inject_Z (Z.of_nat n)).
  { change 0 with (inject_Z 0). rewrite <- Zlt_Qlt. lia. }
  assert (Rp : 0 < inject_Z (Z.of_nat n) / inject_Z (Z.of_nat T)).
  { apply Qlt_shift_div_l; [exact Tp|]. now rewrite Qmult_0_l. }
  assert (IJ : inject_Z (Z.of_nat i) <= inject_Z (Z.of_nat j)).
  { rewrite <- Zle_Qle. lia. }
  nra.
Qed.

(** On finite data the interpolation loop computes the interpolant. *)
Lemma resample_at_denotes values T i :
  all_finite values -> (0 < List.length values)%nat -> (i < T)%nat ->
  denotes
    (resample_at values (of_nat (List.length values) / of_nat T)%num i)
    (interp (fun k => toQ (nth k values NaN)) (Z.of_nat (List.length values))
            (src_pos (List.length values) T i)).
Proof.
  intros F Hn Hi. set (n := List.length values) in *.
  destruct (src_pos_bounds n T i Hn Hi) as [S0 Sn].
  destruct (Qfloor_bounds _ _ S0 Sn) as [K0 Kn].
  unfold resample_at, interp. fold n.
  set (s := src_pos n T i) in *. set (k := Qfloor s) in *.
  assert (Dr : denotes (of_nat n / of_nat T)%num
                       (inject_Z (Z.of_nat n) / inject_Z (Z.of_nat T))).
  { apply denotes_div; try apply denotes_of_nat.
    intro E. apply (proj1 (inject_Z_injective _ 0)) in E. lia. }
  assert (Ds : denotes (of_nat i * (of_nat n / of_nat T))%num s).
  { apply denotes_mul; [apply denotes_of_nat | exact Dr]. }
  assert (Dk : denotes (Math_floor (of_nat i * (of_nat n / of_nat T))%num) (inject_Z k)).
  { now apply denotes_floor. }
  assert (Dc : denotes
            (Math_min2 (Math_floor (of_nat i * (of_nat n / of_nat T)) + one)
                       (of_nat n - one))%num
            (inject_Z (Z.min (k + 1) (Z.of_nat n - 1)))).
  { apply Math_min2_denotes_Z.
    - eapply denotes_eq; [apply denotes_add; [exact Dk | apply denotes_Fin]|].
      now rewrite inject_Z_plus.
    - eapply denotes_eq; [apply denotes_sub; [apply denotes_of_nat | apply denotes_Fin]|].
      unfold Zminus. rewrite inject_Z_plus. reflexivity. }
  rewrite (f32_get_denotes _ _ _ Dk K0).
  rewrite (f32_get_denotes _ _ _ Dc) by lia.
  apply denotes_add; apply denotes_mul.
  - apply all_finite_nth; [exact F | fold n; lia].
  - apply denotes_sub; [apply denotes_Fin|]. now apply denotes_sub.
  - apply all_finite_nth; [exact F | fold n; lia].
  - now apply denotes_sub.
Qed.

Lemma non_decreasing_zeros n : non_decreasing (zeros n).
Proof.
  intros i j [Hij Hj]. rewrite zeros_length in Hj.
  unfold zeros. rewrite !nth_repeat_lt by lia. reflexivity.
Qed.

Lemma resample_nth values T i :
  (List.length values <> 0)%nat -> List.length values <> T -> (i < T)%nat ->
  nth i (resampleToWavetableSize values T) NaN
  = resample_at values (of_nat (List.length values) / of_nat T)%num i.
Proof.
  intros N0 NT Hi. unfold resampleToWavetableSize.
  destruct (Nat.eqb_spec (List.length values) 0); [contradiction|].
  destruct (Nat.eqb_spec (List.length values) T); [contradiction|].
  rewrite nth_indep with (d' := resample_at values (of_nat (List.length values) / of_nat T)%num 0%nat)
    by now rewrite length_map, length_seq.
  rewrite map_nth. now rewrite seq_nth.
Qed.

Lemma resample_monotone values T :
  all_finite values -> non_decreasing values ->
  non_decreasing (resampleToWavetableSize values T).
Proof.
  intros F M.
  destruct (Nat.eq_dec (List.length values) 0) as [E0|N0].
  { unfold resampleToWavetableSize. rewrite E0. apply non_decreasing_zeros. }
  destruct (Nat.eq_dec (List.length values) T) as [ET|NT].
  { unfold resampleToWavetableSize.
    destruct (Nat.eqb_spec (List.length values) 0); [contradiction|].
    rewrite ET, Nat.eqb_refl. exact M. }
  intros i j [Hij Hj]. rewrite resampleToWavetableSize_length in Hj.
  rewrite !resample_nth by lia.
  assert (Hn : (0 < List.length values)%nat) by lia.
  rewrite (nle_denotes _ _ _ _ (resample_at_denotes values T i F Hn ltac:(lia))
                               (resample_at_denotes values T j F Hn Hj)).
  destruct (src_pos_bounds (List.length values) T i Hn ltac:(lia)) as [S0 _].
  destruct (src_pos_bounds (List.length values) T j Hn Hj) as [_ Sn].
  apply interp_mono; try assumption.
  - intros a b Hab Hb.
    assert (Hb' : (b < List.length values)%nat) by lia.
    rewrite <- (nle_denotes (nth a values NaN) (nth b values NaN)).
    + apply M. lia.
    + apply all_finite_nth; [exact F | lia].
    + now apply all_finite_nth.
  - apply src_pos_mono; lia.
Qed.


End WavetableFacts.

(** ** Flat days *)

Section Flat.
Local Open Scope Q_scope.

Lemma finite_sum_canonical x y q :
  denotes (x + y)%num q -> (x + y)%num = fin q.
Proof.
  intros (q' & E & Eq).
  destruct x, y; simpl in *; try discriminate.
  injection E as <-. apply fin_eq. now rewrite <- (Qred_correct (q0 + q1)).
Qed.

Lemma finite_sub_zero x y q :
  denotes x q -> denotes y q -> (x - y === zero)%num = true.
Proof.
  intros Dx Dy. apply (neq_denotes _ _ (q - q) 0).
  - now apply denotes_sub.
  - apply denotes_Fin.
  - ring.
Qed.

Lemma no_NaN_of_finite l : all_finite l -> existsb isNaN l = false.
Proof.
  induction 1 as [|x l Hx _ IH]; [reflexivity|].
  simpl. rewrite IH. now destruct x.
Qed.

Lemma fold_min_flat q l : forall acc,
  Forall (fun x => denotes x q) l ->
  acc = PInf \/ denotes acc q ->
  (l <> [] \/ denotes acc q) ->
  denotes (fold_left min_step l acc) q.
Proof.
  induction l as [|x l IH]; intros acc F A N; simpl.
  - destruct N as [N|N]; [contradiction | exact N].
  - inversion F as [|? ? Dx F']; subst.
    apply IH; [exact F'| |].
    + right. unfold min_step. destruct (x <? acc)%num eqn:L; [exact Dx|].
      destruct A as [->|A]; [|exact A].
      destruct Dx as (q' & -> & _). simpl in L. discriminate.
    + right. unfold min_step. destruct (x <? acc)%num eqn:L; [exact Dx|].
      destruct A as [->|A]; [|exact A].
      destruct Dx as (q' & -> & _). simpl in L. discriminate.
Qed.

Lemma fold_max_flat q l : forall acc,
  Forall (fun x => denotes x q) l ->
  acc = NInf \/ denotes acc q ->
  (l <> [] \/ denotes acc q) ->
  denotes (fold_left max_step l acc) q.
Proof.
  induction l as [|x l IH]; intros acc F A N; simpl.
  - destruct N as [N|N]; [contradiction | exact N].
  - inversion F as [|? ? Dx F']; subst.
    apply IH; [exact F'| |].
    + right. unfold max_step. destruct (x >? acc)%num eqn:L; [exact Dx|].
      destruct A as [->|A]; [|exact A].
      destruct Dx as (q' & -> & _). simpl in L. discriminate.
    + right. unfold max_step. destruct (x >? acc)%num eqn:L; [exact Dx|].
      destruct A as [->|A]; [|exact A].
      destruct Dx as (q' & -> & _). simpl in L. discriminate.
Qed.

Lemma flat_all_finite q l : Forall (fun x => denotes x q) l -> all_finite l.
Proof.
  unfold all_finite. apply Forall_impl. intros x (q' & -> & _). reflexivity.
Qed.

(** A day of equal finite values normalises to zeros. *)
Lemma normalizeGlucoseValues_flat q values :
  Forall (fun x => denotes x q) values ->
  normalizeGlucoseValues values = zeros (List.length values).
Proof.
  intro F. unfold normalizeGlucoseValues.
  destruct values as [|v vs]; [reflexivity|].
  cbn [List.length Nat.eqb].
  assert (NE : v :: vs <> []) by discriminate.
  unfold Math_min, Math_max.
  rewrite (no_NaN_of_finite _ (flat_all_finite _ _ F)).
  rewrite (finite_sub_zero _ _ q); [reflexivity| |].
  - apply fold_max_flat; auto.
  - apply fold_min_flat; auto.
Qed.

Lemma all_finite_zeros n : all_finite (zeros n).
Proof. apply Forall_forall. intros x H. apply repeat_spec in H. now subst. Qed.

Lemma toQ_nth_zeros n k : toQ (nth k (zeros n) NaN) == 0.
Proof.
  destruct (Nat.lt_ge_cases k n) as [L|G].
  - unfold zeros. rewrite nth_repeat_lt by exact L. reflexivity.
  - rewrite nth_overflow by (now rewrite zeros_length). reflexivity.
Qed.

Lemma resample_at_zeros n T i :
  (0 < n)%nat -> (i < T)%nat ->
  resample_at (zeros n) (of_nat n / of_nat T)%num i = zero.
Proof.
  intros Hn Hi.
  pose proof (resample_at_denotes (zeros n) T i (all_finite_zeros n)) as D.
  rewrite zeros_length in D. specialize (D Hn Hi).
  unfold resample_at in *. rewrite zeros_length in *.
  apply finite_sum_canonical in D. rewrite D.
  change zero with (fin 0). apply fin_eq. unfold interp.
  rewrite !toQ_nth_zeros. ring.
Qed.

Lemma map_const_zero {A} (f : A -> number) l :
  (forall x, In x l -> f x = zero) -> map f l = zeros (List.length l).
Proof.
  induction l as [|x l IH]; intro H; [reflexivity|].
  simpl. rewrite H by now left. unfold zeros in IH. rewrite IH; [reflexivity|].
  intros y Hy. apply H. now right.
Qed.

Lemma resample_zeros n T : resampleToWavetableSize (zeros n) T = zeros T.
Proof.
  unfold resampleToWavetableSize. rewrite zeros_length.
  destruct (Nat.eqb_spec n 0); [reflexivity|].
  destruct (Nat.eqb_spec n T); [now subst|].
  rewrite map_const_zero; [now rewrite length_seq|].
  intros i Hi. apply in_seq in Hi. apply resample_at_zeros; lia.
Qed.

Lemma smooth_pass_zeros n : smooth_pass (zeros n) = zeros n.
Proof.
  unfold smooth_pass. rewrite zeros_length.
  rewrite map_const_zero; [now rewrite length_seq|].
  intros i Hi. apply in_seq in Hi. unfold smooth_at. rewrite zeros_length.
  assert (Hn : n <> 0%nat) by lia.
  unfold zeros. rewrite !nth_repeat_lt; try lia; try (apply Nat.mod_upper_bound; exact Hn).
  reflexivity.
Qed.

Lemma smoothWavetable_zeros passes n : smoothWavetable (zeros n) passes = zeros n.
Proof.
  induction passes as [|p IH]; [reflexivity|]. simpl. now rewrite smooth_pass_zeros.
Qed.

(** What holds of flat days: with no reading, or with readings that all
    carry one and the same finite value, the wavetable is all zeros. *)
Lemma generateWavetable_flat_finite dayData q :
  Forall (fun r => denotes (value r) q) (readings dayData) ->
  generateWavetable dayData = zeros WAVETABLE_SIZE.
Proof.
  intro F. unfold generateWavetable.
  destruct (List.length (readings dayData) =? 0)%nat; [reflexivity|].
  rewrite (normalizeGlucoseValues_flat q).
  - now rewrite resample_zeros, smoothWavetable_zeros.
  - apply Forall_map. exact F.
Qed.

End Flat.


(** ** Glucose descriptors *)

Section Descriptors.
Local Open Scope Q_scope.

Lemma min_step_PInf x : isNaN x = false -> min_step PInf x = x.
Proof. now destruct x. Qed.

Lemma max_step_NInf x : isNaN x = false -> max_step NInf x = x.
Proof. now destruct x. Qed.

Lemma Math_min2_step a b :
  Math_min2 a b = if isNaN a || isNaN b then NaN else min_step a b.
Proof.
  unfold Math_min2, Math_min. simpl. rewrite orb_false_r.
  destruct (isNaN a) eqn:A; [reflexivity|].
  destruct (isNaN b) eqn:B; [reflexivity|]. simpl.
  now rewrite min_step_PInf.
Qed.

Lemma Math_max2_step a b :
  Math_max2 a b = if isNaN a || isNaN b then NaN else max_step a b.
Proof.
  unfold Math_max2, Math_max. simpl. rewrite orb_false_r.
  destruct (isNaN a) eqn:A; [reflexivity|].
  destruct (isNaN b) eqn:B; [reflexivity|]. simpl.
  now rewrite max_step_NInf.
Qed.

Lemma min_step_not_NaN a b : isNaN a = false -> isNaN b = false -> isNaN (min_step a b) = false.
Proof. intros. unfold min_step. now destruct (b <? a)%num. Qed.

Lemma max_step_not_NaN a b : isNaN a = false -> isNaN b = false -> isNaN (max_step a b) = false.
Proof. intros. unfold max_step. now destruct (b >? a)%num. Qed.

Lemma fold_Math_min2 l : forall acc,
  fold_left Math_min2 l acc
  = if isNaN acc || existsb isNaN l then NaN else fold_left min_step l acc.
Proof.
  induction l as [|x l IH]; intro acc; simpl.
  - rewrite orb_false_r. now destruct acc.
  - rewrite IH, Math_min2_step.
    destruct (isNaN acc) eqn:A; simpl; [reflexivity|].
    destruct (isNaN x) eqn:X; simpl; [reflexivity|].
    now rewrite min_step_not_NaN.
Qed.

Lemma fold_Math_max2 l : forall acc,
  fold_left Math_max2 l acc
  = if isNaN acc || existsb isNaN l then NaN else fold_left max_step l acc.
Proof.
  induction l as [|x l IH]; intro acc; simpl.
  - rewrite orb_false_r. now destruct acc.
  - rewrite IH, Math_max2_step.
    destruct (isNaN acc) eqn:A; simpl; [reflexivity|].
    destruct (isNaN x) eqn:X; simpl; [reflexivity|].
    now rewrite max_step_not_NaN.
Qed.

(** The reducer works field by field. *)
Lemma fold_combine_step l : forall acc,
  fold_left combine_step l acc
  = mkGStats (fold_left Math_min2 (map min l) (min acc))
             (fold_left Math_max2 (map max l) (max acc))
             (fold_left nadd (map avg l) (avg acc))
             (fold_left nadd (map timeInRange l) (timeInRange acc))
             (fold_left nadd (map volatility l) (volatility acc)).
Proof.
  induction l as [|s l IH]; intro acc; simpl; [now destruct acc|].
  now rewrite IH.
Qed.

(** C6.  [combineGlucoseStats] answers the fixed default on no descriptor,
    the descriptor itself on one, and on two or more the minimum of the
    mins, the maximum of the maxes and the arithmetic means of avg,
    timeInRange and volatility. *)
Theorem combineGlucoseStats_spec :
  combineGlucoseStats [] = mkGStats (Fin 70) (Fin 180) (Fin 120) (Fin 70) (Fin 25)
  /\ (forall s, combineGlucoseStats [s] = s)
  /\ (forall s1 s2 rest,
        let l := s1 :: s2 :: rest in
        combineGlucoseStats l
        = mkGStats (Math_min (map min l)) (Math_max (map max l))
                   (mean (map avg l)) (mean (map timeInRange l))
                   (mean (map volatility l))).
Proof.
  split; [reflexivity|]. split; [reflexivity|].
  intros s1 s2 rest l. subst l.
  unfold combineGlucoseStats, mean.
  rewrite fold_combine_step. cbn [min max avg timeInRange volatility combine_init].
  rewrite fold_Math_min2, fold_Math_max2. rewrite !length_map.
  reflexivity.
Qed.

(** What the minimum of a list is: on a non-empty list without NaN, an
    element of the list that is below or equal to every element. *)
Lemma nle_refl x : isNaN x = false -> (x <=? x)%num = true.
Proof. destruct x; try discriminate; try reflexivity. intros _. simpl. apply Qle_bool_iff. apply Qle_refl. Qed.

Lemma nle_trans x y z : (x <=? y)%num = true -> (y <=? z)%num = true -> (x <=? z)%num = true.
Proof.
  destruct x, y, z; simpl; try discriminate; try reflexivity.
  rewrite !Qle_bool_iff. apply Qle_trans.
Qed.

Lemma nlt_nle x y : (x <? y)%num = true -> (x <=? y)%num = true.
Proof.
  destruct x, y; simpl; try discriminate; try reflexivity.
  rewrite Qltb_iff, Qle_bool_iff. apply Qlt_le_weak.
Qed.

Lemma not_nlt_nle x y : isNaN x = false -> isNaN y = false ->
  (x <? y)%num = false -> (y <=? x)%num = true.
Proof.
  destruct x, y; simpl; try discriminate; try reflexivity.
  intros _ _ H. apply Qle_bool_iff. apply Qnot_lt_le. intro L.
  apply Qltb_iff in L. congruence.
Qed.

Lemma fold_min_step_least l : forall acc,
  existsb isNaN l = false -> isNaN acc = false ->
  let m := fold_left min_step l acc in
  (m = acc \/ In m l) /\ (m <=? acc)%num = true
  /\ forall x, In x l -> (m <=? x)%num = true.
Proof.
  induction l as [|x l IH]; intros acc N A; simpl.
  - split; [now left|]. split; [now apply nle_refl | intros ? []].
  - simpl in N. apply orb_false_elim in N as [Nx Nl].
    destruct (IH (min_step acc x) Nl (min_step_not_NaN _ _ A Nx)) as (M1 & M2 & M3).
    assert (S1 : (min_step acc x <=? acc)%num = true).
    { unfold min_step. destruct (x <? acc)%num eqn:L; [now apply nlt_nle | now apply nle_refl]. }
    assert (S2 : (min_step acc x <=? x)%num = true).
    { unfold min_step. destruct (x <? acc)%num eqn:L; [now apply nle_refl | now apply not_nlt_nle]. }
    split; [|split].
    + destruct M1 as [M1|M1]; [|now right; right].
      rewrite M1. unfold min_step. destruct (x <? acc)%num; [right; now left | now left].
    + eapply nle_trans; eauto.
    + intros y [<-|Hy]; [eapply nle_trans; eauto | now apply M3].
Qed.

Lemma Math_min_least l :
  l <> [] -> existsb isNaN l = false ->
  In (Math_min l) l /\ forall x, In x l -> (Math_min l <=? x)%num = true.
Proof.
  intros NE N. unfold Math_min. rewrite N.
  destruct (fold_min_step_least l PInf N eq_refl) as (M1 & _ & M3).
  split; [|exact M3].
  destruct M1 as [M1|M1]; [|exact M1].
  destruct l as [|x l]; [contradiction|].
  simpl in N. apply orb_false_elim in N as [Nx Nl].
  specialize (M3 x (or_introl eq_refl)). rewrite M1 in M3.
  destruct x; simpl in *; try discriminate. rewrite M1. now left.
Qed.

Lemma Math_min_NaN l : existsb isNaN l = true -> Math_min l = NaN.
Proof. intro H. unfold Math_min. now rewrite H. Qed.

Lemma fold_max_step_greatest l : forall acc,
  existsb isNaN l = false -> isNaN acc = false ->
  let m := fold_left max_step l acc in
  (m = acc \/ In m l) /\ (acc <=? m)%num = true
  /\ forall x, In x l -> (x <=? m)%num = true.
Proof.
  induction l as [|x l IH]; intros acc N A; simpl.
  - split; [now left|]. split; [now apply nle_refl | intros ? []].
  - simpl in N. apply orb_false_elim in N as [Nx Nl].
    destruct (IH (max_step acc x) Nl (max_step_not_NaN _ _ A Nx)) as (M1 & M2 & M3).
    assert (S1 : (acc <=? max_step acc x)%num = true).
    { unfold max_step, ngt. destruct (acc <? x)%num eqn:L; [now apply nlt_nle | now apply nle_refl]. }
    assert (S2 : (x <=? max_step acc x)%num = true).
    { unfold max_step, ngt. destruct (acc <? x)%num eqn:L; [now apply nle_refl | now apply not_nlt_nle]. }
    split; [|split].
    + destruct M1 as [M1|M1]; [|now right; right].
      rewrite M1. unfold max_step. destruct (x >? acc)%num; [right; now left | now left].
    + eapply nle_trans; eauto.
    + intros y [<-|Hy]; [eapply nle_trans; eauto | now apply M3].
Qed.

Lemma Math_max_greatest l :
  l <> [] -> existsb isNaN l = false ->
  In (Math_max l) l /\ forall x, In x l -> (x <=? Math_max l)%num = true.
Proof.
  intros NE N. unfold Math_max. rewrite N.
  destruct (fold_max_step_greatest l NInf N eq_refl) as (M1 & _ & M3).
  split; [|exact M3].
  destruct M1 as [M1|M1]; [|exact M1].
  destruct l as [|x l]; [contradiction|].
  simpl in N. apply orb_false_elim in N as [Nx Nl].
  specialize (M3 x (or_introl eq_refl)). rewrite M1 in M3.
  destruct x; simpl in *; try discriminate. rewrite M1. now left.
Qed.

(** The running sum of finite numbers is the sum of their values. *)
Lemma fold_nadd_denotes qs : forall acc a,
  denotes acc a ->
  denotes (fold_left nadd (map Fin qs) acc) (fold_left Qplus qs a).
Proof.
  induction qs as [|q qs IH]; intros acc a D; simpl; [exact D|].
  apply IH. apply denotes_add; [exact D | apply denotes_Fin].
Qed.

Lemma mean_denotes qs :
  qs <> [] ->
  denotes (mean (map Fin qs))
          (fold_left Qplus qs 0 / inject_Z (Z.of_nat (List.length qs))).
Proof.
  intro NE. unfold mean. rewrite length_map.
  apply denotes_div.
  - apply fold_nadd_denotes. apply denotes_Fin.
  - apply denotes_of_nat.
  - intro E. apply (proj1 (inject_Z_injective _ 0)) in E.
    destruct qs; [contradiction | simpl in E; lia].
Qed.

(** *** Normalisation curves *)

Lemma clamp_min_max x :
  Math_min2 one (Math_max2 zero x) = clamp x zero one.
Proof.
  unfold clamp. destruct x as [| | |q]; try reflexivity.
  rewrite Math_max2_step. simpl. unfold max_step, ngt. simpl.
  unfold Qltb. destruct (Qle_bool q 0) eqn:A; simpl; [reflexivity|].
  rewrite Math_min2_step. simpl. unfold min_step. simpl.
  unfold Qltb. now destruct (Qle_bool 1 q).
Qed.

Lemma finite_div_canonical x y q :
  denotes (x / y)%num q -> (x / y)%num = fin q.
Proof.
  intros (q' & E & Eq).
  destruct x as [| | |a], y as [| | |b]; simpl in *; try discriminate;
    try (destruct (Qneg_b _); discriminate).
  - injection E as <-. unfold zero. change (Fin 0) with (fin 0). apply fin_eq. now symmetry.
  - injection E as <-. unfold zero. change (Fin 0) with (fin 0). apply fin_eq. now symmetry.
  - destruct (Qzero_b b).
    + destruct (Qzero_b a); [discriminate|]. destruct (Qpos_b a); discriminate.
    + injection E as <-. apply fin_eq. now rewrite <- (Qred_correct (a / b)).
Qed.

Lemma average_lower_segment q :
  (half * (Fin q - average_low) / (average_target - average_low))%num
  = linear_map (Fin 100) (Fin 120) zero half (Fin q).
Proof.
  unfold linear_map.
  rewrite (finite_div_canonical _ _ ((1#2) * (q - 100) / (120 - 100))).
  2:{ apply denotes_div.
      - apply denotes_mul; [apply denotes_Fin|]. apply denotes_sub; apply denotes_Fin.
      - apply denotes_sub; apply denotes_Fin.
      - intro H. vm_compute in H. discriminate. }
  rewrite (finite_sum_canonical _ _ (0 + (q - 100) * (((1#2) - 0) / (120 - 100)))).
  2:{ apply denotes_add; [apply denotes_Fin|]. apply denotes_mul.
      - apply denotes_sub; apply denotes_Fin.
      - apply denotes_div.
        + apply denotes_sub; apply denotes_Fin.
        + apply denotes_sub; apply denotes_Fin.
        + intro H. vm_compute in H. discriminate. }
  apply fin_eq. field.
Qed.

Lemma average_upper_segment q :
  (half + half * (Fin q - average_target) / (average_high - average_target))%num
  = linear_map (Fin 120) (Fin 150) half one (Fin q).
Proof.
  unfold linear_map.
  rewrite (finite_sum_canonical _ _ ((1#2) + (1#2) * (q - 120) / (150 - 120))).
  2:{ apply denotes_add; [apply denotes_Fin|]. apply denotes_div.
      - apply denotes_mul; [apply denotes_Fin|]. apply denotes_sub; apply denotes_Fin.
      - apply denotes_sub; apply denotes_Fin.
      - intro H. vm_compute in H. discriminate. }
  rewrite (finite_sum_canonical _ _ ((1#2) + (q - 120) * ((1 - (1#2)) / (150 - 120)))).
  2:{ apply denotes_add; [apply denotes_Fin|]. apply denotes_mul.
      - apply denotes_sub; apply denotes_Fin.
      - apply denotes_div.
        + apply denotes_sub; apply denotes_Fin.
        + apply denotes_sub; apply denotes_Fin.
        + intro H. vm_compute in H. discriminate. }
  apply fin_eq. field.
Qed.

(** C7.  For every value, [normalizeGlucoseStat] is the curve of the
    specification: the clamp of (value - 20) / (40 - 20) to [0,1] for
    volatility; 0 up to 100, 1 from 150 on and the two linear segments
    through (100,0), (120,0.5) and (150,1) in between for the average; the
    clamp of value / 100 to [0,1] for the time in range. *)
Theorem normalizeGlucoseStat_spec (value : number) (type : StatType) :
  normalizeGlucoseStat value type = normalized_stat value type.
Proof.
  destruct type; unfold normalizeGlucoseStat, normalized_stat.
  - apply clamp_min_max.
  - destruct value as [| | |q]; try reflexivity.
    change (Fin 100) with average_low. change (Fin 150) with average_high.
    change (Fin 120) with average_target.
    destruct (Fin q <=? average_low)%num; [reflexivity|].
    destruct (Fin q >=? average_high)%num; [reflexivity|].
    destruct (Fin q <=? average_target)%num.
    + apply average_lower_segment.
    + apply average_upper_segment.
  - apply clamp_min_max.
Qed.

End Descriptors.


(** ** Range of the normalisation curves *)

Section CurveFacts.
Local Open Scope Q_scope.

Lemma linear_map_endpoints :
  linear_map (Fin 100) (Fin 120) zero half (Fin 100) = zero
  /\ linear_map (Fin 100) (Fin 120) zero half (Fin 120) = half
  /\ linear_map (Fin 120) (Fin 150) half one (Fin 120) = half
  /\ linear_map (Fin 120) (Fin 150) half one (Fin 150) = one.
Proof. repeat split; vm_compute; reflexivity. Qed.

Lemma denotes_unit x a : denotes x a -> 0 <= a <= 1 -> unit_interval x.
Proof. intros (q & -> & E) R. exists q. split; [reflexivity | now rewrite E]. Qed.

Lemma clamp_unit x : isNaN x = false -> unit_interval (clamp x zero one).
Proof.
  unfold clamp, nge. destruct x as [| | |q]; try discriminate; intros _; simpl.
  - exists 1. split; [reflexivity | lra].
  - exists 0. split; [reflexivity | lra].
  - destruct (Qle_bool q 0) eqn:A; [exists 0; split; [reflexivity | lra]|].
    destruct (Qle_bool 1 q) eqn:B; [exists 1; split; [reflexivity | lra]|].
    exists q. split; [reflexivity|].
    assert (~ q <= 0) by (rewrite <- Qle_bool_iff; congruence).
    assert (~ 1 <= q) by (rewrite <- Qle_bool_iff; congruence).
    lra.
Qed.

Lemma not_NaN_div_finite x q :
  isNaN x = false -> ~ q == 0 -> isNaN (x / Fin q)%num = false.
Proof.
  intros N Z. destruct x as [| | |a]; try discriminate; simpl.
  - now destruct (Qneg_b q).
  - now destruct (Qneg_b q).
  - destruct (Qzero_b q) eqn:E; [|reflexivity].
    apply Qzero_b_iff in E. contradiction.
Qed.

Lemma not_NaN_sub_finite x q : isNaN x = false -> isNaN (x - Fin q)%num = false.
Proof. now destruct x. Qed.

(** Apart from NaN, every value is normalised into the interval from 0 to
    1. *)
Lemma normalizeGlucoseStat_range value type :
  isNaN value = false -> unit_interval (normalizeGlucoseStat value type).
Proof.
  intro N. destruct type; unfold normalizeGlucoseStat.
  - rewrite clamp_min_max. apply clamp_unit.
    apply (not_NaN_div_finite _ 20); [|lra].
    now apply not_NaN_sub_finite.
  - destruct value as [| | |q]; try discriminate.
    + exists 1. split; [reflexivity | lra].
    + exists 0. split; [reflexivity | lra].
    + unfold nge, average_low, average_high, average_target. cbn [nle].
      destruct (Qle_bool q 100) eqn:A; [exists 0; split; [reflexivity | lra]|].
      destruct (Qle_bool 150 q) eqn:B; [exists 1; split; [reflexivity | lra]|].
      assert (~ q <= 100) by (rewrite <- Qle_bool_iff; congruence).
      assert (~ 150 <= q) by (rewrite <- Qle_bool_iff; congruence).
      destruct (Qle_bool q 120) eqn:C.
      * apply Qle_bool_iff in C.
        apply (denotes_unit _ ((1 # 2) * (q - 100) / (120 - 100))).
        -- apply denotes_div; [| |lra].
           ++ apply denotes_mul; [apply denotes_Fin|].
              apply denotes_sub; apply denotes_Fin.
           ++ apply denotes_sub; apply denotes_Fin.
        -- split; [apply Qle_shift_div_l | apply Qle_shift_div_r]; lra.
      * assert (~ q <= 120) by (rewrite <- Qle_bool_iff; congruence).
        apply (denotes_unit _ ((1 # 2) + (1 # 2) * (q - 120) / (150 - 120))).
        -- apply denotes_add; [apply denotes_Fin|].
           apply denotes_div; [| |lra].
           ++ apply denotes_mul; [apply denotes_Fin|].
              apply denotes_sub; apply denotes_Fin.
           ++ apply denotes_sub; apply denotes_Fin.
        -- assert (0 <= (1 # 2) * (q - 120) / (150 - 120) <= 1 # 2).
           { split; [apply Qle_shift_div_l | apply Qle_shift_div_r]; lra. }
           lra.
  - rewrite clamp_min_max. apply clamp_unit.
    apply (not_NaN_div_finite _ 100); [exact N | lra].
Qed.

End CurveFacts.

(** ** Per-day statistics *)

Section DayStatsFacts.
Local Open Scope Q_scope.

Lemma inTargetRange_iff v : inTargetRange v = true <-> in_target_band v.
Proof.
  unfold inTargetRange, in_target_band, nge. split.
  - intro H. apply andb_true_iff in H as [H1 H2].
    destruct v as [| | |q]; try discriminate.
    exists q. split; [reflexivity|]. simpl in H1, H2.
    now rewrite <- !Qle_bool_iff.
  - intros (q & -> & H1 & H2). simpl.
    apply andb_true_iff. now rewrite !Qle_bool_iff.
Qed.

Lemma band_count_filter values :
  List.length (filter inTargetRange values) = band_count values.
Proof.
  induction values as [|v values IH]; [reflexivity|].
  destruct v as [| | |q]; try exact IH.
  cbn [filter band_count].
  change (inTargetRange (Fin q)) with (Qle_bool 70 q && Qle_bool q 180).
  destruct (Qle_bool 70 q && Qle_bool q 180); cbn [List.length]; now rewrite IH.
Qed.

(** C8.  A reading counts toward timeInRange exactly when its value is a
    number v with 70 <= v <= 180, both bounds included: the day of readings
    70 and 180 has timeInRange 100, and 69.9 and 180.1 are not counted. *)
Theorem timeInRange_inclusive :
  (forall v, inTargetRange v = true <-> in_target_band v)
  /\ (forall dayData,
        let values := map value (readings dayData) in
        st_timeInRange (stats (calculateDayStats dayData))
        = if (List.length values =? 0)%nat then zero
          else (of_nat (band_count values) / of_nat (List.length values)
                * Fin 100)%num)
  /\ st_timeInRange (stats (calculateDayStats (dayOf [Fin 70; Fin 180]))) = Fin 100
  /\ band_count [Fin 70; Fin 180] = 2%nat
  /\ band_count [Fin (699 # 10)] = 0%nat
  /\ band_count [Fin (1801 # 10)] = 0%nat
  /\ st_timeInRange
       (stats (calculateDayStats
                 (dayOf [Fin 70; Fin (699 # 10); Fin 180; Fin (1801 # 10)])))
     = Fin 50.
Proof.
  split; [exact inTargetRange_iff|].
  split.
  - intros dayData values. unfold calculateDayStats. fold values.
    destruct (List.length values =? 0)%nat; [reflexivity|].
    cbn [stats st_timeInRange]. now rewrite band_count_filter.
  - repeat split; vm_compute; reflexivity.
Qed.

End DayStatsFacts.

(** ** Scenarios *)

Section Scenarios.
Variable Date_parse : string -> option Z.

(** C1.  The two-line export of the scenario parses to exactly one day,
    keyed 2024-06-01, with exactly one reading of value 120 and the stats
    min 120, max 120, avg 120, timeInRange 100; the wavetable of that day
    is 2048 zeros. *)
Theorem end_to_end_scenario :
  days (parseLibreViewCSV Date_parse scenario_csv) = [("2024-06-01"%string, scenario_day)]
  /\ map value (readings scenario_day) = [Fin 120]
  /\ stats scenario_day = mkStats (Fin 120) (Fin 120) (Fin 120) (Fin 100)
  /\ generateWavetable scenario_day = repeat zero 2048.
Proof. repeat split; vm_compute; reflexivity. Qed.

(** C5, at the failing input.  The export whose only reading is Infinity
    parses to a single-reading day, for which max equals min, and whose
    wavetable is 2048 times NaN rather than zeros. *)
Theorem flat_infinite_day_yields_NaN :
  exists day,
    days (parseLibreViewCSV Date_parse infinite_csv) = [("2024-06-01"%string, day)]
    /\ map value (readings day) = [PInf]
    /\ (Math_max (map value (readings day)) === Math_min (map value (readings day)))%num = true
    /\ generateWavetable day = repeat NaN 2048.
Proof. eexists. repeat split; vm_compute; reflexivity. Qed.
End Scenarios.

(** *** What the resampler receives

    [resampleToWavetableSize] is private to its module and called once,
    on the array [normalizeGlucoseValues] returns.  That array may hold
    NaN but never an infinity. *)

Lemma normalized_sample_not_infinite v lo hi :
  isNaN lo = true \/ ((lo <=? v)%num = true /\ (v <=? hi)%num = true) ->
  (hi - lo === zero)%num = false ->
  is_infinite ((((v - lo) / (hi - lo)) * two - one)%num) = false.
Proof.
  intros O R.
  destruct v as [| | |v], lo as [| | |lo], hi as [| | |hi];
    try reflexivity;
    try (destruct O as [O | [O1 O2]]; discriminate);
    try (cbn in R; discriminate R).
  change (Fin v - Fin lo)%num with (Fin (Qred (v - lo))).
  change (Fin hi - Fin lo)%num with (Fin (Qred (hi - lo))) in *.
  change (Qeq_bool (Qred (hi - lo)) 0 = false) in R.
  cbn [ndiv]. unfold Qzero_b at 1. rewrite R. reflexivity.
Qed.

Lemma no_infinity_zeros n : no_infinity (zeros n).
Proof.
  apply Forall_forall. intros x H. apply repeat_spec in H. now subst.
Qed.

Lemma normalizeGlucoseValues_no_infinity values :
  no_infinity (normalizeGlucoseValues values).
Proof.
  unfold normalizeGlucoseValues.
  destruct values as [|v0 vs] eqn:EV; [constructor|].
  rewrite <- EV. assert (NE : values <> []) by (subst; discriminate).
  replace (List.length values =? 0)%nat with false by (subst; reflexivity).
  destruct (Math_max values - Math_min values === zero)%num eqn:R;
    [apply no_infinity_zeros|].
  apply Forall_forall. intros x I. apply in_map_iff in I as (v & <- & I).
  apply normalized_sample_not_infinite; [|exact R].
  destruct (existsb isNaN values) eqn:N.
  - left. now rewrite Math_min_NaN.
  - right. destruct (Math_min_least _ NE N) as [_ L].
    destruct (Math_max_greatest _ NE N) as [_ G]. auto.
Qed.

(** A non-decreasing array holds no NaN; without infinities it is an array
    of finite values. *)
Lemma non_decreasing_finite values :
  no_infinity values -> non_decreasing values -> all_finite values.
Proof.
  intros NI M. apply Forall_forall. intros x I.
  apply In_nth with (d := NaN) in I as (i & Hi & <-).
  specialize (M i i ltac:(lia)).
  unfold no_infinity in NI. rewrite Forall_forall in NI.
  specialize (NI _ (nth_In values NaN Hi)).
  destruct (nth i values NaN); try discriminate; reflexivity.
Qed.

(** An array the resampler never receives: on 0, +Infinity the
    interpolation multiplies the infinite neighbour by a zero fraction and
    the output starts with NaN. *)
Lemma resample_needs_finite_source :
  non_decreasing [zero; PInf]
  /\ ~ non_decreasing (resampleToWavetableSize [zero; PInf] 5).
Proof.
  split.
  - intros i j [Hij Hj]. simpl in Hj.
    destruct i as [|[|i]], j as [|[|j]]; try lia; reflexivity.
  - intro H. specialize (H 0%nat 0%nat). vm_compute in H.
    assert (0 <= 0 < 5)%nat as R by lia. specialize (H R). discriminate.
Qed.

(** C10.  Resampling -1, 0, 1 to size 5 gives five samples, the first -1
    and the last 1.  The array handed to [resampleToWavetableSize], the
    result of [normalizeGlucoseValues], never holds an infinity; every
    non-decreasing source without infinities resamples to a non-decreasing
    sequence, and so does every non-decreasing array of normalised
    values. *)
Theorem resample_endpoints_monotone :
  (nth 0 (resampleToWavetableSize [Fin (-1); Fin 0; Fin 1] 5) NaN = Fin (-1)
   /\ nth 4 (resampleToWavetableSize [Fin (-1); Fin 0; Fin 1] 5) NaN = Fin 1
   /\ List.length (resampleToWavetableSize [Fin (-1); Fin 0; Fin 1] 5) = 5%nat)
  /\ (forall vs, no_infinity (normalizeGlucoseValues vs))
  /\ (forall values T,
        no_infinity values -> non_decreasing values ->
        non_decreasing (resampleToWavetableSize values T))
  /\ (forall vs T,
        non_decreasing (normalizeGlucoseValues vs) ->
        non_decreasing (resampleToWavetableSize (normalizeGlucoseValues vs) T)).
Proof.
  split; [repeat split; vm_compute; reflexivity|].
  split; [exact normalizeGlucoseValues_no_infinity|].
  split.
  - intros values T NI M. apply resample_monotone; [|exact M].
    now apply non_decreasing_finite.
  - intros vs T M. apply resample_monotone; [|exact M].
    apply non_decreasing_finite; [apply normalizeGlucoseValues_no_infinity | exact M].
Qed.

(** ** Regular expressions *)

Section RegexFacts.
Local Open Scope string_scope.

Lemma clear_caps_nil c : clear_caps [] c = c.
Proof.
  unfold clear_caps. induction c as [|e c IH]; [reflexivity|].
  simpl in *. now f_equal.
Qed.

Lemma length_app (s1 s2 : string) :
  String.length (s1 ++ s2) = String.length s1 + String.length s2.
Proof. induction s1 as [|a s1 IH]; simpl; [reflexivity | now rewrite IH]. Qed.

Lemma substring_prefix (w rest : string) :
  substring 0 (String.length w) (w ++ rest) = w.
Proof.
  induction w as [|a w IH]; simpl.
  - now destruct rest.
  - now rewrite IH.
Qed.

Lemma consumed_app (w rest : string) : consumed (w ++ rest) rest = w.
Proof.
  unfold consumed. rewrite length_app.
  replace (String.length w + String.length rest - String.length rest)
    with (String.length w) by lia.
  apply substring_prefix.
Qed.

(** *** Soundness of the matcher *)

Lemma rep_loop_sound r1 k :
  (forall s c k res, rmatch r1 s c k = Some res ->
     exists s' c', matches r1 s c s' c' /\ k s' c' = Some res) ->
  forall fuel lo hi s c res,
    rep_loop (rmatch r1) (groups_of r1) k fuel lo hi s c = Some res ->
    exists s' c', matches (Rep r1 lo hi) s c s' c' /\ k s' c' = Some res.
Proof.
  intros Hm1. induction fuel as [|f IH]; intros lo hi s c res H; [discriminate|].
  cbn [rep_loop] in H.
  destruct (hi_zero hi) eqn:HZ.
  { exists s, c. split; [|exact H]. apply M_rep_stop. right.
    destruct hi as [[|]|]; try discriminate. reflexivity. }
  assert (HN : hi <> Some 0) by (intro E; subst; discriminate).
  set (K := fun s' c' =>
              if (lo =? 0)%nat && (String.length s' =? String.length s)%nat
              then None
              else rep_loop (rmatch r1) (groups_of r1) k f (pred lo) (hi_pred hi) s' c') in H.
  assert (More : forall res', rmatch r1 s (clear_caps (groups_of r1) c) K = Some res' ->
            exists s' c', matches (Rep r1 lo hi) s c s' c' /\ k s' c' = Some res').
  { intros res' E. apply Hm1 in E as (s1 & c1 & M1 & E1). unfold K in E1.
    destruct ((lo =? 0)%nat && (String.length s1 =? String.length s)%nat); [discriminate|].
    apply IH in E1 as (s2 & c2 & M2 & E2).
    exists s2, c2. split; [|exact E2]. eapply M_rep_more; eauto. }
  destruct (0 <? lo)%nat eqn:L0.
  - now apply More.
  - destruct (rmatch r1 s (clear_caps (groups_of r1) c) K) as [res'|] eqn:E.
    + injection H as <-. now apply More.
    + exists s, c. split; [|exact H]. apply M_rep_stop. left.
      apply Nat.ltb_ge in L0. lia.
Qed.

Lemma rmatch_sound r : forall s c k res,
  rmatch r s c k = Some res ->
  exists s' c', matches r s c s' c' /\ k s' c' = Some res.
Proof.
  induction r as [p|r1 IH1 r2 IH2|n r1 IH1|r1 IH1 lo hi]; intros s c k res H.
  - cbn [rmatch] in H. destruct s as [|a s]; [discriminate|].
    destruct (p a) eqn:P; [|discriminate].
    exists s, c. split; [now constructor | exact H].
  - cbn [rmatch] in H. apply IH1 in H as (s1 & c1 & M1 & H).
    apply IH2 in H as (s2 & c2 & M2 & H).
    exists s2, c2. split; [econstructor; eauto | exact H].
  - cbn [rmatch] in H. apply IH1 in H as (s1 & c1 & M1 & H).
    exists s1, (set_cap n (consumed s s1) c1). split; [now constructor | exact H].
  - cbn [rmatch] in H. eapply rep_loop_sound; eauto.
Qed.

Lemma regex_match_sound r : forall s caps,
  regex_match r s = Some caps ->
  exists s0 s' c', matches r s0 [] s' c' /\ caps = set_cap 0 (consumed s0 s') c'.
Proof.
  induction s as [|a s IH]; intros caps H; cbn [regex_match] in H.
  - destruct (rmatch r EmptyString [] _) as [c0|] eqn:E; [|discriminate].
    injection H as <-. apply rmatch_sound in E as (s' & c' & M & E).
    injection E as <-. eauto.
  - destruct (rmatch r (String a s) [] _) as [c0|] eqn:E.
    + injection H as <-. apply rmatch_sound in E as (s' & c' & M & E).
      injection E as <-. eauto.
    + now apply IH.
Qed.

(** A repetition of a character class consumes a run of the class and
    leaves the captures alone. *)
Lemma matches_class_run p lo hi s c s' c' :
  matches (Rep (Chr p) lo hi) s c s' c' ->
  (forall h, hi = Some h -> lo <= h) ->
  c' = c /\ exists w, s = w ++ s' /\ str_all p w = true
    /\ lo <= String.length w /\ (forall h, hi = Some h -> String.length w <= h).
Proof.
  intro M. remember (Rep (Chr p) lo hi) as r eqn:R.
  revert lo hi R.
  induction M as [| | |r lo' hi' s c Stop|r lo' hi' s c s1 c1 s2 c2 HN M1 _ M2 IH];
    intros lo hi R B; try discriminate.
  - injection R as -> -> ->. split; [reflexivity|].
    exists EmptyString. repeat split; try reflexivity.
    + destruct Stop as [-> | ->]; [lia|]. specialize (B 0%nat eq_refl). simpl. lia.
    + intros h _. simpl. lia.
  - injection R as -> -> ->.
    inversion M1; subst. rewrite clear_caps_nil in *.
    destruct (IH (pred lo) (hi_pred hi) eq_refl) as (-> & w & -> & W & L & H).
    { intros h E. destruct hi as [h0|]; [|discriminate]. injection E as <-.
      specialize (B h0 eq_refl). lia. }
    split; [reflexivity|]. exists (String a w). repeat split.
    + simpl. now rewrite H0, W.
    + simpl. lia.
    + intros h E. subst hi. specialize (H (pred h) eq_refl). simpl.
      destruct h; [contradiction|]. simpl in H. lia.
Qed.

(** *** The greedy choice *)

(** On a run [w] of the class that cannot be extended, the repetition hands
    exactly [w] to the continuation first; if the continuation succeeds
    there, that is the result. *)
Lemma rep_class_greedy p k : forall w rest c res fuel lo hi,
  str_all p w = true ->
  (match rest with String a _ => p a = false | EmptyString => True end
   \/ hi = Some (String.length w)) ->
  lo <= String.length w ->
  (forall h, hi = Some h -> String.length w <= h) ->
  String.length w < fuel ->
  k rest c = Some res ->
  rep_loop (rmatch (Chr p)) [] k fuel lo hi (w ++ rest) c = Some res.
Proof.
  induction w as [|a w IH]; intros rest c res fuel lo hi W Stop Lo Hi F K.
  - destruct fuel as [|f]; [simpl in F; lia|]. cbn [rep_loop append].
    destruct (hi_zero hi) eqn:HZ; [exact K|].
    simpl in Lo. assert (lo = 0%nat) as -> by lia. cbn [Nat.ltb Nat.leb].
    assert (E : rmatch (Chr p) rest (clear_caps [] c)
              (fun s' c' =>
                 if (0 =? 0)%nat && (String.length s' =? String.length rest)%nat
                 then None
                 else rep_loop (rmatch (Chr p)) [] k f (pred 0) (hi_pred hi) s' c')
              = None).
    { cbn [rmatch]. destruct rest as [|b rest]; [reflexivity|].
      destruct Stop as [P|E]; [now rewrite P|]. subst hi. discriminate. }
    rewrite E. exact K.
  - destruct fuel as [|f]; [simpl in F; lia|]. cbn [rep_loop append].
    simpl in W. apply andb_true_iff in W as [Pa W].
    destruct (hi_zero hi) eqn:HZ.
    { destruct hi as [[|]|]; try discriminate. specialize (Hi 0%nat eq_refl). simpl in Hi. lia. }
    assert (E : rmatch (Chr p) (String a (w ++ rest)) (clear_caps [] c)
              (fun s' c' =>
                 if (lo =? 0)%nat
                    && (String.length s' =? String.length (String a (w ++ rest)))%nat
                 then None
                 else rep_loop (rmatch (Chr p)) [] k f (pred lo) (hi_pred hi) s' c')
              = Some res).
    { cbn [rmatch]. rewrite Pa. rewrite clear_caps_nil.
      replace (String.length (w ++ rest) =? String.length (String a (w ++ rest)))%nat
        with false by (symmetry; apply Nat.eqb_neq; simpl; lia).
      rewrite andb_false_r.
      apply IH; try assumption.
      - destruct Stop as [S|S]; [now left|]. right. subst hi. reflexivity.
      - simpl in Lo. lia.
      - intros h E. destruct hi as [h0|]; [|discriminate]. injection E as <-.
        specialize (Hi h0 eq_refl). simpl in Hi. lia.
      - simpl in F. lia. }
    rewrite E. now destruct (0 <? lo)%nat.
Qed.

Lemma rmatch_class_greedy p lo hi w rest c k res :
  str_all p w = true ->
  (match rest with String a _ => p a = false | EmptyString => True end
   \/ hi = Some (String.length w)) ->
  lo <= String.length w ->
  (forall h, hi = Some h -> String.length w <= h) ->
  k rest c = Some res ->
  rmatch (Rep (Chr p) lo hi) (w ++ rest) c k = Some res.
Proof.
  intros. cbn [rmatch groups_of]. apply rep_class_greedy; try assumption.
  rewrite length_app. lia.
Qed.

End RegexFacts.

(** ** The timestamp pattern *)

Section TimestampPattern.
Local Open Scope string_scope.

Lemma matches_Cat_inv r1 r2 s c s2 c2 :
  matches (Cat r1 r2) s c s2 c2 ->
  exists s1 c1, matches r1 s c s1 c1 /\ matches r2 s1 c1 s2 c2.
Proof. intro M. inversion M; subst. eauto. Qed.

Lemma matches_Chr_inv p s c s' c' :
  matches (Chr p) s c s' c' -> c' = c /\ exists a, s = String a s' /\ p a = true.
Proof. intro M. inversion M; subst. eauto. Qed.

(** A group around a bounded run of a class captures the run. *)
Lemma matches_group_run n p lo hi s c s' c' :
  matches (Grp n (Rep (Chr p) lo (Some hi))) s c s' c' -> lo <= hi ->
  exists w, s = w ++ s' /\ c' = set_cap n w c
    /\ str_all p w = true /\ lo <= String.length w <= hi.
Proof.
  intros M B. inversion M as [| | ? ? ? ? ? c1 M1 | |]; subst.
  apply matches_class_run in M1 as (-> & w & -> & W & L & U).
  - exists w. rewrite consumed_app. specialize (U hi eq_refl). auto.
  - intros h E. injection E as <-. exact B.
Qed.

Lemma get_cap_clear n gs c :
  ~ In n gs -> get_cap n (clear_caps gs c) = get_cap n c.
Proof.
  intro N. unfold clear_caps. induction c as [|[m w] c IH]; [reflexivity|].
  cbn [filter fst]. destruct (existsb (Nat.eqb m) gs) eqn:E; cbn [negb get_cap].
  - apply existsb_exists in E as (x & Hx & E). apply Nat.eqb_eq in E. subst x.
    destruct (Nat.eqb_spec m n); [subst; contradiction | exact IH].
  - now rewrite IH.
Qed.

(** A match leaves alone the groups that are not its own. *)
Lemma matches_preserves r s c s' c' :
  matches r s c s' c' ->
  forall n, ~ In n (groups_of r) -> get_cap n c' = get_cap n c.
Proof.
  induction 1 as [| ? ? ? ? ? ? ? ? _ IH1 _ IH2 | m ? ? ? ? ? _ IH | | ? ? ? ? ? ? ? ? ? ? _ IH1 _ IH2];
    intros k N; cbn [groups_of] in *.
  - reflexivity.
  - rewrite IH2, IH1; [reflexivity | |]; intro; apply N; apply in_or_app; auto.
  - unfold set_cap. cbn [get_cap].
    destruct (Nat.eqb_spec m k); [subst; exfalso; apply N; now left|].
    apply IH. intro; apply N; now right.
  - reflexivity.
  - rewrite IH2, IH1 by exact N. now apply get_cap_clear.
Qed.

Lemma group_preserved r s c s' c' n :
  matches r s c s' c' -> existsb (Nat.eqb n) (groups_of r) = false ->
  group c' n = group c n.
Proof.
  intros M N. unfold group. rewrite (matches_preserves _ _ _ _ _ M); [reflexivity|].
  intro I. assert (existsb (Nat.eqb n) (groups_of r) = true); [|congruence].
  apply existsb_exists. exists n. split; [exact I | apply Nat.eqb_refl].
Qed.

(** Every match of the timestamp pattern captures digit runs of the
    lengths the pattern allows. *)
Lemma timestamp_groups s parts :
  regex_match timestampRe s = Some parts ->
  digit_run 4 (group parts 1) /\ digit_run 2 (group parts 2)
  /\ digit_run 4 (group parts 3) /\ digit_run 2 (group parts 4)
  /\ (digit_run 2 (group parts 5) /\ String.length (group parts 5) = 2).
Proof.
  intro H. apply regex_match_sound in H as (s0 & s' & c' & M & ->).
  unfold timestampRe, digits in M.
  apply matches_Cat_inv in M as (s1 & c1 & G1 & M).
  apply matches_group_run in G1 as (w1 & -> & -> & D1 & L1); [|lia].
  pose proof (group_preserved _ _ _ _ _ 1 M eq_refl) as P1.
  apply matches_Cat_inv in M as (s2 & c2 & S1 & M).
  apply matches_Chr_inv in S1 as (-> & _).
  apply matches_Cat_inv in M as (s3 & c3 & G2 & M).
  apply matches_group_run in G2 as (w2 & -> & -> & D2 & L2); [|lia].
  pose proof (group_preserved _ _ _ _ _ 2 M eq_refl) as P2.
  apply matches_Cat_inv in M as (s4 & c4 & S2 & M).
  apply matches_Chr_inv in S2 as (-> & _).
  apply matches_Cat_inv in M as (s5 & c5 & G3 & M).
  apply matches_group_run in G3 as (w3 & -> & -> & D3 & L3); [|lia].
  pose proof (group_preserved _ _ _ _ _ 3 M eq_refl) as P3.
  apply matches_Cat_inv in M as (s6 & c6 & WS & M).
  apply matches_class_run in WS as (-> & _); [|discriminate].
  apply matches_Cat_inv in M as (s7 & c7 & G4 & M).
  apply matches_group_run in G4 as (w4 & -> & -> & D4 & L4); [|lia].
  pose proof (group_preserved _ _ _ _ _ 4 M eq_refl) as P4.
  apply matches_Cat_inv in M as (s8 & c8 & S3 & M).
  apply matches_Chr_inv in S3 as (-> & _).
  apply matches_Cat_inv in M as (s9 & c9 & G5 & M).
  apply matches_group_run in G5 as (w5 & -> & -> & D5 & L5); [|lia].
  pose proof (group_preserved _ _ _ _ _ 5 M eq_refl) as P5.
  set (whole := consumed _ s').
  change (group (set_cap 0 whole c') 1) with (group c' 1).
  change (group (set_cap 0 whole c') 2) with (group c' 2).
  change (group (set_cap 0 whole c') 3) with (group c' 3).
  change (group (set_cap 0 whole c') 4) with (group c' 4).
  change (group (set_cap 0 whole c') 5) with (group c' 5).
  rewrite P1, P2, P3, P4, P5.
  change (group (set_cap 1 w1 []) 1) with w1.
  change (group (set_cap 2 w2 (set_cap 1 w1 [])) 2) with w2.
  change (group (set_cap 3 w3 (set_cap 2 w2 (set_cap 1 w1 []))) 3) with w3.
  change (group (set_cap 4 w4 (set_cap 3 w3 (set_cap 2 w2 (set_cap 1 w1 [])))) 4)
    with w4.
  change (group (set_cap 5 w5 (set_cap 4 w4 (set_cap 3 w3 (set_cap 2 w2
            (set_cap 1 w1 []))))) 5) with w5.
  unfold digit_run. repeat split; try assumption; lia.
Qed.

End TimestampPattern.

(** ** [parseInt] on digit runs *)

Section ParseIntFacts.
Local Open Scope string_scope.

Lemma digit_not_space a : is_digit a = true -> is_space a = false.
Proof. destruct a as [[] [] [] [] [] [] [] []]; try discriminate; reflexivity. Qed.

Lemma digit_not_sep a : is_digit a = true -> is_date_sep a = false.
Proof. destruct a as [[] [] [] [] [] [] [] []]; try discriminate; reflexivity. Qed.

Lemma digit_not_colon a : is_digit a = true -> is_colon a = false.
Proof. destruct a as [[] [] [] [] [] [] [] []]; try discriminate; reflexivity. Qed.

Lemma sep_not_digit a : is_date_sep a = true -> is_digit a = false.
Proof. destruct a as [[] [] [] [] [] [] [] []]; try discriminate; reflexivity. Qed.

Lemma span_digits_all w :
  str_all is_digit w = true -> span_digits w = (w, EmptyString).
Proof.
  induction w as [|a w IH]; intro H; [reflexivity|].
  simpl in H. apply andb_true_iff in H as [Ha Hw].
  cbn [span_digits]. rewrite Ha, (IH Hw). reflexivity.
Qed.

Lemma digit_val_range a : is_digit a = true -> (0 <= digit_val a <= 9)%Z.
Proof. destruct a as [[] [] [] [] [] [] [] []]; try discriminate; intros _; vm_compute; split; discriminate. Qed.

Lemma decimal_value_range w : forall acc,
  str_all is_digit w = true -> (0 <= acc)%Z ->
  (0 <= decimal_value acc w < (acc + 1) * 10 ^ Z.of_nat (String.length w))%Z.
Proof.
  induction w as [|a w IH]; intros acc H A.
  - simpl. lia.
  - simpl in H. apply andb_true_iff in H as [Ha Hw].
    pose proof (digit_val_range a Ha) as R.
    cbn [decimal_value String.length]. rewrite Nat2Z.inj_succ, Z.pow_succ_r by lia.
    specialize (IH (10 * acc + digit_val a)%Z Hw ltac:(lia)).
    split; [lia|]. eapply Z.lt_le_trans; [apply IH|].
    assert (0 < 10 ^ Z.of_nat (String.length w))%Z by (apply Z.pow_pos_nonneg; lia).
    nia.
Qed.

Lemma parseInt_digits w :
  str_all is_digit w = true -> w <> EmptyString ->
  parseInt w = of_Z (decimal_value 0 w).
Proof.
  intros H NE. destruct w as [|a w]; [contradiction|].
  pose proof H as H'. simpl in H'. apply andb_true_iff in H' as [Ha Hw].
  unfold parseInt. cbn [trimStart]. rewrite (digit_not_space a Ha).
  assert (S : strip_sign (String a w) = (false, String a w)).
  { destruct a as [[] [] [] [] [] [] [] []]; try discriminate Ha; reflexivity. }
  rewrite S.
  assert (SP : span_digits (String a w) = (String a w, EmptyString)) by now apply span_digits_all.
  destruct w as [|x rest].
  - destruct a as [[] [] [] [] [] [] [] []]; try discriminate Ha; reflexivity.
  - simpl in Hw. apply andb_true_iff in Hw as [Hx Hrest].
    assert (X : Ascii.eqb x "x" || Ascii.eqb x "X" = false).
    { destruct x as [[] [] [] [] [] [] [] []]; try discriminate Hx; reflexivity. }
    destruct a as [[] [] [] [] [] [] [] []]; try discriminate Ha;
      try (rewrite X); rewrite SP; reflexivity.
Qed.

Lemma parseInt_run n w :
  digit_run n w ->
  parseInt w = of_Z (decimal_value 0 w)
  /\ (0 <= decimal_value 0 w < 10 ^ Z.of_nat n)%Z.
Proof.
  intros [D [L U]]. split.
  - apply parseInt_digits; [exact D|]. intro E. subst. simpl in L. lia.
  - pose proof (decimal_value_range w 0 D ltac:(lia)) as R.
    split; [lia|]. eapply Z.lt_le_trans; [apply R|].
    rewrite Z.mul_1_l. apply Z.pow_le_mono_r; lia.
Qed.

End ParseIntFacts.

(** ** Dates from bounded fields *)

Section DateFacts.
Local Open Scope Z_scope.

Lemma Qtrunc_of_int q z : (q == inject_Z z)%Q -> Qtrunc q = z.
Proof.
  destruct q as [n d]. unfold Qeq, Qtrunc. simpl. intro E.
  rewrite Z.mul_1_r in E. subst n. apply Z.quot_mul. discriminate.
Qed.

Lemma daysBeforeMonth_range leap mn : 0 <= daysBeforeMonth leap mn <= 335.
Proof.
  unfold daysBeforeMonth.
  assert (0 <= (if leap && (2 <=? mn) then 1 else 0) <= 1)
    by (destruct (leap && (2 <=? mn))%bool; lia).
  assert (T : forall k,
            0 <= nth k [0; 31; 59; 90; 120; 151; 181; 212; 243; 273; 304; 334] 0
              <= 334).
  { intro k. do 12 (destruct k as [|k]; [cbn [nth]; lia|]). cbn [nth].
    destruct k; lia. }
  specialize (T (Z.to_nat mn)). lia.
Qed.

Lemma DayFromYear_range y : -2 <= y <= 14000 -> -730000 <= DayFromYear y <= 4400000.
Proof. intro R. unfold DayFromYear. Z.div_mod_to_equations. lia. Qed.

(** [new Date] on integers in the ranges the pattern allows is a valid
    date. *)
Lemma newDate_valid yx mx dx hx mix (y m d h mi : Z) :
  denotes yx (inject_Z y) -> denotes mx (inject_Z m) ->
  denotes dx (inject_Z d) -> denotes hx (inject_Z h) ->
  denotes mix (inject_Z mi) ->
  0 <= y <= 12000 -> -1 <= m <= 10000 -> 0 <= d <= 10000 ->
  0 <= h <= 100 -> 0 <= mi <= 100 ->
  exists t, newDate yx mx dx hx mix = DateTV t.
Proof.
  intros (qy & -> & Ey) (qm & -> & Em) (qd & -> & Ed) (qh & -> & Eh)
         (qi & -> & Ei) Ry Rm Rd Rh Ri.
  unfold newDate.
  rewrite (Qtrunc_of_int _ _ Ey), (Qtrunc_of_int _ _ Em), (Qtrunc_of_int _ _ Ed),
          (Qtrunc_of_int _ _ Eh), (Qtrunc_of_int _ _ Ei).
  set (yr := if (0 <=? y) && (y <=? 99) then 1900 + y else y).
  assert (Ryr : 0 <= yr <= 12000).
  { unfold yr. destruct ((0 <=? y) && (y <=? 99))%bool eqn:B; [|lia].
    apply andb_true_iff in B as [B1 B2]. lia. }
  set (t := MakeDate _ _).
  assert (B : Z.abs (UTC t) <= maxTimeValue).
  { unfold t, UTC, LocalTZA, MakeDate, MakeTime, MakeDay, maxTimeValue,
           msPerDay, msPerHour, msPerMinute.
    pose proof (daysBeforeMonth_range (isLeapYear (yr + m / 12)) (m mod 12)) as DB.
    assert (RY : -2 <= yr + m / 12 <= 14000) by (Z.div_mod_to_equations; lia).
    pose proof (DayFromYear_range (yr + m / 12) RY) as DY.
    lia. }
  apply Z.leb_le in B. rewrite B. eauto.
Qed.

End DateFacts.

(** ** The calendar functions *)

Section CalendarFacts.
Local Open Scope Z_scope.

Lemma DayFromYear_march y :
  DayFromYear y + 719468 = march_days (y - 1) + 306.
Proof. unfold DayFromYear, march_days. Z.div_mod_to_equations. lia. Qed.

Lemma isLeapYear_spec y :
  isLeapYear y = true <-> march_days y - march_days (y - 1) = 366.
Proof.
  unfold isLeapYear, march_days.
  rewrite orb_true_iff, andb_true_iff, negb_true_iff, !Z.eqb_eq, Z.eqb_neq.
  Z.div_mod_to_equations. lia.
Qed.

Lemma march_days_step y :
  march_days y - march_days (y - 1) = 365 \/ march_days y - march_days (y - 1) = 366.
Proof. unfold march_days. Z.div_mod_to_equations. lia. Qed.

(** The inverse on days counted from the first of March. *)
Lemma civil_from_march Y doy :
  0 <= doy < march_days (Y + 1) - march_days Y ->
  civil_from_days (march_days Y + doy - 719468)
  = let mp := (5 * doy + 2) / 153 in
    let m := if mp <? 10 then mp + 3 else mp - 9 in
    (if m <=? 2 then Y + 1 else Y, m, doy - (153 * mp + 2) / 5 + 1).
Proof.
  intro R. unfold civil_from_days.
  replace (march_days Y + doy - 719468 + 719468) with (march_days Y + doy) by lia.
  set (z := march_days Y + doy).
  assert (Era : z / 146097 = Y / 400).
  { unfold z, march_days in *. Z.div_mod_to_equations. lia. }
  rewrite Era.
  set (doe := z - Y / 400 * 146097).
  set (r := Y mod 400).
  assert (Doe : doe = 365 * r + r / 4 - r / 100 + doy).
  { unfold doe, z, r, march_days in *. Z.div_mod_to_equations. lia. }
  assert (Rr : 0 <= r < 400) by (unfold r; Z.div_mod_to_equations; lia).
  assert (Rd : 0 <= doy <= 365).
  { pose proof (march_days_step (Y + 1)) as S.
    replace (Y + 1 - 1) with Y in S by lia. lia. }
  assert (Rd' : r mod 4 <> 3 \/ (r mod 100 = 99 /\ r <> 399) -> doy <= 364).
  { unfold r, march_days in *. Z.div_mod_to_equations. lia. }
  assert (Yoe : (doe - doe / 1460 + doe / 36524 - doe / 146096) / 365 = r).
  { rewrite Doe. clear - Rr Rd Rd'. Z.div_mod_to_equations. lia. }
  rewrite Yoe.
  replace (r + Y / 400 * 400) with Y by (unfold r; Z.div_mod_to_equations; lia).
  replace (doe - (365 * r + r / 4 - r / 100)) with doy by lia.
  reflexivity.
Qed.

Lemma leap_march y :
  march_days y - march_days (y - 1) = if isLeapYear y then 366 else 365.
Proof.
  destruct (isLeapYear y) eqn:L.
  - now apply isLeapYear_spec.
  - destruct (march_days_step y) as [S|S]; [exact S|].
    apply isLeapYear_spec in S. congruence.
Qed.

(** Evaluation of the closed parts of a goal about a given month. *)
Ltac calc_bool :=
  repeat match goal with
  | |- context [?a <=? ?b] =>
      let v := eval vm_compute in (a <=? b) in
      match v with
      | true => change (a <=? b) with true
      | false => change (a <=? b) with false
      end
  | |- context [?a <? ?b] =>
      let v := eval vm_compute in (a <? b) in
      match v with
      | true => change (a <? b) with true
      | false => change (a <? b) with false
      end
  | |- context [?a =? ?b] =>
      let v := eval vm_compute in (a =? b) in
      match v with
      | true => change (a =? b) with true
      | false => change (a =? b) with false
      end
  end; cbn [andb orb negb]; cbv iota.

Ltac calc_table :=
  match goal with
  | |- context [nth ?i ?l 0] =>
      let v := eval vm_compute in (nth i l 0) in change (nth i l 0) with v
  end.

Ltac calc_quotient c :=
  match goal with
  | |- context [?x / c] =>
      let v := eval vm_compute in (x / c) in
      match v with
      | Z0 => change (x / c) with v
      | Zpos _ => change (x / c) with v
      end
  end.

Lemma MakeDay_march y m d :
  1 <= m <= 12 ->
  MakeDay y (m - 1) d
  = march_days (if m <=? 2 then y - 1 else y)
    + ((153 * (if m <=? 2 then m + 9 else m - 3) + 2) / 5 + d - 1) - 719468.
Proof.
  intro R. unfold MakeDay.
  replace ((m - 1) / 12) with 0 by (Z.div_mod_to_equations; lia).
  replace ((m - 1) mod 12) with (m - 1) by (Z.div_mod_to_equations; lia).
  rewrite Z.add_0_r.
  pose proof (DayFromYear_march y) as D. pose proof (leap_march y) as L.
  unfold daysBeforeMonth.
  assert (C : m = 1 \/ m = 2 \/ m = 3 \/ m = 4 \/ m = 5 \/ m = 6 \/ m = 7
              \/ m = 8 \/ m = 9 \/ m = 10 \/ m = 11 \/ m = 12) by lia.
  destruct (isLeapYear y);
    repeat (destruct C as [-> | C];
            [calc_table; calc_bool; calc_quotient 5; lia|]);
    subst m; calc_table; calc_bool; calc_quotient 5; lia.
Qed.

(** The calendar functions agree on every date of the Gregorian calendar. *)
Lemma civil_from_days_MakeDay y m d :
  1 <= m <= 12 -> 1 <= d <= daysInMonth y m ->
  civil_from_days (MakeDay y (m - 1) d) = (y, m, d).
Proof.
  intros Rm Rd. rewrite MakeDay_march by exact Rm.
  pose proof (leap_march y) as L.
  pose proof (march_days_step (y + 1)) as S1.
  replace (y + 1 - 1) with y in S1 by lia.
  unfold daysInMonth in Rd.
  remember (isLeapYear y) as leap eqn:Leap in *. clear Leap.
  assert (C : m = 1 \/ m = 2 \/ m = 3 \/ m = 4 \/ m = 5 \/ m = 6 \/ m = 7
              \/ m = 8 \/ m = 9 \/ m = 10 \/ m = 11 \/ m = 12) by lia.
  assert (K : forall Y c mp,
            0 <= c + d - 1 < march_days (Y + 1) - march_days Y ->
            (5 * (c + d - 1) + 2) / 153 = mp ->
            (if mp <? 10 then mp + 3 else mp - 9) = m ->
            (if m <=? 2 then Y + 1 else Y) = y ->
            c = (153 * mp + 2) / 5 ->
            civil_from_days (march_days Y + (c + d - 1) - 719468) = (y, m, d)).
  { intros Y c mp B E1 E2 E3 E4. rewrite civil_from_march by exact B.
    cbv zeta. rewrite E1, E2, E3, <- E4. f_equal. lia. }
  repeat (destruct C as [-> | C];
    [ generalize Rd; calc_bool; clear Rd; intro Rd; calc_quotient 5;
      match goal with
      | |- civil_from_days (march_days ?Y + (?c + d - 1) - 719468) = _ =>
          let mp := eval vm_compute in ((5 * c + 2) / 153) in
          apply (K Y c mp)
      end;
      [ try (replace (y - 1 + 1) with y by lia); destruct leap; cbv iota in *; lia
      | destruct leap; cbv iota in *; Z.div_mod_to_equations; lia
      | reflexivity
      | calc_bool; lia
      | reflexivity ]
    | ]).
  subst m. generalize Rd; calc_bool; clear Rd; intro Rd. calc_quotient 5.
  apply (K y 275 9);
    [ destruct leap; cbv iota in *; lia | Z.div_mod_to_equations; lia | reflexivity
    | reflexivity | reflexivity ].
Qed.

End CalendarFacts.

Section DateGetters.
Local Open Scope Z_scope.

(** A date built from the fields of an existing day of the calendar, at a
    time of that day, reads back as these fields. *)
Lemma newDate_getters yx mx dx hx mix (y m d h mi : Z) :
  denotes yx (inject_Z y) -> denotes mx (inject_Z (m - 1)) ->
  denotes dx (inject_Z d) -> denotes hx (inject_Z h) ->
  denotes mix (inject_Z mi) ->
  100 <= y <= 12000 -> 1 <= m <= 12 -> 1 <= d <= daysInMonth y m ->
  0 <= h <= 23 -> 0 <= mi <= 59 ->
  let date := newDate yx mx dx hx mix in
  getFullYear date = Some y /\ getMonth date = Some (m - 1)
  /\ getDate date = Some d.
Proof.
  intros (qy & -> & Ey) (qm & -> & Em) (qd & -> & Ed) (qh & -> & Eh)
         (qi & -> & Ei) Ry Rm Rd Rh Ri.
  assert (Rd' : 1 <= d <= 31).
  { unfold daysInMonth in Rd.
    destruct (m =? 2); [destruct (isLeapYear y); lia|].
    destruct (_ || _)%bool; lia. }
  unfold newDate.
  rewrite (Qtrunc_of_int _ _ Ey), (Qtrunc_of_int _ _ Em), (Qtrunc_of_int _ _ Ed),
          (Qtrunc_of_int _ _ Eh), (Qtrunc_of_int _ _ Ei).
  replace ((0 <=? y) && (y <=? 99))%bool with false
    by (symmetry; apply andb_false_iff; right; apply Z.leb_gt; lia).
  set (day := MakeDay y (m - 1) d).
  set (time := MakeTime h mi 0 0).
  assert (Rt : 0 <= time < msPerDay).
  { unfold time, MakeTime, msPerDay, msPerHour, msPerMinute. lia. }
  assert (Rday : -730000 <= day <= 4500000).
  { unfold day, MakeDay.
    replace ((m - 1) / 12) with 0 by (Z.div_mod_to_equations; lia).
    rewrite Z.add_0_r.
    pose proof (daysBeforeMonth_range (isLeapYear y) ((m - 1) mod 12)).
    pose proof (DayFromYear_range y ltac:(lia)). lia. }
  assert (B : (Z.abs (UTC (MakeDate day time)) <=? maxTimeValue) = true).
  { apply Z.leb_le. unfold UTC, LocalTZA, MakeDate, maxTimeValue, msPerDay in *. lia. }
  rewrite B. cbn [getFullYear getMonth getDate].
  unfold YearFromTime, MonthFromTime, DateFromTime.
  assert (D : Day (MakeDate day time) = day).
  { unfold Day, MakeDate, msPerDay in *. Z.div_mod_to_equations. lia. }
  rewrite D. unfold day. rewrite civil_from_days_MakeDay by assumption.
  cbn [fst snd]. auto.
Qed.

End DateGetters.


(** ** Parsed timestamps are valid dates *)

Section TimestampFacts.
Variable Date_parse : string -> option Z.
Local Open Scope string_scope.

Lemma denotes_int_sub x (v : Z) :
  denotes x (inject_Z v) -> denotes (x - one)%num (inject_Z (v - 1)).
Proof.
  intro D. eapply denotes_eq; [apply denotes_sub; [exact D | apply denotes_Fin]|].
  unfold Z.sub. rewrite inject_Z_plus. reflexivity.
Qed.

Lemma denotes_int_add_2000 x (v : Z) :
  denotes x (inject_Z v) -> denotes (of_Z 2000 + x)%num (inject_Z (2000 + v)).
Proof.
  intro D. eapply denotes_eq; [apply denotes_add; [apply denotes_of_Z | exact D]|].
  rewrite inject_Z_plus. reflexivity.
Qed.

Lemma timestamp_fields_valid s parts :
  regex_match timestampRe s = Some parts ->
  let '(year, month, day, hour, minute) := timestamp_fields parts in
  valid_date (newDate year month day hour minute).
Proof.
  intro H. apply timestamp_groups in H as (R1 & R2 & R3 & R4 & R5 & _).
  apply (parseInt_run 4) in R1 as [E1 B1]. apply (parseInt_run 2) in R2 as [E2 B2].
  apply (parseInt_run 4) in R3 as [E3 B3]. apply (parseInt_run 2) in R4 as [E4 B4].
  apply (parseInt_run 2) in R5 as [E5 B5].
  unfold timestamp_fields. rewrite E1, E2, E3, E4, E5.
  set (v1 := decimal_value 0 (group parts 1)) in *.
  set (v2 := decimal_value 0 (group parts 2)) in *.
  set (v3 := decimal_value 0 (group parts 3)) in *.
  set (v4 := decimal_value 0 (group parts 4)) in *.
  set (v5 := decimal_value 0 (group parts 5)) in *.
  change (10 ^ Z.of_nat 4)%Z with 10000%Z in *.
  change (10 ^ Z.of_nat 2)%Z with 100%Z in *.
  destruct (String.length (group parts 1) =? 4)%nat.
  { eapply newDate_valid; try apply denotes_of_Z; try (apply denotes_int_sub; apply denotes_of_Z); lia. }
  destruct (String.length (group parts 3) =? 4)%nat.
  { destruct (of_Z v1 >? twelve)%num; [|destruct (of_Z v2 >? twelve)%num];
      (eapply newDate_valid; try apply denotes_of_Z;
       try (apply denotes_int_sub; apply denotes_of_Z); lia). }
  eapply newDate_valid; try apply denotes_of_Z;
    try (apply denotes_int_sub; apply denotes_of_Z);
    try (apply denotes_int_add_2000; apply denotes_of_Z); lia.
Qed.

Lemma parseTimestamp_valid s d :
  parseTimestamp Date_parse s = Some d -> valid_date d.
Proof.
  unfold parseTimestamp. destruct (negb (truthy s)); [discriminate|].
  destruct (regex_match timestampRe s) as [parts|] eqn:M.
  - pose proof (timestamp_fields_valid s parts M) as V.
    destruct (timestamp_fields parts) as [[[[year month] day] hour] minute].
    intro E. injection E as <-. exact V.
  - destruct (Date_parse s) as [tv|]; [|discriminate].
    intro E. injection E as <-. now exists (LocalTime tv).
Qed.

End TimestampFacts.

(** ** Day and month of a timestamp *)

Section DayMonth.
Variable Date_parse : string -> option Z.
Local Open Scope string_scope.

Lemma regex_match_first r s c :
  rmatch r s [] (fun s' c' => Some (set_cap 0 (consumed s s') c')) = Some c ->
  regex_match r s = Some c.
Proof. intro H. destruct s; cbn [regex_match]; now rewrite H. Qed.

Lemma step_cat r1 r2 s c k res :
  rmatch r1 s c (fun s' c' => rmatch r2 s' c' k) = Some res ->
  rmatch (Cat r1 r2) s c k = Some res.
Proof. exact (fun H => H). Qed.

Lemma step_chr p a s c k res :
  p a = true -> k s c = Some res -> rmatch (Chr p) (String a s) c k = Some res.
Proof. intros P K. cbn [rmatch]. now rewrite P. Qed.

Lemma step_group_run n p lo hi w rest c k res :
  str_all p w = true ->
  (match rest with String a _ => p a = false | EmptyString => True end
   \/ hi = String.length w) ->
  lo <= String.length w <= hi ->
  k rest (set_cap n w c) = Some res ->
  rmatch (Grp n (Rep (Chr p) lo (Some hi))) (w ++ rest) c k = Some res.
Proof.
  intros W Stop B K. cbn [rmatch groups_of].
  apply rep_class_greedy; try assumption; try lia.
  - destruct Stop as [S|S]; [now left | right; now subst].
  - intros h E. injection E as <-. lia.
  - rewrite length_app. lia.
  - now rewrite consumed_app.
Qed.

Lemma step_run p lo w rest c k res :
  str_all p w = true ->
  match rest with String a _ => p a = false | EmptyString => True end ->
  lo <= String.length w ->
  k rest c = Some res ->
  rmatch (Rep (Chr p) lo None) (w ++ rest) c k = Some res.
Proof.
  intros W Stop B K. apply rmatch_class_greedy; try assumption.
  - now left.
  - discriminate.
Qed.

(** The optional seconds: absent at the end of the input, else consumed. *)
Lemma step_seconds_none c k res :
  k EmptyString c = Some res ->
  rmatch (Rep (Cat (Chr is_colon) (Grp 6 (digits 2 2))) 0 (Some 1%nat))
         EmptyString c k = Some res.
Proof. intro K. cbn. exact K. Qed.

Lemma step_seconds_some x y c k res :
  is_digit x = true -> is_digit y = true ->
  k EmptyString (set_cap 6 (String x (String y EmptyString))
                   (clear_caps [6] c)) = Some res ->
  rmatch (Rep (Cat (Chr is_colon) (Grp 6 (digits 2 2))) 0 (Some 1%nat))
         (String ":" (String x (String y EmptyString))) c k = Some res.
Proof.
  intros X Y K. cbn [rmatch rep_loop groups_of app hi_zero String.length Nat.add
                     Nat.eqb Nat.ltb Nat.leb andb hi_pred pred digits].
  change (is_colon ":") with true. cbn iota.
  rewrite X. cbn iota beta. rewrite clear_caps_nil.
  cbn [Nat.eqb String.length andb hi_zero]. rewrite Y. cbn iota beta.
  rewrite clear_caps_nil. cbn [Nat.eqb String.length andb hi_zero pred hi_pred].
  unfold consumed. cbn [String.length Nat.sub substring].
  rewrite K. reflexivity.
Qed.

Lemma digit_run_cons n w :
  digit_run n w -> exists a w', w = String a w' /\ is_digit a = true.
Proof.
  intros [D [L _]]. destruct w as [|a w']; [simpl in L; lia|].
  simpl in D. apply andb_true_iff in D as [Da _]. eauto.
Qed.

(** The match of a well-formed day-month-year timestamp. *)
Lemma timestamp_string_match A B C hh mm tail sep1 sep2 :
  digit_run 2 A -> digit_run 2 B ->
  str_all is_digit C = true -> String.length C = 4 ->
  is_date_sep sep1 = true -> is_date_sep sep2 = true ->
  digit_run 2 hh -> str_all is_digit mm = true -> String.length mm = 2 ->
  seconds_tail tail ->
  exists parts,
    regex_match timestampRe (timestamp_string A B C hh mm tail sep1 sep2)
    = Some parts
    /\ group parts 1 = A /\ group parts 2 = B /\ group parts 3 = C
    /\ group parts 4 = hh /\ group parts 5 = mm.
Proof.
  intros [DA [LA UA]] [DB [LB UB]] DC LC S1 S2 Rh Dm Lm T.
  destruct (digit_run_cons _ _ Rh) as (h1 & hh' & -> & Dh1).
  destruct Rh as [Dh [Lh Uh]].
  unfold timestamp_string, timestampRe, digits.
  assert (Sp : is_space h1 = false) by now apply digit_not_space.
  destruct T as [-> | (x & y & X & Y & ->)].
  - eexists. split.
    + apply regex_match_first.
      apply step_cat, step_group_run; [exact DA | left; now apply sep_not_digit | lia |].
      apply step_cat, step_chr; [exact S1|].
      apply step_cat, step_group_run; [exact DB | left; now apply sep_not_digit | lia |].
      apply step_cat, step_chr; [exact S2|].
      apply step_cat, step_group_run; [exact DC | left; reflexivity | lia |].
      apply step_cat.
      apply (step_run is_space 1 (String " " EmptyString));
        [reflexivity | exact Sp | simpl; lia |].
      apply step_cat, step_group_run; [exact Dh | left; reflexivity | lia |].
      apply step_cat, step_chr; [reflexivity|].
      apply step_cat, step_group_run; [exact Dm | right; now rewrite Lm | lia |].
      apply step_seconds_none. reflexivity.
    + repeat split; reflexivity.
  - eexists. split.
    + apply regex_match_first.
      apply step_cat, step_group_run; [exact DA | left; now apply sep_not_digit | lia |].
      apply step_cat, step_chr; [exact S1|].
      apply step_cat, step_group_run; [exact DB | left; now apply sep_not_digit | lia |].
      apply step_cat, step_chr; [exact S2|].
      apply step_cat, step_group_run; [exact DC | left; reflexivity | lia |].
      apply step_cat.
      apply (step_run is_space 1 (String " " EmptyString));
        [reflexivity | exact Sp | simpl; lia |].
      apply step_cat, step_group_run; [exact Dh | left; reflexivity | lia |].
      apply step_cat, step_chr; [reflexivity|].
      apply step_cat, step_group_run; [exact Dm | right; now rewrite Lm | lia |].
      apply step_seconds_some; [exact X | exact Y |]. reflexivity.
    + repeat split; reflexivity.
Qed.

(** The resolution of the day and the month, for every well-formed
    day-month-year timestamp. *)
Lemma parseTimestamp_resolved A B C hh mm tail sep1 sep2 :
  digit_run 2 A -> digit_run 2 B ->
  str_all is_digit C = true -> String.length C = 4 ->
  is_date_sep sep1 = true -> is_date_sep sep2 = true ->
  digit_run 2 hh -> str_all is_digit mm = true -> String.length mm = 2 ->
  seconds_tail tail ->
  parseTimestamp Date_parse (timestamp_string A B C hh mm tail sep1 sep2)
  = Some (newDate (parseInt C)
                  (snd (resolve_day_month (parseInt A) (parseInt B)) - one)%num
                  (fst (resolve_day_month (parseInt A) (parseInt B)))
                  (parseInt hh) (parseInt mm)).
Proof.
  intros RA RB DC LC S1 S2 Rh Dm Lm T.
  destruct (timestamp_string_match A B C hh mm tail sep1 sep2 RA RB DC LC S1 S2 Rh Dm Lm T)
    as (parts & M & G1 & G2 & G3 & G4 & G5).
  destruct (digit_run_cons _ _ RA) as (a1 & A' & EA & _).
  unfold parseTimestamp.
  assert (Tr : truthy (timestamp_string A B C hh mm tail sep1 sep2) = true).
  { unfold timestamp_string. rewrite EA. reflexivity. }
  rewrite Tr, M. cbn [negb].
  unfold timestamp_fields. rewrite G1, G2, G3, G4, G5, LC.
  destruct RA as [_ [_ UA]].
  replace (String.length A =? 4)%nat with false by (symmetry; apply Nat.eqb_neq; lia).
  cbn [Nat.eqb]. unfold resolve_day_month.
  change twelve with (Fin 12).
  destruct (parseInt A >? Fin 12)%num; [reflexivity|].
  destruct (parseInt B >? Fin 12)%num; reflexivity.
Qed.

(** When the resolved day exists in the calendar, the date returned reads
    back as that day of that month. *)
Lemma parseTimestamp_calendar_date A B C hh mm tail sep1 sep2 (day month : Z) :
  digit_run 2 A -> digit_run 2 B ->
  str_all is_digit C = true -> String.length C = 4 ->
  is_date_sep sep1 = true -> is_date_sep sep2 = true ->
  digit_run 2 hh -> str_all is_digit mm = true -> String.length mm = 2 ->
  seconds_tail tail ->
  resolve_day_month (parseInt A) (parseInt B) = (of_Z day, of_Z month) ->
  (100 <= decimal_value 0 C)%Z ->
  (1 <= month <= 12)%Z ->
  (1 <= day <= daysInMonth (decimal_value 0 C) month)%Z ->
  (decimal_value 0 hh <= 23)%Z -> (decimal_value 0 mm <= 59)%Z ->
  date_of (parseTimestamp Date_parse
             (timestamp_string A B C hh mm tail sep1 sep2))
  = (Some day, Some month).
Proof.
  intros RA RB DC LC S1 S2 Rh Dm Lm T E Ry Rmo Rd Rhh Rmm.
  rewrite (parseTimestamp_resolved A B C hh mm tail sep1 sep2) by assumption.
  rewrite E. cbn [fst snd date_of].
  destruct (parseInt_run 4 C) as [EC BC]; [split; [exact DC | rewrite LC; lia]|].
  destruct (parseInt_run 2 hh Rh) as [Eh Bh].
  destruct (parseInt_run 2 mm) as [Em Bm]; [split; [exact Dm | rewrite Lm; lia]|].
  change (10 ^ Z.of_nat 4)%Z with 10000%Z in BC.
  destruct (newDate_getters (parseInt C) (of_Z month - one)%num (of_Z day)
              (parseInt hh) (parseInt mm)
              (decimal_value 0 C) month day (decimal_value 0 hh)
              (decimal_value 0 mm)) as (GY & GM & GD);
    try assumption; try lia;
    try (rewrite ?EC, ?Eh, ?Em; apply denotes_of_Z).
  - apply denotes_int_sub, denotes_of_Z.
  - rewrite GM, GD. cbn [option_map]. do 2 f_equal. lia.
Qed.

(** C2.  A timestamp A-B-C hh:mm or A-B-C hh:mm:ss (separators among
    [-/.]) with A and B of at most two digits and C of four is resolved
    with C as the year and: day A, month B when A > 12; else month A, day
    B when B > 12; else day A, month B.  The month passed to [new Date] is
    the month index, month - 1.  So 05-03-2024 08:30 is day 5 of month 3,
    13-03-2024 08:30 is day 13 of month 3 and 03-13-2024 08:30 is day 13
    of month 3. *)
Theorem parseTimestamp_day_month :
  (forall A B C hh mm tail sep1 sep2,
      digit_run 2 A -> digit_run 2 B ->
      str_all is_digit C = true -> String.length C = 4 ->
      is_date_sep sep1 = true -> is_date_sep sep2 = true ->
      digit_run 2 hh -> str_all is_digit mm = true -> String.length mm = 2 ->
      seconds_tail tail ->
      let '(day, month) := resolve_day_month (parseInt A) (parseInt B) in
      parseTimestamp Date_parse (timestamp_string A B C hh mm tail sep1 sep2)
      = Some (newDate (parseInt C) (month - one)%num day
                      (parseInt hh) (parseInt mm)))
  /\ date_of (parseTimestamp Date_parse "05-03-2024 08:30") = (Some 5, Some 3)%Z
  /\ date_of (parseTimestamp Date_parse "13-03-2024 08:30") = (Some 13, Some 3)%Z
  /\ date_of (parseTimestamp Date_parse "03-13-2024 08:30") = (Some 13, Some 3)%Z.
Proof.
  split; [|repeat split; vm_compute; reflexivity].
  intros A B C hh mm tail sep1 sep2 RA RB DC LC S1 S2 Rh Dm Lm T.
  rewrite (parseTimestamp_resolved A B C hh mm tail sep1 sep2) by assumption.
  now destruct (resolve_day_month (parseInt A) (parseInt B)).
Qed.

End DayMonth.


(** ** Sorting the readings *)

Section SortFacts.

Lemma getTime_valid r : valid_reading r -> getTime (timestamp r) = of_Z (time_of r).
Proof. intros [t E]. unfold time_of. now rewrite E. Qed.

Lemma byTimestamp_gt a b :
  valid_reading a -> valid_reading b ->
  (byTimestamp a b >? zero)%num = (time_of b <? time_of a)%Z.
Proof.
  intros Va Vb. unfold byTimestamp. rewrite (getTime_valid a Va), (getTime_valid b Vb).
  unfold ngt.
  assert (D : denotes (of_Z (time_of a) - of_Z (time_of b))%num
                      (inject_Z (time_of a) - inject_Z (time_of b))%Q)
    by (apply denotes_sub; apply denotes_of_Z).
  destruct (Z.ltb_spec (time_of b) (time_of a)) as [L|G].
  - apply (nlt_denotes zero _ 0%Q _ (denotes_Fin 0) D).
    rewrite Zlt_Qlt in L. lra.
  - destruct (zero <? _)%num eqn:E; [|reflexivity].
    apply (nlt_denotes zero _ 0%Q _ (denotes_Fin 0) D) in E.
    rewrite Zle_Qle in G. lra.
Qed.

Lemma time_le_iff a b :
  valid_reading a -> valid_reading b ->
  (time_le a b <-> (time_of a <= time_of b)%Z).
Proof.
  intros Va Vb. unfold time_le. rewrite (getTime_valid a Va), (getTime_valid b Vb).
  rewrite (nle_denotes _ _ _ _ (denotes_of_Z _) (denotes_of_Z _)).
  now rewrite <- Zle_Qle.
Qed.

Lemma at_time_valid t r :
  valid_reading r -> at_time t r = (of_Z (time_of r) === t)%num.
Proof. intro V. unfold at_time. now rewrite (getTime_valid r V). Qed.

Lemma at_time_differ t a b :
  valid_reading a -> valid_reading b -> time_of a <> time_of b ->
  at_time t a && at_time t b = false.
Proof.
  intros Va Vb N. rewrite (at_time_valid t a Va), (at_time_valid t b Vb).
  destruct t as [| | |q]; try reflexivity. simpl.
  destruct (Qeq_bool (inject_Z (time_of a)) q) eqn:A; [|reflexivity].
  destruct (Qeq_bool (inject_Z (time_of b)) q) eqn:B; [|reflexivity].
  apply Qeq_bool_iff in A, B. exfalso. apply N.
  apply inject_Z_injective. now rewrite A, B.
Qed.

(** *** The insertion *)

Lemma sort_insert_perm {A} (cmp : A -> A -> number) x l :
  Permutation (x :: l) (sort_insert cmp x l).
Proof.
  induction l as [|y l IH]; cbn [sort_insert]; [reflexivity|].
  destruct (cmp x y >? zero)%num; [|reflexivity].
  rewrite perm_swap. now apply perm_skip.
Qed.

Lemma Array_sort_perm {A} (cmp : A -> A -> number) l :
  Permutation l (Array_sort cmp l).
Proof.
  induction l as [|x l IH]; [reflexivity|].
  cbn [Array_sort fold_right]. rewrite <- sort_insert_perm. now apply perm_skip.
Qed.

Lemma sort_insert_sorted x l :
  valid_reading x -> Forall valid_reading l ->
  StronglySorted time_le l ->
  StronglySorted time_le (sort_insert byTimestamp x l).
Proof.
  intros Vx. induction l as [|y l IH]; intros Vl S; cbn [sort_insert].
  - constructor; constructor.
  - inversion Vl as [|? ? Vy Vl']; subst. inversion S as [|? ? S' Hy]; subst.
    rewrite (byTimestamp_gt x y Vx Vy).
    destruct (Z.ltb_spec (time_of y) (time_of x)) as [L|G].
    + constructor; [now apply IH|].
      apply (Permutation_Forall (sort_insert_perm byTimestamp x l)).
      constructor; [|exact Hy]. apply time_le_iff; [assumption..|lia].
    + constructor; [exact S|].
      constructor; [apply time_le_iff; assumption|].
      rewrite Forall_forall in *. intros z Hz.
      apply time_le_iff; [exact Vx | now apply Vl'|].
      specialize (Hy z Hz). apply time_le_iff in Hy; [lia | exact Vy | now apply Vl'].
Qed.

Lemma sort_insert_stable t x l :
  valid_reading x -> Forall valid_reading l ->
  filter (at_time t) (sort_insert byTimestamp x l)
  = filter (at_time t) (x :: l).
Proof.
  intros Vx. induction l as [|y l IH]; intros Vl; cbn [sort_insert]; [reflexivity|].
  inversion Vl as [|? ? Vy Vl']; subst.
  rewrite (byTimestamp_gt x y Vx Vy).
  destruct (Z.ltb_spec (time_of y) (time_of x)) as [L|G]; [|reflexivity].
  cbn [filter]. rewrite (IH Vl'). cbn [filter].
  pose proof (at_time_differ t x y Vx Vy ltac:(lia)) as D.
  destruct (at_time t x), (at_time t y); try reflexivity; discriminate.
Qed.

Lemma Array_sort_valid l :
  Forall valid_reading l -> Forall valid_reading (Array_sort byTimestamp l).
Proof. intro V. now apply (Permutation_Forall (Array_sort_perm byTimestamp l)). Qed.

Lemma Array_sort_sorted l :
  Forall valid_reading l -> StronglySorted time_le (Array_sort byTimestamp l).
Proof.
  induction 1 as [|x l Vx Vl IH]; cbn [Array_sort fold_right]; [constructor|].
  apply sort_insert_sorted; [exact Vx | now apply Array_sort_valid | exact IH].
Qed.

Lemma Array_sort_stable t l :
  Forall valid_reading l ->
  filter (at_time t) (Array_sort byTimestamp l) = filter (at_time t) l.
Proof.
  induction 1 as [|x l Vx Vl IH]; cbn [Array_sort fold_right]; [reflexivity|].
  rewrite sort_insert_stable; [|exact Vx | now apply Array_sort_valid].
  cbn [filter]. fold (Array_sort byTimestamp l). now rewrite IH.
Qed.

Lemma StronglySorted_filter {A} (R : A -> A -> Prop) f l :
  StronglySorted R l -> StronglySorted R (filter f l).
Proof.
  induction 1 as [|x l S IH F]; cbn [filter]; [constructor|].
  destruct (f x); [|exact IH]. constructor; [exact IH|].
  rewrite Forall_forall in *. intros y Hy. apply filter_In in Hy as [Hy _]. now apply F.
Qed.

End SortFacts.

(** ** Grouping by day *)

Section GroupFacts.
Variable Date_parse : string -> option Z.

Lemma reading_of_row_valid tc u row r :
  reading_of_row Date_parse tc u row = Some r -> valid_reading r.
Proof.
  unfold reading_of_row.
  destruct (findGlucoseColumn row) as [g|]; [|discriminate].
  destruct tc as [c|]; [|discriminate].
  destruct (_ || _ || _)%bool; [discriminate|].
  destruct (isNaN _); [discriminate|].
  destruct (parseTimestamp Date_parse _) as [ts|] eqn:P; [|discriminate].
  intro E. injection E as <-. unfold valid_reading. cbn [timestamp].
  eapply parseTimestamp_valid; eauto.
Qed.

Lemma collect_readings_valid rows u :
  Forall valid_reading (collect_readings Date_parse rows u).
Proof.
  unfold collect_readings. destruct rows as [|row0 rows']; [constructor|].
  apply Forall_flat_map. apply Forall_forall. intros row _.
  destruct (reading_of_row _ _ _ row) as [r|] eqn:E; [|constructor].
  constructor; [|constructor]. eapply reading_of_row_valid; eauto.
Qed.

(** *** Grouping by day *)

Lemma on_day_snoc key rs r :
  on_day key (rs ++ [r])
  = on_day key rs
    ++ (if String.eqb (formatDateKey (timestamp r)) key then [r] else []).
Proof. unfold on_day. rewrite filter_app. reflexivity. Qed.

Lemma map_has_push key k r m : map_has key (push_reading k r m) = map_has key m.
Proof.
  unfold map_has, push_reading. induction m as [|e m IH]; [reflexivity|].
  cbn [map existsb]. rewrite IH. f_equal.
  destruct (String.eqb (fst e) k); reflexivity.
Qed.

Lemma map_has_app key m m' : map_has key (m ++ m') = map_has key m || map_has key m'.
Proof. unfold map_has. apply existsb_app. Qed.

Lemma map_has_false key m e :
  map_has key m = false -> In e m -> String.eqb (fst e) key = false.
Proof.
  unfold map_has. intros H I.
  destruct (String.eqb (fst e) key) eqn:E; [|reflexivity].
  assert (existsb (fun e => String.eqb (fst e) key) m = true); [|congruence].
  apply existsb_exists. eauto.
Qed.

Lemma on_day_absent key m rs :
  grouped m rs -> map_has key m = false -> on_day key rs = [].
Proof.
  intros [_ G] H. unfold on_day.
  induction rs as [|r rs IH]; [reflexivity|]. cbn [filter].
  destruct (String.eqb (formatDateKey (timestamp r)) key) eqn:E.
  - apply String.eqb_eq in E. subst key.
    rewrite (G r (or_introl eq_refl)) in H. discriminate.
  - apply IH. intros r' Hr'. apply G. now right.
Qed.

Lemma push_reading_In e k r m :
  In e (push_reading k r m) ->
  exists e0, In e0 m /\ fst e = fst e0
    /\ readings (snd e)
       = readings (snd e0) ++ (if String.eqb (fst e0) k then [r] else []).
Proof.
  unfold push_reading. intro H. apply in_map_iff in H as (e0 & E & I).
  exists e0. split; [exact I|].
  destruct (String.eqb (fst e0) k); subst e; cbn [fst snd readings]; split;
    try reflexivity. now rewrite app_nil_r.
Qed.

Lemma add_reading_grouped m rs r :
  grouped m rs -> grouped (add_reading m r) (rs ++ [r]).
Proof.
  intros G. pose proof G as [G1 G2]. unfold add_reading.
  set (key := formatDateKey (timestamp r)).
  split.
  - intros e He. apply push_reading_In in He as (e0 & I0 & F & R).
    rewrite R, F, on_day_snoc. fold key. rewrite (String.eqb_sym key).
    f_equal.
    destruct (map_has key m) eqn:H; [now apply G1|].
    apply in_app_or in I0 as [I0 | [<- | []]]; [now apply G1|].
    cbn [fst snd emptyDay readings]. symmetry. now apply (on_day_absent key m).
  - intros r' Hr'. rewrite map_has_push.
    apply in_app_or in Hr' as [Hr' | [<- | []]].
    + destruct (map_has key m); [now apply G2|].
      rewrite map_has_app, (G2 r' Hr'). reflexivity.
    + fold key. destruct (map_has key m) eqn:H; [exact H|].
      rewrite map_has_app. unfold map_has at 2. cbn [existsb fst].
      rewrite String.eqb_refl. now rewrite orb_true_r.
Qed.

Lemma fold_add_reading_grouped rs : forall m done,
  grouped m done -> grouped (fold_left add_reading rs m) (done ++ rs).
Proof.
  induction rs as [|r rs IH]; intros m done G; cbn [fold_left].
  - now rewrite app_nil_r.
  - replace (done ++ r :: rs) with ((done ++ [r]) ++ rs)
      by (now rewrite <- app_assoc).
    apply IH. now apply add_reading_grouped.
Qed.

Lemma calculateDayStats_readings d : readings (calculateDayStats d) = readings d.
Proof. unfold calculateDayStats. now destruct (_ =? _)%nat. Qed.

(** The readings of a day are the readings of its date, in their order. *)
Lemma groupReadingsByDay_readings rs key day :
  In (key, day) (groupReadingsByDay rs) -> readings day = on_day key rs.
Proof.
  unfold groupReadingsByDay. intro H. apply in_map_iff in H as (e & E & I).
  injection E as <- <-. rewrite calculateDayStats_readings.
  assert (G : grouped (fold_left add_reading rs []) ([] ++ rs)).
  { apply fold_add_reading_grouped. split; [intros ? [] | intros ? []]. }
  destruct G as [G _]. now apply G.
Qed.

(** C9.  The readings come out of [parseGlucoseReadings] sorted by
    ascending timestamp, as a permutation of the readings collected in row
    order in which readings of equal timestamp keep that order; hence the
    readings of every day, of the grouping and of a parsed export, are
    non-decreasing by timestamp. *)
Theorem readings_sorted_by_timestamp :
  (forall rows unit,
      let unsorted := collect_readings Date_parse rows unit in
      let sorted := parseGlucoseReadings Date_parse rows unit in
      StronglySorted time_le sorted
      /\ Permutation unsorted sorted
      /\ (forall t, filter (at_time t) sorted = filter (at_time t) unsorted)
      /\ (forall key day,
             In (key, day) (groupReadingsByDay sorted) ->
             StronglySorted time_le (readings day)))
  /\ (forall csvContent key day,
         In (key, day) (days (parseLibreViewCSV Date_parse csvContent)) ->
         StronglySorted time_le (readings day)).
Proof.
  assert (S : forall rows unit,
            StronglySorted time_le (parseGlucoseReadings Date_parse rows unit)).
  { intros. apply Array_sort_sorted, collect_readings_valid. }
  assert (D : forall rows unit key day,
            In (key, day) (groupReadingsByDay (parseGlucoseReadings Date_parse rows unit)) ->
            StronglySorted time_le (readings day)).
  { intros rows unit key day I. rewrite (groupReadingsByDay_readings _ _ _ I).
    apply StronglySorted_filter, S. }
  split.
  - intros rows unit unsorted sorted. split; [apply S|].
    split; [apply Array_sort_perm|].
    split; [|apply D].
    intro t. apply Array_sort_stable, collect_readings_valid.
  - intros csv key day I. cbn [parseLibreViewCSV dataset_from days] in I.
    eapply D; eauto.
Qed.

End GroupFacts.

(** ** The header line *)

Section HeaderFacts.
Variable Date_parse : string -> option Z.

Lemma header_scan_none bound : forall lines i,
  Forall (fun line => is_header_line line = false) (firstn bound lines) ->
  header_scan lines i bound = None.
Proof.
  induction bound as [|b IH]; intros lines i F; [now destruct lines|].
  destruct lines as [|line rest]; [reflexivity|].
  cbn [firstn] in F. inversion F as [|? ? H F']; subst.
  cbn [header_scan]. rewrite H. now apply IH.
Qed.

Lemma firstn_min {A} n (l : list A) :
  firstn (Nat.min n (List.length l)) l = firstn n l.
Proof.
  destruct (Nat.le_ge_cases n (List.length l)) as [L|G].
  - now rewrite Nat.min_l.
  - rewrite Nat.min_r by exact G. rewrite firstn_all. symmetry. now apply firstn_all2.
Qed.

Lemma findHeaderIndex_default lines :
  Forall (fun line => is_header_line line = false) (firstn 10 lines) ->
  findHeaderIndex lines = 0.
Proof.
  intro F. unfold findHeaderIndex. rewrite header_scan_none; [reflexivity|].
  now rewrite firstn_min.
Qed.

(** C3 fails as stated: an export none of whose lines names "device" is
    ingested without any failure, its first line serving as the header. *)
Lemma missing_header_counterexample :
  no_header_in_prefix headerless_csv
  /\ ingest no_native_parse headerless_csv
     = Ingested (mkParsed [("2024-06-01"%string, scenario_day)] mg_dL
                          "Unknown Device" EmptyString).
Proof.
  split.
  - unfold no_header_in_prefix. vm_compute. repeat constructor.
  - vm_compute. reflexivity.
Qed.

(** C3, amended.  When none of the first ten lines names both "device"
    and "timestamp", no failure is reported: the header index stays 0 and
    the caller receives the dataset read with the first line as header. *)
Theorem missing_header_defaults_to_first_line csvContent :
  no_header_in_prefix csvContent ->
  findHeaderIndex (csv_lines csvContent) = 0
  /\ ingest Date_parse csvContent
     = Ingested (dataset_from Date_parse (csv_lines csvContent) 0).
Proof.
  intro N. pose proof (findHeaderIndex_default _ N) as E.
  split; [exact E|]. unfold ingest, parseLibreViewCSV. now rewrite E.
Qed.

End HeaderFacts.

(** ** Lines of comma-separated fields *)

Section CsvLineFacts.
Local Open Scope string_scope.

Lemma append_nil_r (s : string) : s ++ EmptyString = s.
Proof. induction s as [|a s IH]; simpl; [reflexivity | now rewrite IH]. Qed.

Lemma append_assoc (a b c : string) : (a ++ b) ++ c = a ++ (b ++ c).
Proof. induction a as [|x a IH]; simpl; [reflexivity | now rewrite IH]. Qed.

Lemma snoc_append current c rest :
  snoc current c ++ rest = current ++ String c rest.
Proof. unfold snoc. now rewrite append_assoc. Qed.

Lemma str_all_app p a b : str_all p (a ++ b) = str_all p a && str_all p b.
Proof.
  induction a as [|x a IH]; simpl; [reflexivity|].
  now rewrite IH, andb_assoc.
Qed.

(** Outside quotes, a plain run of characters is appended to the field
    being read. *)
Lemma loop_plain f : forall rest result current,
  plain_field f ->
  parseCSVLine_loop (f ++ rest) result current false
  = parseCSVLine_loop rest result (current ++ f) false.
Proof.
  induction f as [|c f IH]; intros rest result current P.
  - now rewrite append_nil_r.
  - unfold plain_field in P. simpl in P.
    apply andb_true_iff in P as [Pc Pf]. apply andb_true_iff in Pc as [C Q].
    unfold is_comma, is_dquote in C, Q. apply negb_true_iff in C, Q.
    cbn [append parseCSVLine_loop]. rewrite Q, C. cbn [andb].
    rewrite (IH rest result (snoc current c) Pf).
    now rewrite snoc_append.
Qed.

(** Inside quotes, everything up to the closing quote belongs to the
    field, commas included. *)
Lemma loop_quoted f : forall rest result current,
  quote_free f ->
  parseCSVLine_loop (f ++ String dquote rest) result current true
  = parseCSVLine_loop rest result (current ++ f) false.
Proof.
  induction f as [|c f IH]; intros rest result current P.
  - rewrite append_nil_r. cbn [append parseCSVLine_loop].
    now rewrite Ascii.eqb_refl.
  - unfold quote_free in P. simpl in P. apply andb_true_iff in P as [Q Pf].
    unfold is_dquote in Q. apply negb_true_iff in Q.
    cbn [append parseCSVLine_loop]. rewrite Q. cbn [negb andb].
    rewrite andb_false_r.
    rewrite (IH rest result (snoc current c) Pf).
    now rewrite snoc_append.
Qed.

Lemma loop_join fields : forall result current,
  fields <> [] -> Forall plain_field fields ->
  parseCSVLine_loop (join comma fields) result current false
  = (result ++ match fields with
               | f :: rest => (current ++ f)%string :: rest
               | [] => []
               end)%list.
Proof.
  induction fields as [|f fields IH]; intros result current NE F; [contradiction|].
  inversion F as [|? ? Pf F']; subst.
  destruct fields as [|g fields].
  - cbn [join]. rewrite <- (append_nil_r f) at 1.
    rewrite loop_plain by exact Pf. reflexivity.
  - change (join comma (f :: g :: fields))
      with (f ++ String "," (join comma (g :: fields))).
    rewrite loop_plain by exact Pf.
    cbn [parseCSVLine_loop]. change (Ascii.eqb "," dquote) with false.
    change (Ascii.eqb "," ",") with true. cbn [andb negb].
    rewrite IH by (discriminate || exact F').
    rewrite <- app_assoc. reflexivity.
Qed.

(** X3.  Fields that hold neither a comma nor a double quote, written on
    one line with commas between them, are read back as the same fields. *)
Theorem parseCSVLine_join fields :
  fields <> [] -> Forall plain_field fields ->
  parseCSVLine (join comma fields) = fields.
Proof.
  intros NE F. unfold parseCSVLine. rewrite loop_join by assumption.
  destruct fields; [contradiction | reflexivity].
Qed.

(** X5.  A field written between double quotes is read as one field, the
    commas inside it included and the quotes removed. *)
Theorem parseCSVLine_quoted f :
  quote_free f ->
  parseCSVLine (String dquote (f ++ String dquote EmptyString)) = [f].
Proof.
  intro Q. unfold parseCSVLine. cbn [parseCSVLine_loop].
  rewrite Ascii.eqb_refl. cbn [negb].
  rewrite loop_quoted by exact Q. reflexivity.
Qed.


Lemma quote_free_snoc current c :
  quote_free current -> Ascii.eqb c dquote = false ->
  quote_free (snoc current c).
Proof.
  unfold quote_free, snoc. intros Q C. rewrite str_all_app, Q.
  cbn [str_all andb]. unfold is_dquote. now rewrite C.
Qed.

Lemma loop_quote_free line : forall result current inQuotes,
  Forall quote_free result -> quote_free current ->
  Forall quote_free (parseCSVLine_loop line result current inQuotes).
Proof.
  induction line as [|c line IH]; intros result current q R C.
  - cbn [parseCSVLine_loop]. apply Forall_app. split; [exact R|].
    constructor; [exact C | constructor].
  - cbn [parseCSVLine_loop]. destruct (Ascii.eqb c dquote) eqn:Q.
    + now apply IH.
    + destruct (Ascii.eqb c "," && negb q).
      * apply IH; [|reflexivity]. apply Forall_app. split; [exact R|].
        constructor; [exact C | constructor].
      * apply IH; [exact R|]. now apply quote_free_snoc.
Qed.

Lemma loop_nonempty line : forall result current inQuotes,
  parseCSVLine_loop line result current inQuotes <> [].
Proof.
  induction line as [|c line IH]; intros result current q.
  - cbn [parseCSVLine_loop]. now destruct result.
  - cbn [parseCSVLine_loop]. destruct (Ascii.eqb c dquote); [apply IH|].
    destruct (Ascii.eqb c "," && negb q); apply IH.
Qed.

(** X6.  Every line gives at least one field, and no field returned holds a
    double quote: the quotes of the line, doubled ones included, are all
    dropped. *)
Theorem parseCSVLine_no_quotes line :
  parseCSVLine line <> [] /\ Forall quote_free (parseCSVLine line).
Proof.
  split; [apply loop_nonempty|].
  apply loop_quote_free; [constructor | reflexivity].
Qed.

Lemma join_last_app sep (l : list string) a b :
  join sep (l ++ [a ++ b]) = join sep (l ++ [a]) ++ b.
Proof.
  induction l as [|x l IH]; [reflexivity|].
  destruct l as [|y l].
  - cbn [app join]. now rewrite !append_assoc.
  - change (join sep ((x :: y :: l) ++ [a ++ b]))
      with (x ++ sep ++ join sep ((y :: l) ++ [a ++ b])).
    rewrite IH.
    change (join sep ((x :: y :: l) ++ [a]))
      with (x ++ sep ++ join sep ((y :: l) ++ [a])).
    now rewrite !append_assoc.
Qed.

Lemma join_snoc sep (l : list string) a b :
  join sep ((l ++ [a]) ++ [b]) = join sep (l ++ [a]) ++ sep ++ b.
Proof.
  induction l as [|x l IH]; [reflexivity|].
  destruct l as [|y l].
  - cbn [app join]. now rewrite !append_assoc.
  - change (join sep (((x :: y :: l) ++ [a]) ++ [b]))
      with (x ++ sep ++ join sep (((y :: l) ++ [a]) ++ [b])).
    rewrite IH.
    change (join sep ((x :: y :: l) ++ [a]))
      with (x ++ sep ++ join sep ((y :: l) ++ [a])).
    now rewrite !append_assoc.
Qed.

Lemma loop_unquoted line : forall result current,
  quote_free line ->
  join comma (parseCSVLine_loop line result current false)
  = join comma (result ++ [current]) ++ line.
Proof.
  induction line as [|c line IH]; intros result current Q.
  - cbn [parseCSVLine_loop]. now rewrite append_nil_r.
  - unfold quote_free in Q. simpl in Q. apply andb_true_iff in Q as [Qc Ql].
    unfold is_dquote in Qc. apply negb_true_iff in Qc.
    cbn [parseCSVLine_loop]. rewrite Qc. cbn [negb]. rewrite andb_true_r.
    destruct (Ascii.eqb c ",") eqn:C.
    + apply Ascii.eqb_eq in C. subst c. rewrite IH by exact Ql.
      rewrite join_snoc. unfold comma. now rewrite !append_assoc.
    + rewrite IH by exact Ql. unfold snoc. rewrite join_last_app.
      now rewrite append_assoc.
Qed.

(** X4.  The fields of a line without double quotes, joined again with
    commas, give the line back: nothing is lost, empty fields included. *)
Theorem parseCSVLine_unquoted line :
  quote_free line -> join comma (parseCSVLine line) = line.
Proof.
  intro Q. unfold parseCSVLine. now rewrite loop_unquoted by exact Q.
Qed.

End CsvLineFacts.

(** ** Splitting the file into lines *)

Section LineFacts.
Local Open Scope string_scope.

Lemma line_text_cons c l :
  line_text (String c l) ->
  Ascii.eqb c CR = false /\ Ascii.eqb c LF = false /\ line_text l.
Proof.
  unfold line_text. cbn [str_all]. intro H.
  apply andb_true_iff in H as [H L]. apply andb_true_iff in H as [A B].
  apply negb_true_iff in A, B. auto.
Qed.

Lemma split_text l : forall rest current,
  line_text l ->
  split_lines (l ++ rest) current = split_lines rest (current ++ l).
Proof.
  induction l as [|c l IH]; intros rest current T.
  - now rewrite append_nil_r.
  - apply line_text_cons in T as (A & B & T).
    cbn [append split_lines]. rewrite A, B.
    rewrite IH by exact T. now rewrite snoc_append.
Qed.

Lemma split_join_lf lines : forall current,
  Forall line_text lines -> lines <> [] ->
  split_lines (join newline lines) current
  = match lines with
    | l :: rest => (current ++ l) :: rest
    | [] => []
    end.
Proof.
  induction lines as [|l lines IH]; intros current F NE; [contradiction|].
  inversion F as [|? ? T F']; subst.
  destruct lines as [|m lines].
  - cbn [join]. rewrite <- (append_nil_r l) at 1.
    rewrite split_text by exact T. reflexivity.
  - change (join newline (l :: m :: lines))
      with (l ++ String LF (join newline (m :: lines))).
    rewrite split_text by exact T. cbn [split_lines].
    change (Ascii.eqb LF LF) with true. cbv iota.
    rewrite IH by (exact F' || discriminate). reflexivity.
Qed.

Lemma split_join_crlf lines : forall current,
  Forall line_text lines -> lines <> [] ->
  split_lines (join crlf lines) current
  = match lines with
    | l :: rest => (current ++ l) :: rest
    | [] => []
    end.
Proof.
  induction lines as [|l lines IH]; intros current F NE; [contradiction|].
  inversion F as [|? ? T F']; subst.
  destruct lines as [|m lines].
  - cbn [join]. rewrite <- (append_nil_r l) at 1.
    rewrite split_text by exact T. reflexivity.
  - change (join crlf (l :: m :: lines))
      with (l ++ String CR (String LF (join crlf (m :: lines)))).
    rewrite split_text by exact T. cbn [split_lines].
    change (Ascii.eqb CR LF) with false. change (Ascii.eqb CR CR) with true.
    change (Ascii.eqb LF LF) with true. cbv iota.
    rewrite IH by (exact F' || discriminate). reflexivity.
Qed.

(** X1.  Lines of text joined by line feeds, or by carriage return and line
    feed, are split back into the same lines. *)
Theorem split_lines_join lines :
  lines <> [] -> Forall line_text lines ->
  split_lines (join newline lines) EmptyString = lines
  /\ split_lines (join crlf lines) EmptyString = lines.
Proof.
  intros NE F. rewrite split_join_lf, split_join_crlf by assumption.
  destruct lines; [contradiction | split; reflexivity].
Qed.

End LineFacts.

(** ** Finding the header line *)

Section HeaderSearch.

Lemma header_scan_first bound : forall lines i k,
  header_scan lines i bound = Some k ->
  (i <= k < i + bound)%nat
  /\ (exists line, nth_error lines (k - i) = Some line
                   /\ is_header_line line = true)
  /\ (forall j line, (j < k - i)%nat -> nth_error lines j = Some line ->
                     is_header_line line = false).
Proof.
  induction bound as [|b IH]; intros lines i k H; [now destruct lines|].
  destruct lines as [|line rest]; [discriminate|].
  cbn [header_scan] in H. destruct (is_header_line line) eqn:E.
  - injection H as <-. split; [lia|]. replace (i - i)%nat with 0%nat by lia.
    split; [exists line; auto|]. intros j l Hj. lia.
  - apply IH in H as (R & (l & N & Hl) & F).
    split; [lia|]. replace (k - i)%nat with (S (k - S i)) by lia.
    split; [exists l; auto|].
    intros [|j] l' Hj N'.
    + injection N' as <-. exact E.
    + apply (F j l'); [lia | exact N'].
Qed.

Lemma header_scan_some bound : forall lines i j line,
  (j < bound)%nat -> nth_error lines j = Some line ->
  is_header_line line = true ->
  exists k, header_scan lines i bound = Some k.
Proof.
  induction bound as [|b IH]; intros lines i j line Hj N E; [lia|].
  destruct lines as [|l rest]; [now destruct j|].
  cbn [header_scan]. destruct (is_header_line l) eqn:El; [eauto|].
  destruct j as [|j]; [injection N as ->; congruence|].
  apply (IH rest (S i) j line); [lia | exact N | exact E].
Qed.

(** X2.  When one of the first ten lines names both "device" and
    "timestamp", the header index is that of the first such line. *)
Theorem findHeaderIndex_first lines j line :
  (j < 10)%nat -> nth_error lines j = Some line ->
  is_header_line line = true ->
  (findHeaderIndex lines <= j)%nat
  /\ (exists header, nth_error lines (findHeaderIndex lines) = Some header
                     /\ is_header_line header = true)
  /\ (forall i l, (i < findHeaderIndex lines)%nat ->
                  nth_error lines i = Some l -> is_header_line l = false).
Proof.
  intros Hj N E. unfold findHeaderIndex.
  assert (Hb : (j < Nat.min 10 (List.length lines))%nat).
  { apply Nat.min_glb_lt; [exact Hj|]. apply nth_error_Some. congruence. }
  destruct (header_scan_some _ lines 0%nat j line Hb N E) as [k Hk].
  rewrite Hk. apply header_scan_first in Hk as (R & (h & Nh & Eh) & F).
  rewrite Nat.sub_0_r in *.
  split.
  - destruct (Nat.le_gt_cases k j) as [L|G]; [exact L|].
    specialize (F j line G N). congruence.
  - split; [exists h; auto | exact F].
Qed.

End HeaderSearch.

(** ** Rows and their columns *)

Section RowFacts.
Local Open Scope string_scope.

Lemma row_get_update_same key v row :
  row_get key (row_update key v row) = Some v.
Proof.
  induction row as [|[k w] row IH]; cbn [row_update row_get].
  - now rewrite String.eqb_refl.
  - destruct (String.eqb k key) eqn:E; cbn [row_get]; rewrite E; auto.
Qed.

Lemma row_get_update_other key key' v row :
  key <> key' -> row_get key' (row_update key v row) = row_get key' row.
Proof.
  intro N. induction row as [|[k w] row IH]; cbn [row_update row_get].
  - apply String.eqb_neq in N. now rewrite N.
  - destruct (String.eqb k key) eqn:E; cbn [row_get].
    + apply String.eqb_eq in E. subst k.
      apply String.eqb_neq in N. now rewrite N.
    + now rewrite IH.
Qed.

Lemma row_get_set_other key key' v row :
  key <> key' -> row_get key' (row_set key v row) = row_get key' row.
Proof.
  intro N. unfold row_set. destruct (String.eqb key "__proto__"); [reflexivity|].
  now apply row_get_update_other.
Qed.

Lemma fold_set_other key l : forall row,
  (forall hv, In hv l -> trim (fst hv) <> key) ->
  row_get key (fold_left set_column l row) = row_get key row.
Proof.
  induction l as [|hv l IH]; intros row H; [reflexivity|].
  cbn [fold_left]. rewrite IH by (intros; apply H; now right).
  unfold set_column. apply row_get_set_other. apply H. now left.
Qed.

Lemma fold_set_lookup l : forall row i h v,
  nth_error l i = Some (h, v) ->
  trim h <> "__proto__" ->
  (forall j hv, (i < j)%nat -> nth_error l j = Some hv ->
                trim (fst hv) <> trim h) ->
  row_get (trim h) (fold_left set_column l row) = Some (trim v).
Proof.
  induction l as [|hv l IH]; intros row i h v N P L; [now destruct i|].
  destruct i as [|i]; cbn [fold_left].
  - injection N as ->. rewrite fold_set_other.
    + unfold set_column, row_set. cbn [fst snd].
      apply String.eqb_neq in P. rewrite P. apply row_get_update_same.
    + intros hv' I. apply In_nth_error in I as [j Hj].
      apply (L (S j)); [lia | exact Hj].
  - apply (IH _ i); [exact N | exact P |].
    intros j hv' Hj Nj. apply (L (S j)); [lia | exact Nj].
Qed.

Lemma nth_error_combine {A B} (l : list A) (l' : list B) : forall i a b,
  nth_error l i = Some a -> nth_error l' i = Some b ->
  nth_error (combine l l') i = Some (a, b).
Proof.
  revert l'. induction l as [|x l IH]; intros l' i a b Ha Hb; [now destruct i|].
  destruct l' as [|y l']; [now destruct i|].
  destruct i as [|i]; cbn in *; [congruence | now apply IH].
Qed.

Lemma nth_error_combine_fst {A B} (l : list A) (l' : list B) : forall i p,
  nth_error (combine l l') i = Some p -> nth_error l i = Some (fst p).
Proof.
  revert l'. induction l as [|x l IH]; intros l' i p H; [now destruct i|].
  destruct l' as [|y l']; [now destruct i|].
  destruct i as [|i]; cbn in *; [now injection H as <- | now apply (IH l')].
Qed.

(** X7.  In the row built from a header line and a line of values, a column
    is found under its trimmed header and holds its trimmed value, provided
    no later column bears the same name (of columns with one name the last
    wins). *)
Theorem build_row_lookup headers values i h v :
  nth_error headers i = Some h -> nth_error values i = Some v ->
  trim h <> "__proto__" ->
  (forall j h', (i < j)%nat -> nth_error headers j = Some h' ->
                trim h' <> trim h) ->
  row_get (trim h) (build_row headers values) = Some (trim v).
Proof.
  intros Nh Nv P L. unfold build_row.
  change (fun row hv => row_set (trim (fst hv)) (trim (snd hv)) row)
    with set_column.
  apply (fold_set_lookup _ _ i); [now apply nth_error_combine | exact P |].
  intros j hv Hj Nj. apply nth_error_combine_fst in Nj. now apply (L j).
Qed.

(** *** The keys of a row *)

Lemma In_insert_index e l x :
  In x (insert_index e l) <-> x = e \/ In x l.
Proof.
  induction l as [|e' l IH]; cbn [insert_index].
  - cbn. intuition.
  - destruct (fst e <=? fst e')%Z; cbn [In]; [intuition|].
    rewrite IH. intuition.
Qed.

Lemma In_Object_keys row k :
  In k (Object_keys row) <-> In k (map fst row).
Proof.
  unfold Object_keys. rewrite in_app_iff, filter_In.
  assert (I : In k (map snd
      (fold_right
         (fun kv acc =>
            match array_index (fst kv) with
            | Some i => insert_index (i, fst kv) acc
            | None => acc
            end) [] row))
     <-> In k (map fst row) /\ array_index k <> None).
  { induction row as [|[k' v] row IH]; cbn [fold_right map fst].
    - cbn. intuition.
    - destruct (array_index k') as [i|] eqn:E.
      + rewrite in_map_iff. split.
        * intros ([i' x] & <- & Hx). cbn [snd].
          apply In_insert_index in Hx as [Hx|Hx].
          -- injection Hx as -> ->. split; [now left | congruence].
          -- assert (H : In x (map fst row) /\ array_index x <> None).
             { apply IH. apply in_map_iff. now exists (i', x). }
             split; [right|]; apply H.
        * intros [[<-|Hk] Hn].
          -- exists (i, k'). split; [reflexivity|].
             apply In_insert_index. now left.
          -- assert (H : In k (map snd (fold_right
               (fun kv acc =>
                  match array_index (fst kv) with
                  | Some i => insert_index (i, fst kv) acc
                  | None => acc
                  end) [] row))) by (apply IH; auto).
             apply in_map_iff in H as (x & Hx & Ix).
             exists x. split; [exact Hx|]. apply In_insert_index. now right.
      + rewrite IH. cbn [In]. split.
        * intros [H1 H2]. auto.
        * intros [[<-|H1] H2]; [congruence | auto]. }
  rewrite I. destruct (array_index k); split.
  - intros [[H _]|[_ H]]; [exact H | discriminate].
  - intro H. left. split; [exact H | discriminate].
  - intros [[_ H]|[H _]]; [congruence | exact H].
  - intro H. right. split; [exact H | reflexivity].
Qed.

Lemma row_has_In key row :
  row_has key row = true <-> In key (map fst row).
Proof.
  unfold row_has. induction row as [|[k v] row IH]; cbn [row_get map fst In].
  - split; [discriminate | contradiction].
  - destruct (String.eqb k key) eqn:E.
    + apply String.eqb_eq in E. split; auto.
    + apply String.eqb_neq in E. rewrite IH. split; [auto|].
      intros [H|H]; [contradiction | exact H].
Qed.

(** X9.  The glucose column found is a column of the row with a non-empty
    value; none is found only when every column whose name contains
    "historic glucose" or "scan glucose", in any letter case, is empty. *)
Theorem findGlucoseColumn_spec row :
  match findGlucoseColumn row with
  | Some col => row_has col row = true /\ row_str col row <> EmptyString
  | None => forall key, row_has key row = true ->
                        names_glucose key = true ->
                        row_str key row = EmptyString
  end.
Proof.
  unfold findGlucoseColumn.
  destruct (find _ glucoseColumns) as [col|] eqn:F1.
  - apply find_some in F1 as [_ H]. apply andb_true_iff in H as [H1 H2].
    split; [exact H1|]. intro E. now rewrite E in H2.
  - clear F1. destruct (find _ (Object_keys row)) as [key|] eqn:F2.
    + apply find_some in F2 as [I H]. split.
      * apply row_has_In. now apply In_Object_keys.
      * intro E. rewrite E in H. cbn [truthy] in H.
        now rewrite !andb_false_r in H.
    + intros key Hk Hn.
      pose proof (find_none _ _ F2 key) as H. cbv beta in H.
      assert (I : In key (Object_keys row))
        by (apply In_Object_keys; now apply row_has_In).
      specialize (H I). unfold names_glucose in Hn.
      destruct (row_str key row) eqn:E; [reflexivity|].
      cbn [truthy] in H. rewrite !andb_true_r in H. congruence.
Qed.

(** X10.  The timestamp column found is a column of the row; none is found
    only when no column name contains "timestamp", in any letter case
    (nor is "Time" or "Date/Time"). *)
Theorem findTimestampColumn_spec row :
  match findTimestampColumn row with
  | Some col => row_has col row = true
  | None => forall key, row_has key row = true ->
                        includes (toLowerCase key) "timestamp" = false
                        /\ key <> "Time" /\ key <> "Date/Time"
  end.
Proof.
  unfold findTimestampColumn.
  destruct (find _ timestampColumns) as [col|] eqn:F1.
  - now apply find_some in F1 as [_ H].
  - destruct (find _ (Object_keys row)) as [key|] eqn:F2.
    + apply find_some in F2 as [I H].
      apply row_has_In. now apply In_Object_keys.
    + intros key Hk. split.
      * apply (find_none _ _ F2 key).
        apply In_Object_keys. now apply row_has_In.
      * split; intros ->.
        -- pose proof (find_none _ _ F1 "Time") as H. cbv beta in H.
           rewrite Hk in H. discriminate H. cbn. auto.
        -- pose proof (find_none _ _ F1 "Date/Time") as H. cbv beta in H.
           rewrite Hk in H. discriminate H. cbn. auto.
Qed.

End RowFacts.

(** ** The readings of an export *)

Section ReadingFacts.
Variable Date_parse : string -> option Z.

Lemma isNaN_mul_finite x q :
  Qeq_bool q 0 = false -> isNaN x = false -> isNaN (x * Fin q)%num = false.
Proof.
  intros Hq Hx. destruct x as [| | |p]; try discriminate; cbn [nmul].
  - unfold inf_times, Qzero_b. rewrite Hq. now destruct (Qpos_b q).
  - unfold inf_times, Qzero_b. rewrite Hq. now destruct (Qpos_b q).
  - reflexivity.
Qed.

Lemma reading_of_row_well_formed tc u row r :
  reading_of_row Date_parse tc u row = Some r -> well_formed_reading r.
Proof.
  intro H. pose proof (reading_of_row_valid _ _ _ _ _ H) as V.
  unfold reading_of_row in H.
  destruct (findGlucoseColumn row) as [g|]; [|discriminate].
  destruct tc as [c|]; [|discriminate].
  destruct (_ || _ || _)%bool; [discriminate|].
  destruct (isNaN (parseFloat _)) eqn:N; [discriminate|].
  destruct (parseTimestamp Date_parse _) as [ts|]; [|discriminate].
  injection H as <-. split; [|split].
  - cbn [value]. destruct u; [exact N|].
    apply isNaN_mul_finite; [reflexivity | exact N].
  - exact V.
  - cbn [recordType]. destruct (includes _ _); auto.
Qed.

Lemma collect_readings_well_formed rows u :
  Forall well_formed_reading (collect_readings Date_parse rows u).
Proof.
  unfold collect_readings. destruct rows as [|row0 rows']; [constructor|].
  apply Forall_flat_map. apply Forall_forall. intros row _.
  destruct (reading_of_row _ _ _ row) as [r|] eqn:E; [|constructor].
  constructor; [|constructor]. eapply reading_of_row_well_formed; eauto.
Qed.

Lemma sorted_readings_well_formed rows unit :
  Forall well_formed_reading (parseGlucoseReadings Date_parse rows unit).
Proof.
  unfold parseGlucoseReadings.
  eapply Permutation_Forall; [apply Array_sort_perm|].
  apply collect_readings_well_formed.
Qed.

(** X11.  Every reading the parser returns has a value that is not NaN, a
    valid timestamp and record type 0 or 1, and there are at most as many
    readings as rows. *)
Theorem parseGlucoseReadings_well_formed rows unit :
  Forall well_formed_reading (parseGlucoseReadings Date_parse rows unit)
  /\ (List.length (parseGlucoseReadings Date_parse rows unit)
      <= List.length rows)%nat.
Proof.
  split; [apply sorted_readings_well_formed|]. unfold parseGlucoseReadings.
  rewrite <- (Permutation_length (Array_sort_perm byTimestamp _)).
  unfold collect_readings. destruct rows as [|row0 rows']; [apply Nat.le_refl|].
  generalize (row0 :: rows') as rows. generalize (findTimestampColumn row0) as tc.
  intros tc rows. induction rows as [|row rows IH]; [apply Nat.le_refl|].
  cbn [flat_map]. rewrite List.length_app. cbn [List.length].
  destruct (reading_of_row _ _ _ row); cbn [List.length]; lia.
Qed.

Lemma reading_of_row_mmol tc row :
  reading_of_row Date_parse tc mmol_L row
  = option_map in_mg_dL (reading_of_row Date_parse tc mg_dL row).
Proof.
  unfold reading_of_row.
  destruct (findGlucoseColumn row) as [g|]; [|reflexivity].
  destruct tc as [c|]; [|reflexivity].
  destruct (_ || _ || _)%bool; [reflexivity|].
  destruct (isNaN (parseFloat _)); [reflexivity|].
  destruct (parseTimestamp Date_parse _) as [ts|]; reflexivity.
Qed.

Lemma sort_insert_map {A} (cmp : A -> A -> number) (f : A -> A) x l :
  (forall a b, cmp (f a) (f b) = cmp a b) ->
  sort_insert cmp (f x) (map f l) = map f (sort_insert cmp x l).
Proof.
  intro H. induction l as [|y l IH]; [reflexivity|].
  cbn [map sort_insert]. rewrite H.
  destruct (cmp x y >? zero)%num; cbn [map]; [now rewrite IH | reflexivity].
Qed.

Lemma Array_sort_map {A} (cmp : A -> A -> number) (f : A -> A) l :
  (forall a b, cmp (f a) (f b) = cmp a b) ->
  Array_sort cmp (map f l) = map f (Array_sort cmp l).
Proof.
  intro H. induction l as [|x l IH]; [reflexivity|].
  cbn [map Array_sort fold_right]. fold (Array_sort cmp (map f l)).
  fold (Array_sort cmp l). rewrite IH. now apply sort_insert_map.
Qed.

(** X12.  Read as mmol/L, the rows give the readings they give read as mg/dL,
    in the same order, each value multiplied by 18.0182. *)
Theorem parseGlucoseReadings_mmol rows :
  parseGlucoseReadings Date_parse rows mmol_L
  = map in_mg_dL (parseGlucoseReadings Date_parse rows mg_dL).
Proof.
  unfold parseGlucoseReadings. rewrite <- Array_sort_map by reflexivity.
  f_equal. unfold collect_readings. destruct rows as [|row0 rows']; [reflexivity|].
  generalize (row0 :: rows') as rows. generalize (findTimestampColumn row0) as tc.
  intros tc rows. induction rows as [|row rows IH]; [reflexivity|].
  cbn [flat_map]. rewrite map_app, IH. f_equal.
  rewrite reading_of_row_mmol. now destruct (reading_of_row _ _ _ row).
Qed.

End ReadingFacts.

(** ** Year-first and short-year timestamps *)

Section TimestampBranches.
Variable Date_parse : string -> option Z.
Local Open Scope string_scope.

(** The match of a timestamp whose date fields have up to four, two and
    four digits. *)
Lemma timestamp_string_match_any A B C hh mm tail sep1 sep2 :
  digit_run 4 A -> digit_run 2 B -> digit_run 4 C ->
  is_date_sep sep1 = true -> is_date_sep sep2 = true ->
  digit_run 2 hh -> str_all is_digit mm = true -> String.length mm = 2 ->
  seconds_tail tail ->
  exists parts,
    regex_match timestampRe (timestamp_string A B C hh mm tail sep1 sep2)
    = Some parts
    /\ group parts 1 = A /\ group parts 2 = B /\ group parts 3 = C
    /\ group parts 4 = hh /\ group parts 5 = mm.
Proof.
  intros [DA [LA UA]] [DB [LB UB]] [DC [LC UC]] S1 S2 Rh Dm Lm T.
  destruct (digit_run_cons _ _ Rh) as (h1 & hh' & -> & Dh1).
  destruct Rh as [Dh [Lh Uh]].
  unfold timestamp_string, timestampRe, digits.
  assert (Sp : is_space h1 = false) by now apply digit_not_space.
  destruct T as [-> | (x & y & X & Y & ->)].
  - eexists. split.
    + apply regex_match_first.
      apply step_cat, step_group_run; [exact DA | left; now apply sep_not_digit | lia |].
      apply step_cat, step_chr; [exact S1|].
      apply step_cat, step_group_run; [exact DB | left; now apply sep_not_digit | lia |].
      apply step_cat, step_chr; [exact S2|].
      apply step_cat, step_group_run; [exact DC | left; reflexivity | lia |].
      apply step_cat.
      apply (step_run is_space 1 (String " " EmptyString));
        [reflexivity | exact Sp | simpl; lia |].
      apply step_cat, step_group_run; [exact Dh | left; reflexivity | lia |].
      apply step_cat, step_chr; [reflexivity|].
      apply step_cat, step_group_run; [exact Dm | right; now rewrite Lm | lia |].
      apply step_seconds_none. reflexivity.
    + repeat split; reflexivity.
  - eexists. split.
    + apply regex_match_first.
      apply step_cat, step_group_run; [exact DA | left; now apply sep_not_digit | lia |].
      apply step_cat, step_chr; [exact S1|].
      apply step_cat, step_group_run; [exact DB | left; now apply sep_not_digit | lia |].
      apply step_cat, step_chr; [exact S2|].
      apply step_cat, step_group_run; [exact DC | left; reflexivity | lia |].
      apply step_cat.
      apply (step_run is_space 1 (String " " EmptyString));
        [reflexivity | exact Sp | simpl; lia |].
      apply step_cat, step_group_run; [exact Dh | left; reflexivity | lia |].
      apply step_cat, step_chr; [reflexivity|].
      apply step_cat, step_group_run; [exact Dm | right; now rewrite Lm | lia |].
      apply step_seconds_some; [exact X | exact Y |]. reflexivity.
    + repeat split; reflexivity.
Qed.


Lemma timestamp_string_truthy A B C hh mm tail sep1 sep2 :
  truthy (timestamp_string A B C hh mm tail sep1 sep2) = true.
Proof. unfold timestamp_string. now destruct A. Qed.

(** X13.  A timestamp whose first field has four digits is read year first:
    YYYY-MM-DD hh:mm, whatever the length of the third field.  When its
    fields name a time on a day of the calendar (and the year is at least
    100), the date returned is that day. *)
Theorem parseTimestamp_year_first A B C hh mm tail sep1 sep2 :
  str_all is_digit A = true -> String.length A = 4 ->
  digit_run 2 B -> digit_run 4 C ->
  is_date_sep sep1 = true -> is_date_sep sep2 = true ->
  digit_run 2 hh -> str_all is_digit mm = true -> String.length mm = 2 ->
  seconds_tail tail ->
  let ts := timestamp_string A B C hh mm tail sep1 sep2 in
  parseTimestamp Date_parse ts
  = Some (newDate (parseInt A) (parseInt B - one)%num (parseInt C)
                  (parseInt hh) (parseInt mm))
  /\ ((100 <= digits_value A)%Z ->
      calendar_time (digits_value A) (digits_value B) (digits_value C)
                    (digits_value hh) (digits_value mm) ->
      calendar_date (parseTimestamp Date_parse ts)
      = Some (digits_value A, digits_value B, digits_value C)).
Proof.
  intros DA LA RB RC S1 S2 Rh Dm Lm T ts.
  assert (RA : digit_run 4 A) by (split; [exact DA | lia]).
  destruct (timestamp_string_match_any A B C hh mm tail sep1 sep2
              RA RB RC S1 S2 Rh Dm Lm T)
    as (parts & M & G1 & G2 & G3 & G4 & G5).
  assert (E : parseTimestamp Date_parse ts
              = Some (newDate (parseInt A) (parseInt B - one)%num (parseInt C)
                        (parseInt hh) (parseInt mm))).
  { unfold parseTimestamp, ts. rewrite timestamp_string_truthy, M. cbn [negb].
    unfold timestamp_fields. rewrite G1, G2, G3, G4, G5, LA. reflexivity. }
  split; [exact E|]. intros Ry (Rm & Rd & Rhh & Rmm). rewrite E.
  unfold digits_value in *.
  destruct (parseInt_run 4 A RA) as [EA BA].
  destruct (parseInt_run 2 B RB) as [EB BB].
  destruct (parseInt_run 4 C RC) as [EC BC].
  destruct (parseInt_run 2 hh Rh) as [Eh Bh].
  destruct (parseInt_run 2 mm) as [Em Bm]; [split; [exact Dm | rewrite Lm; lia]|].
  change (10 ^ Z.of_nat 4)%Z with 10000%Z in BA.
  destruct (newDate_getters (parseInt A) (parseInt B - one)%num (parseInt C)
              (parseInt hh) (parseInt mm)
              (decimal_value 0 A) (decimal_value 0 B) (decimal_value 0 C)
              (decimal_value 0 hh) (decimal_value 0 mm)) as (GY & GM & GD);
    try assumption; try lia;
    try (rewrite ?EA, ?EB, ?EC, ?Eh, ?Em; apply denotes_of_Z).
  - rewrite EB. apply denotes_int_sub, denotes_of_Z.
  - cbn [calendar_date]. rewrite GY, GM, GD. do 3 f_equal. lia.
Qed.

(** X14.  A timestamp neither of whose outer date fields has four digits is
    read as a short year followed by month and day, the year counted from
    2000.  When its fields name a time on a day of the calendar, the date
    returned is that day. *)
Theorem parseTimestamp_short_year A B C hh mm tail sep1 sep2 :
  digit_run 3 A -> digit_run 2 B -> digit_run 3 C ->
  is_date_sep sep1 = true -> is_date_sep sep2 = true ->
  digit_run 2 hh -> str_all is_digit mm = true -> String.length mm = 2 ->
  seconds_tail tail ->
  let ts := timestamp_string A B C hh mm tail sep1 sep2 in
  parseTimestamp Date_parse ts
  = Some (newDate (of_Z 2000 + parseInt A)%num (parseInt B - one)%num
                  (parseInt C) (parseInt hh) (parseInt mm))
  /\ (calendar_time (2000 + digits_value A) (digits_value B) (digits_value C)
                    (digits_value hh) (digits_value mm) ->
      calendar_date (parseTimestamp Date_parse ts)
      = Some (2000 + digits_value A, digits_value B, digits_value C)%Z).
Proof.
  intros RA RB RC S1 S2 Rh Dm Lm T ts.
  assert (RA4 : digit_run 4 A) by (destruct RA as [? [? ?]]; split; [assumption | lia]).
  assert (RC4 : digit_run 4 C) by (destruct RC as [? [? ?]]; split; [assumption | lia]).
  destruct (timestamp_string_match_any A B C hh mm tail sep1 sep2
              RA4 RB RC4 S1 S2 Rh Dm Lm T)
    as (parts & M & G1 & G2 & G3 & G4 & G5).
  assert (E : parseTimestamp Date_parse ts
              = Some (newDate (of_Z 2000 + parseInt A)%num
                        (parseInt B - one)%num (parseInt C)
                        (parseInt hh) (parseInt mm))).
  { unfold parseTimestamp, ts. rewrite timestamp_string_truthy, M. cbn [negb].
    unfold timestamp_fields. rewrite G1, G2, G3, G4, G5.
    replace (String.length A =? 4)%nat with false
      by (symmetry; apply Nat.eqb_neq; destruct RA as [_ [_ U]]; lia).
    replace (String.length C =? 4)%nat with false
      by (symmetry; apply Nat.eqb_neq; destruct RC as [_ [_ U]]; lia).
    reflexivity. }
  split; [exact E|]. intros (Rm & Rd & Rhh & Rmm). rewrite E.
  unfold digits_value in *.
  destruct (parseInt_run 3 A RA) as [EA BA].
  destruct (parseInt_run 2 B RB) as [EB BB].
  destruct (parseInt_run 3 C RC) as [EC BC].
  destruct (parseInt_run 2 hh Rh) as [Eh Bh].
  destruct (parseInt_run 2 mm) as [Em Bm]; [split; [exact Dm | rewrite Lm; lia]|].
  change (10 ^ Z.of_nat 3)%Z with 1000%Z in BA.
  destruct (newDate_getters (of_Z 2000 + parseInt A)%num
              (parseInt B - one)%num (parseInt C)
              (parseInt hh) (parseInt mm)
              (2000 + decimal_value 0 A) (decimal_value 0 B) (decimal_value 0 C)
              (decimal_value 0 hh) (decimal_value 0 mm)) as (GY & GM & GD);
    try assumption; try lia;
    try (rewrite ?EA, ?EB, ?EC, ?Eh, ?Em; apply denotes_of_Z).
  - rewrite EA. apply denotes_int_add_2000, denotes_of_Z.
  - rewrite EB. apply denotes_int_sub, denotes_of_Z.
  - cbn [calendar_date]. rewrite GY, GM, GD. do 3 f_equal. lia.
Qed.

(** X15.  [parseTimestamp] answers null on the empty string and never answers
    an invalid date: a match of the pattern always gives a date in the
    representable range, and the result of the native fallback is
    checked. *)
Theorem parseTimestamp_never_invalid :
  parseTimestamp Date_parse EmptyString = None
  /\ forall s d, parseTimestamp Date_parse s = Some d ->
                 exists t, d = DateTV t /\ isNaN (getTime d) = false.
Proof.
  split; [reflexivity|]. intros s d H.
  apply parseTimestamp_valid in H as [t ->]. exists t. split; reflexivity.
Qed.

End TimestampBranches.

(** ** Day keys *)

Section CivilFacts.
Local Open Scope Z_scope.

Lemma civil_from_days_range z :
  1 <= snd (fst (civil_from_days z)) <= 12
  /\ 1 <= snd (civil_from_days z) <= 31.
Proof.
  unfold civil_from_days. cbv zeta. cbn [fst snd].
  set (z' := z + 719468).
  set (doe := z' - z' / 146097 * 146097).
  assert (Rdoe : 0 <= doe <= 146096)
    by (unfold doe; Z.div_mod_to_equations; lia).
  set (yoe := (doe - doe / 1460 + doe / 36524 - doe / 146096) / 365).
  set (doy := doe - (365 * yoe + yoe / 4 - yoe / 100)).
  assert (Rdoy : 0 <= doy <= 365).
  { unfold doy, yoe. clearbody doe. clear - Rdoe. Z.div_mod_to_equations. lia. }
  clearbody doy. set (mp := (5 * doy + 2) / 153).
  assert (Rmp : 0 <= mp <= 11) by (unfold mp; Z.div_mod_to_equations; lia).
  split.
  - destruct (Z.ltb_spec mp 10); lia.
  - unfold mp. Z.div_mod_to_equations. lia.
Qed.

(** Every day number is the day of its own calendar date. *)
Lemma MakeDay_civil z :
  MakeDay (fst (fst (civil_from_days z)))
          (snd (fst (civil_from_days z)) - 1) (snd (civil_from_days z)) = z.
Proof.
  pose proof (civil_from_days_range z) as [Rm Rd].
  rewrite MakeDay_march by exact Rm.
  revert Rm Rd. unfold civil_from_days. cbv zeta. cbn [fst snd].
  set (z' := z + 719468).
  set (era := z' / 146097).
  set (doe := z' - era * 146097).
  assert (Rdoe : 0 <= doe <= 146096)
    by (unfold doe, era; Z.div_mod_to_equations; lia).
  assert (Ez : z = era * 146097 + doe - 719468) by (unfold doe, z'; lia).
  set (yoe := (doe - doe / 1460 + doe / 36524 - doe / 146096) / 365).
  set (doy := doe - (365 * yoe + yoe / 4 - yoe / 100)).
  assert (Ryoe : 0 <= yoe <= 399 /\ 0 <= doy <= 365).
  { unfold doy, yoe. clearbody doe. clear - Rdoe. Z.div_mod_to_equations. lia. }
  assert (Edoe : doe = 365 * yoe + yoe / 4 - yoe / 100 + doy) by (unfold doy; lia).
  clearbody doy yoe era doe. clear z'.
  set (mp := (5 * doy + 2) / 153).
  assert (Rmp : 0 <= mp <= 11) by (unfold mp; Z.div_mod_to_equations; lia).
  assert (Ed : 0 <= doy - (153 * mp + 2) / 5 <= 30)
    by (unfold mp; Z.div_mod_to_equations; lia).
  set (d := doy - (153 * mp + 2) / 5 + 1) in *.
  assert (Edoy : doy = (153 * mp + 2) / 5 + d - 1) by (unfold d; lia).
  clearbody d mp. intros Rm Rd.
  assert (M : march_days (yoe + era * 400)
              = era * 146097 + 365 * yoe + yoe / 4 - yoe / 100).
  { unfold march_days. Z.div_mod_to_equations. lia. }
  destruct (Z.ltb_spec mp 10) as [L|G].
  - replace (mp + 3 <=? 2) with false by (symmetry; apply Z.leb_gt; lia).
    replace (mp + 3 - 3) with mp by lia. rewrite M. lia.
  - replace (mp - 9 <=? 2) with true by (symmetry; apply Z.leb_le; lia).
    replace (yoe + era * 400 + 1 - 1) with (yoe + era * 400) by lia.
    replace (mp - 9 + 9) with mp by lia. rewrite M. lia.
Qed.

Lemma civil_from_days_inj z1 z2 :
  civil_from_days z1 = civil_from_days z2 -> z1 = z2.
Proof.
  intro E. rewrite <- (MakeDay_civil z1), <- (MakeDay_civil z2). now rewrite E.
Qed.

End CivilFacts.

Section DayKeys.
Local Open Scope string_scope.

Lemma decimal_value_acc s : forall acc,
  decimal_value acc s
  = (acc * 10 ^ Z.of_nat (String.length s) + decimal_value 0 s)%Z.
Proof.
  induction s as [|c s IH]; intro acc.
  - cbn. lia.
  - cbn [decimal_value String.length]. rewrite IH, (IH (10 * 0 + digit_val c)%Z).
    rewrite Nat2Z.inj_succ, Z.pow_succ_r by lia. ring.
Qed.

Lemma digit_char (k : N) :
  (k < 10)%N ->
  digit_val (ascii_of_N (48 + k)) = Z.of_N k
  /\ is_digit (ascii_of_N (48 + k)) = true.
Proof.
  intro H.
  assert (C : (k = 0 \/ k = 1 \/ k = 2 \/ k = 3 \/ k = 4 \/ k = 5 \/ k = 6
               \/ k = 7 \/ k = 8 \/ k = 9)%N) by lia.
  repeat (destruct C as [-> | C]; [split; reflexivity|]).
  subst. split; reflexivity.
Qed.

Lemma digits_of_pos_value fuel : forall n acc,
  (n < 2 ^ N.of_nat fuel)%N ->
  decimal_value 0 (digits_of_pos fuel n acc)
  = (Z.of_N n * 10 ^ Z.of_nat (String.length acc) + decimal_value 0 acc)%Z.
Proof.
  induction fuel as [|f IH]; intros n acc B.
  - cbn in B. assert (n = 0%N) by lia. subst. cbn [digits_of_pos]. lia.
  - cbn [digits_of_pos].
    assert (Hm : (N.modulo n 10 < 10)%N) by (apply N.mod_lt; discriminate).
    destruct (digit_char _ Hm) as [Dv _].
    pose proof (N.div_mod n 10 ltac:(discriminate)) as DM.
    destruct (N.eqb_spec (n / 10) 0) as [Q|Q].
    + cbn [decimal_value]. rewrite decimal_value_acc, Dv.
      rewrite Q in DM. replace (n mod 10)%N with n by lia. lia.
    + rewrite IH.
      * cbn [decimal_value String.length].
        rewrite (decimal_value_acc acc), Dv.
        rewrite Nat2Z.inj_succ, Z.pow_succ_r by lia.
        rewrite DM at 3. rewrite N2Z.inj_add, N2Z.inj_mul.
        change (Z.of_N 10) with 10%Z. ring.
      * rewrite Nnat.Nat2N.inj_succ, N.pow_succ_r' in B.
        apply N.Div0.div_lt_upper_bound. lia.
Qed.

Lemma string_of_N_value n : decimal_value 0 (string_of_N n) = Z.of_N n.
Proof.
  unfold string_of_N. rewrite digits_of_pos_value.
  - cbn [String.length decimal_value]. lia.
  - rewrite Nnat.Nat2N.inj_succ, Nnat.N2Nat.id. destruct n as [|p]; [reflexivity|].
    apply N.log2_spec. reflexivity.
Qed.

Lemma digits_of_pos_head fuel : forall n acc,
  (fuel <> 0)%nat -> head_digit (digits_of_pos fuel n acc) = true.
Proof.
  induction fuel as [|f IH]; intros n acc F; [contradiction|].
  cbn [digits_of_pos].
  assert (Hm : (N.modulo n 10 < 10)%N) by (apply N.mod_lt; discriminate).
  destruct (digit_char _ Hm) as [_ Dg].
  destruct (N.eqb (n / 10) 0); [exact Dg|].
  destruct f as [|f'].
  - cbn [digits_of_pos]. exact Dg.
  - apply IH. discriminate.
Qed.

Lemma string_of_N_head n : head_digit (string_of_N n) = true.
Proof. unfold string_of_N. apply digits_of_pos_head. discriminate. Qed.

Lemma string_of_Z_inj z1 z2 : string_of_Z z1 = string_of_Z z2 -> z1 = z2.
Proof.
  assert (Pos : forall z, (0 <= z)%Z ->
            string_of_Z z = string_of_N (Z.to_N z)).
  { intros [|p|p] H; try reflexivity. lia. }
  assert (Neg : forall p, head_digit (string_of_Z (Zneg p)) = false)
    by reflexivity.
  intro E. destruct (Z.le_gt_cases 0 z1) as [H1|H1], (Z.le_gt_cases 0 z2) as [H2|H2].
  - rewrite (Pos _ H1), (Pos _ H2) in E.
    apply (f_equal (decimal_value 0)) in E. rewrite !string_of_N_value in E. lia.
  - destruct z2 as [|p|p]; try lia. rewrite (Pos _ H1) in E.
    pose proof (string_of_N_head (Z.to_N z1)) as D. rewrite E, Neg in D.
    discriminate.
  - destruct z1 as [|p|p]; try lia. rewrite (Pos _ H2) in E.
    pose proof (string_of_N_head (Z.to_N z2)) as D. rewrite <- E, Neg in D.
    discriminate.
  - destruct z1 as [|p1|p1]; try lia. destruct z2 as [|p2|p2]; try lia.
    cbn [string_of_Z] in E. injection E as E.
    apply (f_equal (decimal_value 0)) in E. rewrite !string_of_N_value in E. lia.
Qed.

(** A number from 1 to 31 is written on two characters. *)
Lemma padStart2_small v :
  (1 <= v <= 31)%Z ->
  String.length (padStart2 (string_of_Z v)) = 2%nat
  /\ decimal_value 0 (padStart2 (string_of_Z v)) = v.
Proof.
  intro R. destruct v as [|p|p]; try lia.
  do 5 (try (destruct p as [p|p|]; try lia)); split; reflexivity.
Qed.

Lemma append_same_length a : forall a' b b',
  a ++ b = a' ++ b' -> String.length b = String.length b' ->
  a = a' /\ b = b'.
Proof.
  induction a as [|c a IH]; intros [|c' a'] b b' E L.
  - auto.
  - cbn [append] in E. subst b. cbn [String.length] in L.
    rewrite length_app in L. lia.
  - cbn [append] in E. subst b'. cbn [String.length] in L.
    rewrite length_app in L. lia.
  - cbn [append] in E. injection E as -> E.
    destruct (IH _ _ _ E L) as [-> ->]. auto.
Qed.

Lemma date_key_inj y1 m1 d1 y2 m2 d2 :
  (1 <= m1 <= 31)%Z -> (1 <= d1 <= 31)%Z ->
  (1 <= m2 <= 31)%Z -> (1 <= d2 <= 31)%Z ->
  date_key y1 m1 d1 = date_key y2 m2 d2 ->
  y1 = y2 /\ m1 = m2 /\ d1 = d2.
Proof.
  intros Rm1 Rd1 Rm2 Rd2 E. unfold date_key in E.
  destruct (padStart2_small m1 Rm1) as [Lm1 Vm1].
  destruct (padStart2_small d1 Rd1) as [Ld1 Vd1].
  destruct (padStart2_small m2 Rm2) as [Lm2 Vm2].
  destruct (padStart2_small d2 Rd2) as [Ld2 Vd2].
  apply append_same_length in E as [Ey E].
  - apply string_of_Z_inj in Ey. cbn [append] in E. injection E as E.
    apply append_same_length in E as [Em E].
    + cbn [append] in E. injection E as E.
      split; [exact Ey|]. split; congruence.
    + cbn [append String.length]. congruence.
  - cbn [append String.length]. rewrite !length_app.
    cbn [String.length]. congruence.
Qed.

(** X16.  The key of a date built from the fields of a day of the calendar is
    the year, the month and the day of the month, the last two on two
    digits. *)
Theorem formatDateKey_calendar (y m d h mi : Z) :
  (100 <= y <= 12000)%Z -> (1 <= m <= 12)%Z ->
  (1 <= d <= daysInMonth y m)%Z -> (0 <= h <= 23)%Z -> (0 <= mi <= 59)%Z ->
  formatDateKey (newDate (of_Z y) (of_Z (m - 1)) (of_Z d) (of_Z h) (of_Z mi))
  = date_key y m d.
Proof.
  intros Ry Rm Rd Rh Rmi.
  destruct (newDate_getters (of_Z y) (of_Z (m - 1)) (of_Z d) (of_Z h) (of_Z mi)
              y m d h mi) as (GY & GM & GD);
    try assumption; try apply denotes_of_Z.
  unfold formatDateKey, date_key. rewrite GY, GM, GD.
  cbn [option_map String_of_int].
  now replace (1 + (m - 1))%Z with m by lia.
Qed.

(** X17.  Two dates have the same key exactly when their local times fall on
    the same day. *)
Theorem formatDateKey_same_day t1 t2 :
  formatDateKey (DateTV t1) = formatDateKey (DateTV t2) <-> Day t1 = Day t2.
Proof.
  assert (K : forall t,
            formatDateKey (DateTV t)
            = date_key (fst (fst (civil_from_days (Day t))))
                       (snd (fst (civil_from_days (Day t))))
                       (snd (civil_from_days (Day t)))).
  { intro t. unfold formatDateKey, date_key.
    cbn [getFullYear getMonth getDate option_map String_of_int].
    unfold YearFromTime, MonthFromTime, DateFromTime.
    now replace (1 + (snd (fst (civil_from_days (Day t))) - 1))%Z
      with (snd (fst (civil_from_days (Day t)))) by lia. }
  split.
  - intro E. rewrite !K in E.
    pose proof (civil_from_days_range (Day t1)) as [Rm1 Rd1].
    pose proof (civil_from_days_range (Day t2)) as [Rm2 Rd2].
    apply date_key_inj in E as (Ey & Em & Ed); try lia.
    apply civil_from_days_inj.
    destruct (civil_from_days (Day t1)) as [[y1 m1] d1].
    destruct (civil_from_days (Day t2)) as [[y2 m2] d2].
    cbn [fst snd] in *. congruence.
  - intro E. rewrite !K. now rewrite E.
Qed.

End DayKeys.

(** ** The days of a grouping *)

Section DayIndexFacts.

Lemma push_reading_keys key r m : map fst (push_reading key r m) = map fst m.
Proof.
  unfold push_reading. rewrite map_map. apply map_ext.
  intro e. now destruct (String.eqb (fst e) key).
Qed.

Lemma map_has_In key m : map_has key m = true <-> In key (map fst m).
Proof.
  unfold map_has. rewrite existsb_exists, in_map_iff. split.
  - intros (e & I & E). apply String.eqb_eq in E. eauto.
  - intros (e & E & I). exists e. split; [exact I | now apply String.eqb_eq].
Qed.

Lemma add_reading_keys m r :
  map fst (add_reading m r)
  = if map_has (formatDateKey (timestamp r)) m then map fst m
    else map fst m ++ [formatDateKey (timestamp r)].
Proof.
  unfold add_reading. rewrite push_reading_keys.
  destruct (map_has _ m); [reflexivity|]. now rewrite map_app.
Qed.

Lemma add_reading_index m rs r :
  day_index m rs -> day_index (add_reading m r) (rs ++ [r]).
Proof.
  intros (N & D & K). set (key := formatDateKey (timestamp r)).
  assert (Src : forall e, In e (add_reading m r) ->
            exists e0, (In e0 m \/ (e0 = (key, emptyDay key)
                                    /\ map_has key m = false))
                       /\ fst e = fst e0 /\ date (snd e) = date (snd e0)
                       /\ wavetable (snd e) = wavetable (snd e0)).
  { intros e He. unfold add_reading, push_reading in He. fold key in He.
    apply in_map_iff in He as (e0 & E & I). exists e0. split.
    - destruct (map_has key m) eqn:H; [now left|].
      apply in_app_or in I as [I | [<- | []]]; [now left | now right].
    - destruct (String.eqb (fst e0) key); subst e; auto. }
  split; [|split].
  - rewrite add_reading_keys. fold key.
    destruct (map_has key m) eqn:H; [exact N|].
    apply NoDup_app; [exact N | repeat constructor; intros [] |].
    intros k Ik [<- | []]. apply map_has_In in Ik. congruence.
  - intros e He. apply Src in He as (e0 & [I | [-> _]] & F & Dt & W).
    + rewrite F, Dt, W. now apply D.
    + rewrite F, Dt, W. split; reflexivity.
  - intros e He. apply Src in He as (e0 & [I | [-> _]] & F & _).
    + destruct (K e0 I) as (r0 & I0 & E0). exists r0.
      split; [apply in_or_app; now left | congruence].
    + exists r. split; [apply in_or_app; right; now left | now rewrite F].
Qed.

Lemma fold_add_reading_index rs : forall m done,
  day_index m done -> day_index (fold_left add_reading rs m) (done ++ rs).
Proof.
  induction rs as [|r rs IH]; intros m done G; cbn [fold_left].
  - now rewrite app_nil_r.
  - replace (done ++ r :: rs) with ((done ++ [r]) ++ rs)
      by (now rewrite <- app_assoc).
    apply IH. now apply add_reading_index.
Qed.

Lemma push_reading_absent key r m :
  map_has key m = false -> push_reading key r m = m.
Proof.
  intro H. unfold push_reading. rewrite <- (map_id m) at 2.
  apply map_ext_in. intros e I. now rewrite (map_has_false key m e H I).
Qed.

Lemma push_reading_perm key r m :
  NoDup (map fst m) -> map_has key m = true ->
  Permutation (all_readings (push_reading key r m)) (r :: all_readings m).
Proof.
  unfold all_readings. induction m as [|e m IH]; intros N H; [discriminate|].
  cbn [map] in N. inversion N as [|? ? Ne N']; subst.
  change (push_reading key r (e :: m))
    with ((if String.eqb (fst e) key then
             (fst e, mkDay (date (snd e)) (readings (snd e) ++ [r])
                           (wavetable (snd e)) (stats (snd e)))
           else e) :: push_reading key r m).
  cbn [flat_map]. destruct (String.eqb (fst e) key) eqn:E.
  - apply String.eqb_eq in E. subst key.
    assert (A : map_has (fst e) m = false).
    { destruct (map_has (fst e) m) eqn:A; [|reflexivity].
      apply map_has_In in A. contradiction. }
    rewrite (push_reading_absent _ _ _ A). cbn [snd readings].
    rewrite <- app_assoc. cbn [app].
    symmetry. apply Permutation_cons_app. reflexivity.
  - unfold map_has in H. cbn [existsb] in H. rewrite E in H. cbn [orb] in H.
    rewrite (IH N' H). symmetry. apply Permutation_middle.
Qed.

Lemma add_reading_perm m rs r :
  day_index m rs -> Permutation (all_readings m) rs ->
  Permutation (all_readings (add_reading m r)) (rs ++ [r]).
Proof.
  intros (N & _) P. unfold add_reading.
  set (key := formatDateKey (timestamp r)).
  apply Permutation_trans with (r :: rs); [|apply Permutation_cons_append].
  destruct (map_has key m) eqn:H.
  - rewrite push_reading_perm by assumption. now apply perm_skip.
  - rewrite push_reading_perm.
    + apply perm_skip. unfold all_readings. rewrite flat_map_app.
      cbn. now rewrite app_nil_r.
    + rewrite map_app. cbn [map fst].
      apply NoDup_app; [exact N | repeat constructor; intros [] |].
      intros k Ik [<- | []]. apply map_has_In in Ik. congruence.
    + rewrite map_has_app. unfold map_has at 2. cbn [existsb fst].
      rewrite String.eqb_refl. now rewrite orb_true_r.
Qed.

Lemma fold_add_reading_perm rs : forall m done,
  day_index m done -> Permutation (all_readings m) done ->
  Permutation (all_readings (fold_left add_reading rs m)) (done ++ rs).
Proof.
  induction rs as [|r rs IH]; intros m done G P; cbn [fold_left].
  - now rewrite app_nil_r.
  - replace (done ++ r :: rs) with ((done ++ [r]) ++ rs)
      by (now rewrite <- app_assoc).
    apply IH; [now apply add_reading_index | now apply add_reading_perm].
Qed.

Lemma day_index_nil : day_index [] [].
Proof. split; [constructor | split; intros ? []]. Qed.

Lemma calculateDayStats_fields d :
  date (calculateDayStats d) = date d
  /\ wavetable (calculateDayStats d) = wavetable d.
Proof. unfold calculateDayStats. now destruct (_ =? _)%nat. Qed.

Lemma grouping_index rs :
  day_index (fold_left add_reading rs []) rs.
Proof. exact (fold_add_reading_index rs [] [] day_index_nil). Qed.

Lemma grouping_keys rs : NoDup (map fst (groupReadingsByDay rs)).
Proof.
  destruct (grouping_index rs) as (N & _). unfold groupReadingsByDay.
  rewrite map_map. exact N.
Qed.

Lemma grouping_day rs key day :
  In (key, day) (groupReadingsByDay rs) ->
  date day = key /\ wavetable day = None
  /\ readings day = on_day key rs /\ readings day <> [].
Proof.
  intro H. destruct (grouping_index rs) as (_ & D & K).
  pose proof (groupReadingsByDay_readings rs key day H) as R.
  unfold groupReadingsByDay in H.
  apply in_map_iff in H as (e & E & Ie). injection E as <- <-.
  destruct (calculateDayStats_fields (snd e)) as [Fd Fw].
  destruct (D e Ie) as [Dd Dw]. rewrite Fd, Fw.
  split; [exact Dd|]. split; [exact Dw|]. split; [exact R|].
  rewrite R. destruct (K e Ie) as (r & Ir & Er).
  intro Empty.
  assert (Ir' : In r (on_day (fst e) rs)).
  { unfold on_day. apply filter_In. split; [exact Ir|].
    now apply String.eqb_eq. }
  rewrite Empty in Ir'. exact Ir'.
Qed.

Lemma grouping_perm rs : Permutation (all_readings (groupReadingsByDay rs)) rs.
Proof.
  pose proof (fold_add_reading_perm rs [] [] day_index_nil (Permutation_refl _)) as P.
  cbn [app] in P. unfold groupReadingsByDay, all_readings in *.
  rewrite flat_map_concat_map, map_map, <- flat_map_concat_map.
  erewrite flat_map_ext; [exact P|].
  intro e. cbn [snd]. apply calculateDayStats_readings.
Qed.

(** X18.  The days of a grouping partition the readings.  The keys of the
    map are distinct; each day bears its key as date, has no wavetable
    yet, and holds exactly the readings of that date, in their order and at
    least one; all the readings of all the days are the readings given. *)
Theorem groupReadingsByDay_partition rs :
  let m := groupReadingsByDay rs in
  NoDup (map fst m)
  /\ (forall key day, In (key, day) m ->
        date day = key /\ wavetable day = None
        /\ readings day = on_day key rs /\ readings day <> [])
  /\ Permutation (all_readings m) rs.
Proof.
  split; [apply grouping_keys|]. split; [apply grouping_day | apply grouping_perm].
Qed.

End DayIndexFacts.

(** ** The statistics of a day *)

Section DayExtremes.
Local Open Scope Q_scope.

Lemma existsb_isNaN_values (rs : list GlucoseReading) :
  (forall r, In r rs -> isNaN (value r) = false) ->
  existsb isNaN (map value rs) = false.
Proof.
  intro H. induction rs as [|r rs IH]; [reflexivity|].
  cbn [map existsb]. rewrite H by now left. apply IH.
  intros r' I. apply H. now right.
Qed.

(** X19.  On a day with readings none of which is NaN, the minimum and the
    maximum of the statistics are values of readings of the day, and every
    reading lies between them. *)
Theorem calculateDayStats_extremes dayData :
  readings dayData <> [] ->
  (forall r, In r (readings dayData) -> isNaN (value r) = false) ->
  let s := stats (calculateDayStats dayData) in
  (exists r, In r (readings dayData) /\ value r = st_min s)
  /\ (exists r, In r (readings dayData) /\ value r = st_max s)
  /\ (forall r, In r (readings dayData) ->
        (st_min s <=? value r)%num = true
        /\ (value r <=? st_max s)%num = true).
Proof.
  intros NE N. unfold calculateDayStats.
  destruct (readings dayData) as [|r0 rs] eqn:R; [contradiction|].
  rewrite length_map. cbn [List.length Nat.eqb stats st_min st_max].
  assert (NEv : map value (r0 :: rs) <> []) by discriminate.
  pose proof (existsb_isNaN_values _ N) as Nv.
  destruct (Math_min_least _ NEv Nv) as [Imin Lmin].
  destruct (Math_max_greatest _ NEv Nv) as [Imax Lmax].
  split; [|split].
  - apply in_map_iff in Imin as (r & E & I). eauto.
  - apply in_map_iff in Imax as (r & E & I). eauto.
  - intros r I. split; [apply Lmin | apply Lmax]; now apply in_map.
Qed.

Lemma filter_length_all {A} (p : A -> bool) l :
  List.length (filter p l) = List.length l <-> forall x, In x l -> p x = true.
Proof.
  induction l as [|x l IH]; cbn [filter List.length In].
  - split; [intros _ ? [] | reflexivity].
  - pose proof (filter_length_le p l) as B.
    destruct (p x) eqn:E; cbn [List.length].
    + split.
      * intros H y [<-|I]; [exact E|]. apply IH; [lia | exact I].
      * intro H. f_equal. apply IH. intros y I. apply H. now right.
    + split; [lia|]. intro H. specialize (H x (or_introl eq_refl)). congruence.
Qed.

Lemma filter_length_none {A} (p : A -> bool) l :
  List.length (filter p l) = 0%nat <-> forall x, In x l -> p x = false.
Proof.
  induction l as [|x l IH]; cbn [filter List.length In].
  - split; [intros _ ? [] | reflexivity].
  - destruct (p x) eqn:E; cbn [List.length].
    + split; [discriminate|]. intro H. specialize (H x (or_introl eq_refl)).
      congruence.
    + rewrite IH. split.
      * intros H y [<-|I]; [exact E | now apply H].
      * intros H y I. apply H. now right.
Qed.

Lemma fin_inj p q : fin p = fin q -> p == q.
Proof.
  unfold fin. intro H. assert (E : Qred p = Qred q) by congruence.
  now apply Qred_eq_iff.
Qed.

Lemma percentage_denotes (c n : nat) :
  (0 < n)%nat ->
  denotes (of_nat c / of_nat n * hundred)%num
          (inject_Z (Z.of_nat c) / inject_Z (Z.of_nat n) * 100).
Proof.
  intro Hn. apply denotes_mul; [|apply denotes_Fin].
  apply denotes_div; try apply denotes_of_nat.
  intro E. apply (proj1 (inject_Z_injective _ 0)) in E. lia.
Qed.

(** X20.  The time in range of a day with readings is a percentage between 0
    and 100; it is 100 exactly when every reading is in the target range
    and 0 exactly when none is. *)
Theorem timeInRange_bounds dayData :
  readings dayData <> [] ->
  let t := st_timeInRange (stats (calculateDayStats dayData)) in
  (exists q, t = Fin q /\ 0 <= q <= 100)
  /\ (t = Fin 100 <->
      forall r, In r (readings dayData) -> inTargetRange (value r) = true)
  /\ (t = Fin 0 <->
      forall r, In r (readings dayData) -> inTargetRange (value r) = false).
Proof.
  intros NE. unfold calculateDayStats.
  destruct (readings dayData) as [|r0 rs] eqn:R; [contradiction|].
  rewrite length_map. cbn [List.length Nat.eqb stats st_timeInRange].
  set (values := map value (r0 :: rs)).
  set (c := List.length (filter inTargetRange values)).
  set (n := S (List.length rs)).
  assert (Hn : (0 < n)%nat) by (unfold n; lia).
  assert (Ln : List.length values = n) by (unfold values; now rewrite length_map).
  assert (Hc : (c <= n)%nat) by (rewrite <- Ln; apply filter_length_le).
  pose proof (percentage_denotes c n Hn) as (q & E & Eq).
  assert (Np : 0 < inject_Z (Z.of_nat n)).
  { change 0 with (inject_Z 0). rewrite <- Zlt_Qlt. lia. }
  assert (Cn : 0 <= inject_Z (Z.of_nat c)).
  { change 0 with (inject_Z 0). rewrite <- Zle_Qle. lia. }
  assert (Cle : inject_Z (Z.of_nat c) <= inject_Z (Z.of_nat n)).
  { rewrite <- Zle_Qle. lia. }
  assert (Canon : (of_nat c / of_nat n * hundred)%num
                  = fin (inject_Z (Z.of_nat c) / inject_Z (Z.of_nat n) * 100)).
  { cbn [of_nat of_Z ndiv]. destruct (Qzero_b (inject_Z (Z.of_nat n))) eqn:Z.
    - apply Qzero_b_iff in Z. rewrite Z in Np. now apply Qlt_irrefl in Np.
    - cbn [nmul hundred fin]. apply fin_eq. now rewrite Qred_correct. }
  split; [|split].
  - exists q. split; [exact E|]. rewrite Eq. split.
    + apply Qmult_le_0_compat; [|discriminate].
      apply Qle_shift_div_l; [exact Np | now rewrite Qmult_0_l].
    + setoid_replace 100 with (1 * 100) at 2 by ring.
      apply Qmult_le_compat_r; [|discriminate].
      apply Qle_shift_div_r; [exact Np | now rewrite Qmult_1_l].
  - rewrite Canon. split.
    + intro H. change (Fin 100) with (fin 100) in H. apply fin_inj in H.
      assert (Ecn : inject_Z (Z.of_nat c) == inject_Z (Z.of_nat n)).
      { assert (X : inject_Z (Z.of_nat c) / inject_Z (Z.of_nat n) == 1).
        { apply (Qmult_inj_r _ _ 100); [discriminate|]. now rewrite H. }
        apply (Qmult_inj_r _ _ (/ inject_Z (Z.of_nat n))).
        - intro Z. apply (Qinv_lt_0_compat) in Np. rewrite Z in Np.
          now apply Qlt_irrefl in Np.
        - rewrite Qmult_inv_r by (intro Z; rewrite Z in Np; now apply Qlt_irrefl in Np).
          exact X. }
      apply (proj1 (inject_Z_injective _ _)) in Ecn.
      assert (c = List.length values) by lia.
      intros r I. apply (proj1 (filter_length_all inTargetRange values)); [assumption|].
      now apply in_map.
    + intro H.
      assert (c = n).
      { rewrite <- Ln. apply filter_length_all. intros x I.
        apply in_map_iff in I as (r & <- & I). now apply H. }
      subst c. change (Fin 100) with (fin 100). apply fin_eq.
      rewrite H0. field. intro Z. rewrite Z in Np. now apply Qlt_irrefl in Np.
  - rewrite Canon. split.
    + intro H. change (Fin 0) with (fin 0) in H. apply fin_inj in H.
      assert (Ec : inject_Z (Z.of_nat c) == 0).
      { assert (X : inject_Z (Z.of_nat c) / inject_Z (Z.of_nat n) == 0).
        { apply (Qmult_inj_r _ _ 100); [discriminate|]. now rewrite H. }
        unfold Qdiv in X. apply Qmult_integral in X as [X|X]; [exact X|].
        apply Qinv_lt_0_compat in Np. rewrite X in Np. now apply Qlt_irrefl in Np. }
      apply (proj1 (inject_Z_injective _ 0)) in Ec.
      assert (c = 0%nat) by lia.
      intros r I. apply (proj1 (filter_length_none inTargetRange values)); [assumption|].
      now apply in_map.
    + intro H.
      assert (c = 0%nat).
      { apply filter_length_none. intros x I.
        apply in_map_iff in I as (r & <- & I). now apply H. }
      change (Fin 0) with (fin 0). apply fin_eq. rewrite H0.
      change (inject_Z (Z.of_nat 0)) with 0. field.
      intro Z. rewrite Z in Np. now apply Qlt_irrefl in Np.
Qed.

End DayExtremes.

(** ** The range of the wavetable *)

Section Amplitude.
Local Open Scope Q_scope.

Lemma unit_amplitude_denotes x q :
  denotes x q -> -1 <= q <= 1 -> unit_amplitude x.
Proof.
  intros (q' & -> & E) [B1 B2]. exists q'. split; [reflexivity|].
  split; rewrite E; assumption.
Qed.

Lemma unit_amplitude_finite l : Forall unit_amplitude l -> all_finite l.
Proof.
  unfold all_finite. apply Forall_impl. intros x (q & -> & _). reflexivity.
Qed.

Lemma unit_amplitude_zeros n : Forall unit_amplitude (zeros n).
Proof.
  apply Forall_forall. intros x H. apply repeat_spec in H. subst.
  exists 0. split; [reflexivity | split; discriminate].
Qed.

Lemma unit_amplitude_nth l j :
  Forall unit_amplitude l -> -1 <= toQ (nth j l NaN) <= 1.
Proof.
  intro F. destruct (Nat.lt_ge_cases j (List.length l)) as [L|G].
  - rewrite Forall_forall in F.
    destruct (F _ (nth_In l NaN L)) as (q & -> & B). exact B.
  - rewrite nth_overflow by exact G. split; discriminate.
Qed.

Lemma finite_sub_canonical x y q :
  denotes (x - y)%num q -> (x - y)%num = fin q.
Proof.
  intros (q' & E & Eq).
  destruct x, y; simpl in *; try discriminate.
  injection E as <-. apply fin_eq. now rewrite <- (Qred_correct (q0 - q1)).
Qed.

(** One normalised value. *)
Lemma normalize_one v lo hi qv qlo qhi :
  denotes v qv -> denotes lo qlo -> denotes hi qhi ->
  qlo < qhi ->
  denotes (((v - lo) / (hi - lo)) * two - one)%num
          ((qv - qlo) / (qhi - qlo) * 2 - 1).
Proof.
  intros Dv Dlo Dhi L.
  apply denotes_sub; [|apply denotes_Fin].
  apply denotes_mul; [|apply denotes_Fin].
  apply denotes_div; [now apply denotes_sub | now apply denotes_sub |].
  intro E. lra.
Qed.

Lemma scaled_bounds qv qlo qhi :
  qlo < qhi -> qlo <= qv <= qhi ->
  -1 <= (qv - qlo) / (qhi - qlo) * 2 - 1 <= 1.
Proof.
  intros L [A B].
  assert (P : 0 < qhi - qlo) by lra.
  assert (X0 : 0 <= (qv - qlo) / (qhi - qlo)).
  { apply Qle_shift_div_l; [exact P | lra]. }
  assert (X1 : (qv - qlo) / (qhi - qlo) <= 1).
  { apply Qle_shift_div_r; [exact P | lra]. }
  lra.
Qed.

Lemma finite_extremes values :
  all_finite values -> values <> [] ->
  denotes (Math_min values) (toQ (Math_min values))
  /\ denotes (Math_max values) (toQ (Math_max values))
  /\ forall v, In v values ->
       toQ (Math_min values) <= toQ v <= toQ (Math_max values).
Proof.
  intros F NE. pose proof (no_NaN_of_finite _ F) as N.
  destruct (Math_min_least _ NE N) as [Imin Lmin].
  destruct (Math_max_greatest _ NE N) as [Imax Lmax].
  unfold all_finite in F. rewrite Forall_forall in F.
  assert (Dmin := isFinite_denotes _ (F _ Imin)).
  assert (Dmax := isFinite_denotes _ (F _ Imax)).
  split; [exact Dmin|]. split; [exact Dmax|].
  intros v I. assert (Dv := isFinite_denotes _ (F _ I)). split.
  - apply (nle_denotes _ _ _ _ Dmin Dv). now apply Lmin.
  - apply (nle_denotes _ _ _ _ Dv Dmax). now apply Lmax.
Qed.

Lemma range_zero_iff values :
  all_finite values -> values <> [] ->
  ((Math_max values - Math_min values === zero)%num = true
   <-> toQ (Math_max values) == toQ (Math_min values)).
Proof.
  intros F NE. destruct (finite_extremes values F NE) as (Dmin & Dmax & _).
  rewrite (neq_denotes _ _ _ 0 (denotes_sub _ _ _ _ Dmax Dmin) (denotes_Fin 0)).
  split; intro H; lra.
Qed.

Lemma not_flat_spread values :
  all_finite values -> not_flat values ->
  values <> [] /\ toQ (Math_min values) < toQ (Math_max values).
Proof.
  intros F (a & b & Ia & Ib & L).
  assert (NE : values <> []) by (intro E; subst; contradiction).
  split; [exact NE|].
  destruct (finite_extremes values F NE) as (_ & _ & B).
  unfold all_finite in F. rewrite Forall_forall in F.
  assert (Da := isFinite_denotes _ (F _ Ia)).
  assert (Db := isFinite_denotes _ (F _ Ib)).
  apply (nlt_denotes _ _ _ _ Da Db) in L.
  destruct (B a Ia) as [A1 _]. destruct (B b Ib) as [_ B2]. lra.
Qed.

(** What normalisation computes when the values are not all equal. *)
Lemma normalizeGlucoseValues_spread values :
  all_finite values -> values <> [] ->
  toQ (Math_min values) < toQ (Math_max values) ->
  normalizeGlucoseValues values
  = map (fun v => (((v - Math_min values) / (Math_max values - Math_min values))
                   * two - one)%num) values.
Proof.
  intros F NE L. unfold normalizeGlucoseValues.
  destruct values as [|v0 vs]; [contradiction|].
  cbn [List.length Nat.eqb].
  destruct (Math_max (v0 :: vs) - Math_min (v0 :: vs) === zero)%num eqn:R;
    [|reflexivity].
  apply (range_zero_iff _ F NE) in R. lra.
Qed.

Lemma normalizeGlucoseValues_amplitude values :
  all_finite values -> Forall unit_amplitude (normalizeGlucoseValues values).
Proof.
  intro F. destruct values as [|v0 vs] eqn:EV; [constructor|].
  rewrite <- EV in *. assert (NE : values <> []) by (subst; discriminate).
  destruct (finite_extremes values F NE) as (Dmin & Dmax & B).
  destruct (Qlt_le_dec (toQ (Math_min values)) (toQ (Math_max values))) as [L|G].
  - rewrite (normalizeGlucoseValues_spread values F NE L).
    apply Forall_forall. intros x I. apply in_map_iff in I as (v & <- & I).
    assert (Dv : denotes v (toQ v)).
    { apply isFinite_denotes. unfold all_finite in F.
      rewrite Forall_forall in F. now apply F. }
    eapply unit_amplitude_denotes.
    + apply (normalize_one v _ _ _ _ _ Dv Dmin Dmax L).
    + apply scaled_bounds; [exact L | now apply B].
  - assert (E : toQ (Math_max values) == toQ (Math_min values)).
    { destruct values as [|w ws]; [contradiction|].
      destruct (B w (or_introl eq_refl)). lra. }
    apply (range_zero_iff values F NE) in E.
    unfold normalizeGlucoseValues.
    replace (List.length values =? 0)%nat with false by (subst; reflexivity).
    rewrite E. apply unit_amplitude_zeros.
Qed.

(** X23.  When the values are finite and the difference between the largest
    and the smallest does not overflow, the normalised values lie between
    -1 and 1; unless all values are equal, a value equal to the minimum
    becomes -1 and one equal to the maximum becomes 1.  (When [max - min]
    overflows, the source divides by Infinity and yields NaN; the
    embedding, whose arithmetic is exact, says nothing of that case.) *)
Theorem normalizeGlucoseValues_range values :
  all_finite values -> spread_in_range values ->
  List.length (normalizeGlucoseValues values) = List.length values
  /\ Forall unit_amplitude (normalizeGlucoseValues values)
  /\ (not_flat values ->
      forall i v, nth_error values i = Some v ->
        ((v === Math_min values)%num = true ->
         nth_error (normalizeGlucoseValues values) i = Some (Fin (-1)))
        /\ ((v === Math_max values)%num = true ->
            nth_error (normalizeGlucoseValues values) i = Some (Fin 1))).
Proof.
  intros F _. split; [apply normalizeGlucoseValues_length|].
  split; [now apply normalizeGlucoseValues_amplitude|].
  intros NF i v Hv.
  destruct (not_flat_spread values F NF) as [NE L].
  destruct (finite_extremes values F NE) as (Dmin & Dmax & B).
  rewrite (normalizeGlucoseValues_spread values F NE L).
  rewrite nth_error_map, Hv. cbn [option_map].
  assert (I : In v values) by (eapply nth_error_In; eauto).
  assert (Dv : denotes v (toQ v)).
  { apply isFinite_denotes. unfold all_finite in F.
    rewrite Forall_forall in F. now apply F. }
  pose proof (normalize_one v _ _ _ _ _ Dv Dmin Dmax L) as D.
  apply finite_sub_canonical in D. rewrite D.
  assert (P : ~ toQ (Math_max values) - toQ (Math_min values) == 0) by lra.
  split; intro E.
  - apply (neq_denotes _ _ _ _ Dv Dmin) in E.
    f_equal. change (Fin (-1)) with (fin (-1)). apply fin_eq.
    rewrite E. field. exact P.
  - apply (neq_denotes _ _ _ _ Dv Dmax) in E.
    f_equal. change (Fin 1) with (fin 1). apply fin_eq.
    rewrite E. field. exact P.
Qed.

(** Resampling and smoothing keep amplitudes in range. *)
Lemma resample_amplitude values T :
  Forall unit_amplitude values ->
  Forall unit_amplitude (resampleToWavetableSize values T).
Proof.
  intro U. unfold resampleToWavetableSize.
  destruct (Nat.eqb_spec (List.length values) 0); [apply unit_amplitude_zeros|].
  destruct (Nat.eqb_spec (List.length values) T); [exact U|].
  apply Forall_forall. intros x I. apply in_map_iff in I as (i & <- & I).
  apply in_seq in I.
  eapply unit_amplitude_denotes.
  - apply resample_at_denotes; [now apply unit_amplitude_finite | lia | lia].
  - unfold interp.
    set (s := src_pos (List.length values) T i).
    pose proof (Qfloor_le s) as F1. pose proof (Qlt_floor s) as F2.
    rewrite inject_Z_plus in F2.
    set (k := inject_Z (Qfloor s)) in *.
    pose proof (unit_amplitude_nth values (Z.to_nat (Qfloor s)) U) as A.
    pose proof (unit_amplitude_nth values
                  (Z.to_nat (Z.min (Qfloor s + 1)
                               (Z.of_nat (List.length values) - 1))) U) as C.
    set (a := toQ (nth (Z.to_nat (Qfloor s)) values NaN)) in *.
    set (c := toQ (nth (Z.to_nat (Z.min (Qfloor s + 1)
                               (Z.of_nat (List.length values) - 1))) values NaN)) in *.
    change (inject_Z 1) with 1 in F2.
    assert (f0 : 0 <= s - k) by lra. assert (f1 : s - k <= 1) by lra.
    set (f := s - k) in *. clearbody a c f. clear - A C f0 f1.
    split; nra.
Qed.

Lemma smooth_pass_amplitude w :
  Forall unit_amplitude w -> Forall unit_amplitude (smooth_pass w).
Proof.
  intro U. unfold smooth_pass. apply Forall_forall. intros x I.
  apply in_map_iff in I as (i & <- & I). apply in_seq in I.
  unfold smooth_at. set (n := List.length w) in *.
  assert (Hn : n <> 0%nat) by lia.
  assert (E : forall j, (j < n)%nat ->
            denotes (nth j w NaN) (toQ (nth j w NaN))).
  { intros j Hj. apply all_finite_nth; [now apply unit_amplitude_finite | exact Hj]. }
  pose proof (unit_amplitude_nth w ((i + n - 1) mod n) U) as Bp.
  pose proof (unit_amplitude_nth w i U) as Bc.
  pose proof (unit_amplitude_nth w ((i + 1) mod n) U) as Bn.
  eapply unit_amplitude_denotes.
  - apply denotes_add; [apply denotes_add|]; (apply denotes_mul; [|apply denotes_Fin]).
    + apply E. now apply Nat.mod_upper_bound.
    + apply E. lia.
    + apply E. now apply Nat.mod_upper_bound.
  - lra.
Qed.

Lemma smoothWavetable_amplitude passes : forall w,
  Forall unit_amplitude w -> Forall unit_amplitude (smoothWavetable w passes).
Proof.
  induction passes as [|p IH]; intros w U; [exact U|].
  cbn [smoothWavetable]. apply IH. now apply smooth_pass_amplitude.
Qed.

(** X25.  The wavetable of a day whose readings are finite, the difference
    between the largest and the smallest not overflowing, has 2048
    samples, each a finite number between -1 and 1. *)
Theorem generateWavetable_amplitude dayData :
  all_finite (map value (readings dayData)) ->
  spread_in_range (map value (readings dayData)) ->
  List.length (generateWavetable dayData) = WAVETABLE_SIZE
  /\ Forall unit_amplitude (generateWavetable dayData).
Proof.
  intros F _. split.
  - unfold generateWavetable.
    destruct (List.length (readings dayData) =? 0)%nat; [apply zeros_length|].
    now rewrite smoothWavetable_length, resampleToWavetableSize_length.
  - unfold generateWavetable.
    destruct (List.length (readings dayData) =? 0)%nat;
      [apply unit_amplitude_zeros|].
    apply smoothWavetable_amplitude, resample_amplitude.
    now apply normalizeGlucoseValues_amplitude.
Qed.

End Amplitude.

(** ** Smoothing, the physiological range and the display *)

Section WavetableMore.
Local Open Scope Q_scope.

Lemma smooth_pass_constant q w :
  Forall (fun x => denotes x q) w ->
  Forall (fun x => denotes x q) (smooth_pass w).
Proof.
  intro U. unfold smooth_pass. apply Forall_forall. intros x I.
  apply in_map_iff in I as (i & <- & I). apply in_seq in I.
  unfold smooth_at. set (n := List.length w) in *.
  assert (Hn : n <> 0%nat) by lia.
  assert (E : forall j, (j < n)%nat -> denotes (nth j w NaN) q).
  { intros j Hj. rewrite Forall_forall in U. apply U. now apply nth_In. }
  eapply denotes_eq.
  - apply denotes_add; [apply denotes_add|]; (apply denotes_mul; [|apply denotes_Fin]).
    + apply E. now apply Nat.mod_upper_bound.
    + apply E. lia.
    + apply E. now apply Nat.mod_upper_bound.
  - field.
Qed.

(** X26.  Smoothing leaves a constant wavetable constant, at the same value,
    and changes the length of no wavetable. *)
Theorem smoothWavetable_constant passes : forall q w,
  Forall (fun x => denotes x q) w ->
  List.length (smoothWavetable w passes) = List.length w
  /\ Forall (fun x => denotes x q) (smoothWavetable w passes).
Proof.
  induction passes as [|p IH]; intros q w U; [split; [reflexivity | exact U]|].
  cbn [smoothWavetable].
  destruct (IH q (smooth_pass w) (smooth_pass_constant q w U)) as [L F].
  split; [now rewrite L, smooth_pass_length | exact F].
Qed.

Lemma physiological_finite q :
  let x := (((Math_max2 absolute_min (Math_min2 absolute_max (Fin q))
              - absolute_min) / (absolute_max - absolute_min)) * two - one)%num in
  unit_amplitude x
  /\ (q <= 40 -> x = Fin (-1)) /\ (400 <= q -> x = Fin 1).
Proof.
  cbv zeta. unfold absolute_min, absolute_max.
  rewrite Math_min2_step. cbn [isNaN orb].
  unfold min_step. cbn [nlt]. destruct (Qltb q 400) eqn:Hi.
  - apply Qltb_iff in Hi.
    rewrite Math_max2_step. cbn [isNaN orb].
    unfold max_step, ngt. cbn [nlt]. destruct (Qltb 40 q) eqn:Lo.
    + apply Qltb_iff in Lo. split; [|split; intro; lra].
      eapply unit_amplitude_denotes.
      * apply (normalize_one (Fin q) (Fin 40) (Fin 400) q 40 400);
          try apply denotes_Fin. reflexivity.
      * apply scaled_bounds; [reflexivity | split; lra].
    + assert (Lo' : q <= 40).
      { apply Qnot_lt_le. intro L. apply Qltb_iff in L. congruence. }
      split; [|split; intro; [reflexivity | lra]].
      exists (-1). split; [reflexivity | split; discriminate].
  - assert (Hi' : 400 <= q).
    { apply Qnot_lt_le. intro L. apply Qltb_iff in L. congruence. }
    split; [|split; intro; [lra | reflexivity]].
    exists 1. split; [reflexivity | split; discriminate].
Qed.

(** X27.  On the fixed physiological range 40 to 400 every value that is not
    NaN is given an amplitude between -1 and 1: values up to 40, minus
    infinity included, become -1 and values from 400 on, infinity included,
    become 1.  A NaN stays NaN. *)
Theorem normalizeToPhysiologicalRange_range values :
  List.length (normalizeToPhysiologicalRange values) = List.length values
  /\ forall i v, nth_error values i = Some v ->
       exists x, nth_error (normalizeToPhysiologicalRange values) i = Some x
         /\ (isNaN v = true -> x = NaN)
         /\ (isNaN v = false -> unit_amplitude x)
         /\ ((v <=? absolute_min)%num = true -> x = Fin (-1))
         /\ ((absolute_max <=? v)%num = true -> x = Fin 1).
Proof.
  unfold normalizeToPhysiologicalRange. cbv zeta.
  split; [apply length_map|]. intros i v Hv.
  eexists. split; [rewrite nth_error_map, Hv; reflexivity|].
  destruct v as [| | |q].
  - split; [reflexivity|]. split; [discriminate|]. split; discriminate.
  - split; [discriminate|]. split; [|split; [discriminate | reflexivity]].
    intros _. exists 1. split; [reflexivity | split; discriminate].
  - split; [discriminate|]. split; [|split; [reflexivity | discriminate]].
    intros _. exists (-1). split; [reflexivity | split; discriminate].
  - destruct (physiological_finite q) as (U & Lo & Hi).
    split; [discriminate|]. split; [intros _; exact U|]. split; intro H.
    + apply Lo. now apply Qle_bool_iff.
    + apply Hi. now apply Qle_bool_iff.
Qed.

Lemma display_index (len points i : nat) :
  (0 < len)%nat -> (i < points)%nat ->
  exists k, (k < len)%nat
    /\ forall w, f32_read w (Math_floor (of_nat i * (of_nat len / of_nat points))%num)
                 = nth_error w k.
Proof.
  intros Hl Hi.
  destruct (src_pos_bounds len points i Hl Hi) as [S0 Sn].
  assert (Dr : denotes (of_nat len / of_nat points)%num
                 (inject_Z (Z.of_nat len) / inject_Z (Z.of_nat points))).
  { apply denotes_div; try apply denotes_of_nat.
    intro E. apply (proj1 (inject_Z_injective _ 0)) in E. lia. }
  assert (Ds : denotes (of_nat i * (of_nat len / of_nat points))%num
                 (src_pos len points i)).
  { apply denotes_mul; [apply denotes_of_nat | exact Dr]. }
  apply denotes_floor in Ds.
  destruct (Qfloor_bounds _ _ S0 Sn) as [K0 Kn].
  exists (Z.to_nat (Qfloor (src_pos len points i))). split; [lia|].
  intro w. unfold f32_read. now rewrite (to_index_denotes _ _ Ds K0).
Qed.

Lemma display_index_same (len i : nat) :
  (i < len)%nat ->
  forall w, f32_read w (Math_floor (of_nat i * (of_nat len / of_nat len))%num)
            = nth_error w i.
Proof.
  intros Hi w.
  assert (Np : ~ inject_Z (Z.of_nat len) == 0).
  { intro E. apply (proj1 (inject_Z_injective _ 0)) in E. lia. }
  assert (Ds : denotes (of_nat i * (of_nat len / of_nat len))%num
                 (inject_Z (Z.of_nat i))).
  { eapply denotes_eq.
    - apply denotes_mul; [apply denotes_of_nat|].
      apply denotes_div; try apply denotes_of_nat. exact Np.
    - field. exact Np. }
  apply denotes_floor in Ds. rewrite Qfloor_Z in Ds.
  unfold f32_read. rewrite (to_index_denotes _ _ Ds) by lia.
  now rewrite Nat2Z.id.
Qed.

Lemma map_nth_error_seq {A} (w : list A) :
  map (nth_error w) (seq 0 (List.length w)) = map Some w.
Proof.
  induction w as [|a w IH]; [reflexivity|].
  cbn [List.length seq map nth_error]. f_equal.
  rewrite <- seq_shift, map_map. exact IH.
Qed.

(** X29.  The waveform for display has as many points as asked for; every
    point is a sample of the wavetable (all are undefined when the
    wavetable is empty), and asking for as many points as there are
    samples gives the wavetable itself. *)
Theorem getWaveformForDisplay_samples wavetable points :
  List.length (getWaveformForDisplay wavetable points) = points
  /\ (wavetable <> [] ->
      forall x, In x (getWaveformForDisplay wavetable points) ->
                exists v, x = Some v /\ In v wavetable)
  /\ (wavetable = [] ->
      getWaveformForDisplay wavetable points = repeat None points)
  /\ getWaveformForDisplay wavetable (List.length wavetable)
     = map Some wavetable.
Proof.
  unfold getWaveformForDisplay. cbv zeta.
  split; [now rewrite length_map, length_seq|]. split; [|split].
  - intros NE x I. apply in_map_iff in I as (i & <- & I). apply in_seq in I.
    assert (Hl : (0 < List.length wavetable)%nat)
      by (destruct wavetable; [contradiction | cbn; lia]).
    destruct (display_index _ points i Hl) as (k & Hk & E); [lia|].
    rewrite E. destruct (nth_error wavetable k) as [v|] eqn:N.
    + exists v. split; [reflexivity|]. eapply nth_error_In; eauto.
    + apply nth_error_None in N. lia.
  - intros ->. cbn [List.length].
    assert (E : forall i, In i (seq 0 points) ->
              f32_read [] (Math_floor (of_nat i * (of_nat 0 / of_nat points))%num)
              = None).
    { intros i _. unfold f32_read. destruct (to_index _); [|reflexivity].
      now destruct n. }
    rewrite (map_ext_in _ (fun _ => None) _ E).
    clear E. generalize 0%nat. induction points as [|p IH]; intro s; [reflexivity|].
    cbn [seq map repeat]. now rewrite IH.
  - rewrite <- map_nth_error_seq. apply map_ext_in. intros i I.
    apply in_seq in I. apply display_index_same. lia.
Qed.

(** X28.  After [generateAllWavetables] the map has the same keys, in the
    same order, and every day carries the 2048-sample wavetable of its
    readings; date, readings and statistics are untouched. *)
Theorem generateAllWavetables_spec days :
  map fst (generateAllWavetables days) = map fst days
  /\ forall key day, In (key, day) (generateAllWavetables days) ->
       (exists w, wavetable day = Some w /\ List.length w = WAVETABLE_SIZE)
       /\ exists day0, In (key, day0) days
            /\ wavetable day = Some (generateWavetable day0)
            /\ date day = date day0 /\ readings day = readings day0
            /\ stats day = stats day0.
Proof.
  unfold generateAllWavetables. split.
  - rewrite map_map. reflexivity.
  - intros key day I. apply in_map_iff in I as ([k d0] & E & I).
    injection E as <- <-. cbn [fst snd set_wavetable wavetable].
    split.
    + eexists. split; [reflexivity|]. unfold generateWavetable.
      destruct (List.length (readings d0) =? 0)%nat; [apply zeros_length|].
      now rewrite smoothWavetable_length, resampleToWavetableSize_length.
    + exists d0. repeat split. exact I.
Qed.

(** X24.  A day whose readings all carry one and the same finite value, and a
    day without readings, give the silent wavetable: 2048 zeros. *)
Theorem flat_day_is_silent dayData q :
  Forall (fun r => denotes (value r) q) (readings dayData) ->
  generateWavetable dayData = zeros WAVETABLE_SIZE.
Proof.
  intro F. unfold generateWavetable.
  destruct (List.length (readings dayData) =? 0)%nat; [reflexivity|].
  rewrite (normalizeGlucoseValues_flat q).
  - now rewrite resample_zeros, smoothWavetable_zeros.
  - apply Forall_map. exact F.
Qed.

End WavetableMore.

(** ** The unit of an export *)

Section UnitFacts.
Local Open Scope string_scope.

Lemma toLowerCase_app a b :
  toLowerCase (a ++ b) = toLowerCase a ++ toLowerCase b.
Proof. induction a as [|c a IH]; cbn; [reflexivity | now rewrite IH]. Qed.

Lemma toLowerCase_join sep l :
  toLowerCase (join sep l) = join (toLowerCase sep) (map toLowerCase l).
Proof.
  induction l as [|a l IH]; [reflexivity|].
  destruct l as [|b l]; [reflexivity|].
  change (join sep (a :: b :: l)) with (a ++ sep ++ join sep (b :: l)).
  rewrite !toLowerCase_app, IH. reflexivity.
Qed.

(** A needle without blank cannot begin in [a] and run over the blank that
    follows it. *)
Lemma prefix_before_blank n : forall a b,
  space_free n -> n <> EmptyString ->
  prefix n (a ++ String " " b) = prefix n a.
Proof.
  induction n as [|c n IH]; intros a b S NE; [contradiction|].
  unfold space_free in S. cbn [str_all] in S. apply andb_true_iff in S as [Sc Sn].
  apply negb_true_iff in Sc.
  destruct a as [|x a]; cbn [append prefix].
  - destruct (ascii_dec c " ") as [E|E]; [|reflexivity].
    subst c. discriminate Sc.
  - destruct (ascii_dec c x); [|reflexivity].
    destruct n as [|c' n']; [now destruct a | ].
    apply IH; [exact Sn | discriminate].
Qed.

Lemma includes_nil n : n <> EmptyString -> includes EmptyString n = false.
Proof. intro NE. destruct n; [contradiction | reflexivity]. Qed.

Lemma includes_blank n a : forall b,
  space_free n -> n <> EmptyString ->
  includes (a ++ String " " b) n = includes a n || includes b n.
Proof.
  intros b S NE. induction a as [|x a IH].
  - rewrite includes_nil by exact NE. cbn [append orb].
    change (includes (String " " b) n)
      with (prefix n (String " " b) || includes b n).
    replace (prefix n (String " " b)) with false; [reflexivity|].
    symmetry. change (String " " b) with (EmptyString ++ String " " b).
    rewrite prefix_before_blank by assumption. now destruct n.
  - change (includes (String x a ++ String " " b) n)
      with (prefix n (String x a ++ String " " b)
            || includes (a ++ String " " b) n).
    rewrite prefix_before_blank by assumption. rewrite IH.
    change (includes (String x a) n) with (prefix n (String x a) || includes a n).
    now rewrite orb_assoc.
Qed.

Lemma includes_join n l :
  space_free n -> n <> EmptyString ->
  includes (join " " l) n = existsb (fun h => includes h n) l.
Proof.
  intros S NE. induction l as [|a l IH].
  - cbn [join existsb]. now apply includes_nil.
  - destruct l as [|b l].
    + cbn [join existsb]. now rewrite orb_false_r.
    + change (join " " (a :: b :: l)) with (a ++ String " " (join " " (b :: l))).
      rewrite includes_blank by assumption. rewrite IH. reflexivity.
Qed.

Lemma existsb_mapped {A B} (p : B -> bool) (g : A -> B) l :
  existsb p (map g l) = existsb (fun x => p (g x)) l.
Proof. induction l as [|a l IH]; cbn; [reflexivity | now rewrite IH]. Qed.

(** X8.  The unit detected is mmol/L exactly when one of the headers
    contains "mmol/l", in any letter case; otherwise it is mg/dL. *)
Theorem detectUnit_spec headers :
  (detectUnit headers = mmol_L <->
   exists h, In h headers /\ includes (toLowerCase h) "mmol/l" = true)
  /\ (detectUnit headers = mg_dL <->
      forall h, In h headers -> includes (toLowerCase h) "mmol/l" = false).
Proof.
  unfold detectUnit. cbv zeta. rewrite toLowerCase_join.
  change (toLowerCase " ") with " ".
  rewrite includes_join by (reflexivity || discriminate).
  rewrite existsb_mapped.
  destruct (existsb _ headers) eqn:E.
  - apply existsb_exists in E as (h & I & H). split; split.
    + intros _. eauto.
    + reflexivity.
    + discriminate.
    + intro A. rewrite (A h I) in H. discriminate.
  - split; split.
    + discriminate.
    + intros (h & I & H).
      assert (X : existsb (fun h => includes (toLowerCase h) "mmol/l") headers
                  = true) by (apply existsb_exists; eauto).
      congruence.
    + intros _ h I. destruct (includes (toLowerCase h) "mmol/l") eqn:H; [|reflexivity].
      assert (X : existsb (fun h => includes (toLowerCase h) "mmol/l") headers
                  = true) by (apply existsb_exists; eauto).
      congruence.
    + reflexivity.
Qed.

End UnitFacts.

(** ** The rate of change *)

Section RateOfChange.
Local Open Scope Q_scope.

Lemma Math_abs_denotes x q : denotes x q -> denotes (Math_abs x) (Qabs q).
Proof.
  intros (q' & -> & E). cbn [Math_abs].
  eapply denotes_eq; [apply denotes_fin|]. now rewrite E.
Qed.

Lemma total_change_denotes rest : forall prev acc qa,
  isFinite prev = true -> all_finite (map value rest) ->
  denotes acc qa -> 0 <= qa ->
  exists q, denotes (total_change prev rest acc) q /\ 0 <= q.
Proof.
  induction rest as [|r rest IH]; intros prev acc qa Fp F Da Ha.
  - exists qa. split; assumption.
  - cbn [map] in F. inversion F as [|? ? Fr F']; subst.
    cbn [total_change].
    apply (IH (value r) _ (qa + Qabs (toQ (value r) - toQ prev))); try assumption.
    + apply denotes_add; [exact Da|]. apply Math_abs_denotes.
      apply denotes_sub; now apply isFinite_denotes.
    + pose proof (Qabs_nonneg (toQ (value r) - toQ prev)). lra.
Qed.

Lemma total_change_flat q rest : forall prev acc,
  denotes prev q -> Forall (fun r => denotes (value r) q) rest ->
  denotes acc 0 -> denotes (total_change prev rest acc) 0.
Proof.
  induction rest as [|r rest IH]; intros prev acc Dp F Da; [exact Da|].
  inversion F as [|? ? Dr F']; subst. cbn [total_change].
  apply IH; [exact Dr | exact F' |].
  eapply denotes_eq.
  - apply denotes_add; [exact Da|]. apply Math_abs_denotes.
    apply denotes_sub; [exact Dr | exact Dp].
  - setoid_replace (q - q) with 0 by ring. reflexivity.
Qed.

Lemma count_denotes (n : nat) :
  (2 <= n)%nat ->
  denotes (of_nat n - one)%num (inject_Z (Z.of_nat n) - 1)
  /\ 0 < inject_Z (Z.of_nat n) - 1.
Proof.
  intro H. split.
  - apply denotes_sub; [apply denotes_of_nat | apply denotes_Fin].
  - assert (L : inject_Z 2 <= inject_Z (Z.of_nat n)) by (rewrite <- Zle_Qle; lia).
    change (inject_Z 2) with 2 in L. lra.
Qed.

(** X30.  The rate of change is 0 with fewer than two readings; on finite
    readings it is never negative and never NaN (it is at least 0; in the
    source it is Infinity when a difference or the sum overflows); and it
    is 0 when all readings carry the same value. *)
Theorem computeRateOfChange_nonneg readings :
  ((List.length readings < 2)%nat -> computeRateOfChange readings = zero)
  /\ (all_finite (map value readings) ->
      (zero <=? computeRateOfChange readings)%num = true)
  /\ (forall v, Forall (fun r => denotes (value r) v) readings ->
      computeRateOfChange readings = zero).
Proof.
  unfold computeRateOfChange. split; [|split].
  - intro H. apply Nat.ltb_lt in H. now rewrite H.
  - intro F.
    assert (E : exists q, (if (List.length readings <? 2)%nat then zero
                           else match readings with
                                | r0 :: rest =>
                                    (total_change (value r0) rest zero
                                     / (of_nat (List.length readings) - one))%num
                                | [] => zero
                                end) = Fin q /\ 0 <= q);
      [|destruct E as (q & -> & Hq); cbn [nle zero]; now apply Qle_bool_iff].
    destruct (Nat.ltb_spec (List.length readings) 2) as [L|G].
    { exists 0. split; [reflexivity | discriminate]. }
    destruct readings as [|r0 rest]; [exists 0; split; [reflexivity | discriminate]|].
    cbn [map] in F. inversion F as [|? ? F0 F']; subst.
    destruct (total_change_denotes rest (value r0) zero 0 F0 F'
                (denotes_Fin 0) (Qle_refl 0)) as (q & D & Hq).
    destruct (count_denotes _ G) as [Dn Pn].
    assert (Dd := denotes_div _ _ _ _ D Dn ltac:(intro E; lra)).
    destruct Dd as (q' & E & Eq). exists q'. split; [exact E|].
    rewrite Eq. apply Qle_shift_div_l; [exact Pn | lra].
  - intros v F. destruct (Nat.ltb_spec (List.length readings) 2) as [L|G];
      [reflexivity|].
    destruct readings as [|r0 rest]; [reflexivity|].
    inversion F as [|? ? D0 F']; subst.
    pose proof (total_change_flat v rest (value r0) zero D0 F' (denotes_Fin 0)) as D.
    destruct (count_denotes _ G) as [Dn Pn].
    assert (Dd := denotes_div _ _ _ _ D Dn ltac:(intro E; lra)).
    apply finite_div_canonical in Dd. rewrite Dd.
    change zero with (fin 0). apply fin_eq. field. lra.
Qed.

End RateOfChange.

(** ** The list of available dates *)

Section AvailableDates.
Local Open Scope string_scope.

Lemma ascii_compare_N a b :
  Ascii.compare a b = N.compare (N_of_ascii a) (N_of_ascii b).
Proof. reflexivity. Qed.

Lemma ascii_compare_refl a : Ascii.compare a a = Eq.
Proof. rewrite ascii_compare_N. apply N.compare_refl. Qed.

Lemma ascii_compare_Eq a b : Ascii.compare a b = Eq -> a = b.
Proof. apply Ascii.compare_eq_iff. Qed.

Lemma string_compare_refl s : String.compare s s = Eq.
Proof.
  induction s as [|c s IH]; [reflexivity|].
  cbn [String.compare]. now rewrite ascii_compare_refl.
Qed.

Lemma string_compare_trans a : forall b c r,
  String.compare a b = r -> String.compare b c = r -> r <> Eq ->
  String.compare a c = r.
Proof.
  induction a as [|x a IH]; intros [|y b] [|z c] r H1 H2 NE;
    cbn [String.compare] in *; try congruence.
  rewrite ascii_compare_N in *.
  destruct (N.compare_spec (N_of_ascii x) (N_of_ascii y)) as [E1|L1|G1];
    destruct (N.compare_spec (N_of_ascii y) (N_of_ascii z)) as [E2|L2|G2];
    try congruence.
  - rewrite E1, E2, N.compare_refl. eapply IH; eauto.
  - rewrite E1. now apply N.compare_lt_iff in L2 as ->.
  - rewrite E1. subst r. apply N.compare_gt_iff in G2. now rewrite G2.
  - rewrite <- E2. now apply N.compare_lt_iff in L1 as ->.
  - subst r. assert (L : (N_of_ascii x < N_of_ascii z)%N) by lia.
    now apply N.compare_lt_iff in L as ->.
  - rewrite <- E2. subst r. apply N.compare_gt_iff in G1. now rewrite G1.
  - subst r. assert (L : (N_of_ascii z < N_of_ascii x)%N) by lia.
    apply N.compare_gt_iff in L. now rewrite L.
Qed.

Lemma string_le_trans a b c : string_le a b -> string_le b c -> string_le a c.
Proof.
  unfold string_le, String.leb. intros H1 H2.
  destruct (String.compare a b) eqn:E1; try discriminate;
    destruct (String.compare b c) eqn:E2; try discriminate.
  - apply String.compare_eq_iff in E1, E2. subst. now rewrite string_compare_refl.
  - apply String.compare_eq_iff in E1. subst. now rewrite E2.
  - apply String.compare_eq_iff in E2. subst. now rewrite E1.
  - rewrite (string_compare_trans a b c Lt E1 E2); [reflexivity | discriminate].
Qed.

Lemma SortCompare_gt x y :
  (SortCompare x y >? zero)%num = true <-> String.compare x y = Gt.
Proof.
  unfold SortCompare. destruct (String.compare x y); split; intro H;
    try discriminate; reflexivity.
Qed.

Lemma sort_insert_strings x l :
  StronglySorted string_le l ->
  StronglySorted string_le (sort_insert SortCompare x l).
Proof.
  induction l as [|y l IH]; intro S; cbn [sort_insert].
  - repeat constructor.
  - inversion S as [|? ? S' F]; subst.
    destruct (SortCompare x y >? zero)%num eqn:G.
    + apply SortCompare_gt in G.
      assert (Lyx : string_le y x).
      { unfold string_le, String.leb. rewrite String.compare_antisym, G. reflexivity. }
      constructor; [now apply IH|].
      assert (P : Permutation (x :: l) (sort_insert SortCompare x l))
        by apply sort_insert_perm.
      eapply Permutation_Forall; [exact P|]. constructor; assumption.
    + assert (Lxy : string_le x y).
      { unfold string_le, String.leb.
        destruct (String.compare x y) eqn:C; try reflexivity.
        apply SortCompare_gt in C. congruence. }
      constructor; [exact S|]. constructor; [exact Lxy|].
      eapply Forall_impl; [|exact F]. intros z Hz.
      eapply string_le_trans; eauto.
Qed.

Lemma Array_sort_strings l : StronglySorted string_le (Array_sort SortCompare l).
Proof.
  induction l as [|x l IH]; [constructor|].
  cbn [Array_sort fold_right]. now apply sort_insert_strings.
Qed.

(** *** Keys in string order *)

Lemma compare_app_same_length a : forall b s t,
  String.length a = String.length b ->
  String.compare (a ++ s) (b ++ t)
  = match String.compare a b with
    | Eq => String.compare s t
    | r => r
    end.
Proof.
  induction a as [|x a IH]; intros [|y b] s t L; try discriminate L.
  - reflexivity.
  - cbn [append String.compare]. destruct (Ascii.compare x y); try reflexivity.
    apply IH. now injection L.
Qed.

Lemma digit_compare x y :
  is_digit x = true -> is_digit y = true ->
  Ascii.compare x y = Z.compare (digit_val x) (digit_val y).
Proof.
  destruct x as [[] [] [] [] [] [] [] []]; try discriminate;
    destruct y as [[] [] [] [] [] [] [] []]; try discriminate; reflexivity.
Qed.

(** On runs of digits of one length, the order of strings is the order of
    values. *)
Lemma digits_compare a : forall b,
  str_all is_digit a = true -> str_all is_digit b = true ->
  String.length a = String.length b ->
  String.compare a b = Z.compare (decimal_value 0 a) (decimal_value 0 b).
Proof.
  induction a as [|x a IH]; intros [|y b] Da Db L; try discriminate L.
  - reflexivity.
  - cbn [str_all] in Da, Db.
    apply andb_true_iff in Da as [Dx Da]. apply andb_true_iff in Db as [Dy Db].
    injection L as L.
    cbn [String.compare decimal_value].
    rewrite (decimal_value_acc a), (decimal_value_acc b), <- L.
    pose proof (decimal_value_range a 0 Da ltac:(lia)) as Ra.
    pose proof (decimal_value_range b 0 Db ltac:(lia)) as Rb.
    rewrite <- L in Rb.
    pose proof (digit_val_range x Dx) as Rx.
    pose proof (digit_val_range y Dy) as Ry.
    set (p := (10 ^ Z.of_nat (String.length a))%Z) in *.
    rewrite (digit_compare x y Dx Dy), (IH b Da Db L).
    destruct (Z.compare_spec (digit_val x) (digit_val y)) as [E|Lt|Gt].
    + rewrite E.
      destruct (Z.compare_spec (decimal_value 0 a) (decimal_value 0 b));
        symmetry; [apply Z.compare_eq_iff | apply Z.compare_lt_iff
                  | apply Z.compare_gt_iff]; lia.
    + symmetry. apply Z.compare_lt_iff. nia.
    + symmetry. apply Z.compare_gt_iff. nia.
Qed.


Lemma digits_of_pos_digits fuel : forall n acc,
  str_all is_digit acc = true ->
  str_all is_digit (digits_of_pos fuel n acc) = true.
Proof.
  induction fuel as [|f IH]; intros n acc D; [exact D|].
  cbn [digits_of_pos].
  assert (Hm : (N.modulo n 10 < 10)%N) by (apply N.mod_lt; discriminate).
  destruct (digit_char _ Hm) as [_ Dg].
  destruct (N.eqb (n / 10) 0).
  - cbn [str_all]. now rewrite Dg.
  - apply IH. cbn [str_all]. now rewrite Dg.
Qed.

Lemma digits_of_pos_length fuel : forall n acc (k : nat),
  (n < 2 ^ N.of_nat fuel)%N ->
  (10 ^ N.of_nat k <= n < 10 ^ N.of_nat (S k))%N ->
  String.length (digits_of_pos fuel n acc) = (S k + String.length acc)%nat.
Proof.
  induction fuel as [|f IH]; intros n acc k B R.
  - cbn in B. assert (0 < 10 ^ N.of_nat k)%N by (apply N.neq_0_lt_0, N.pow_nonzero; discriminate).
    lia.
  - cbn [digits_of_pos].
    pose proof (N.div_mod n 10 ltac:(discriminate)) as DM.
    assert (Hm : (N.modulo n 10 < 10)%N) by (apply N.mod_lt; discriminate).
    rewrite Nnat.Nat2N.inj_succ, N.pow_succ_r' in R.
    destruct (N.eqb_spec (n / 10) 0) as [Q|Q].
    + destruct k as [|k'].
      * reflexivity.
      * rewrite Nnat.Nat2N.inj_succ, N.pow_succ_r' in R.
        assert (0 < 10 ^ N.of_nat k')%N by (apply N.neq_0_lt_0, N.pow_nonzero; discriminate).
        rewrite Q in DM. lia.
    + assert (Qp : (0 < n / 10)%N) by (now apply N.neq_0_lt_0).
      destruct k as [|k'].
      * change (N.of_nat 0) with 0%N in R. rewrite N.pow_0_r in R.
        exfalso. apply Q. apply N.div_small. lia.
      * rewrite (IH (n / 10)%N _ k').
        -- cbn [String.length]. lia.
        -- rewrite Nnat.Nat2N.inj_succ, N.pow_succ_r' in B.
           apply N.Div0.div_lt_upper_bound. lia.
        -- rewrite Nnat.Nat2N.inj_succ, N.pow_succ_r' in R.
           rewrite (Nnat.Nat2N.inj_succ k'), N.pow_succ_r'.
           split.
           ++ apply N.div_le_lower_bound; [discriminate | lia].
           ++ apply N.Div0.div_lt_upper_bound. lia.
Qed.

(** A year from 1000 to 9999 is written with four digits. *)
Lemma year_string y :
  (1000 <= y <= 9999)%Z ->
  String.length (string_of_Z y) = 4%nat
  /\ str_all is_digit (string_of_Z y) = true
  /\ decimal_value 0 (string_of_Z y) = y.
Proof.
  intro R. destruct y as [|p|p]; try lia.
  change (string_of_Z (Z.pos p)) with (string_of_N (N.pos p)).
  split; [|split].
  - unfold string_of_N. rewrite (digits_of_pos_length _ _ _ 3).
    + reflexivity.
    + rewrite Nnat.Nat2N.inj_succ, Nnat.N2Nat.id. apply N.log2_spec. reflexivity.
    + change (10 ^ N.of_nat 3)%N with 1000%N.
      change (10 ^ N.of_nat 4)%N with 10000%N. lia.
  - unfold string_of_N. now apply digits_of_pos_digits.
  - rewrite string_of_N_value. reflexivity.
Qed.

Lemma two_digit_string v :
  (1 <= v <= 31)%Z ->
  String.length (padStart2 (string_of_Z v)) = 2%nat
  /\ str_all is_digit (padStart2 (string_of_Z v)) = true
  /\ decimal_value 0 (padStart2 (string_of_Z v)) = v.
Proof.
  intro R. destruct v as [|p|p]; try lia.
  do 5 (try (destruct p as [p|p|]; try lia)); repeat split; reflexivity.
Qed.

Lemma date_key_compare y1 m1 d1 y2 m2 d2 :
  (1000 <= y1 <= 9999)%Z -> (1 <= m1 <= 31)%Z -> (1 <= d1 <= 31)%Z ->
  (1000 <= y2 <= 9999)%Z -> (1 <= m2 <= 31)%Z -> (1 <= d2 <= 31)%Z ->
  String.compare (date_key y1 m1 d1) (date_key y2 m2 d2)
  = match Z.compare y1 y2 with
    | Eq => match Z.compare m1 m2 with
            | Eq => Z.compare d1 d2
            | r => r
            end
    | r => r
    end.
Proof.
  intros Ry1 Rm1 Rd1 Ry2 Rm2 Rd2. unfold date_key.
  destruct (year_string y1 Ry1) as (Ly1 & Dy1 & Vy1).
  destruct (year_string y2 Ry2) as (Ly2 & Dy2 & Vy2).
  destruct (two_digit_string m1 Rm1) as (Lm1 & Dm1 & Vm1).
  destruct (two_digit_string m2 Rm2) as (Lm2 & Dm2 & Vm2).
  destruct (two_digit_string d1 Rd1) as (Ld1 & Dd1 & Vd1).
  destruct (two_digit_string d2 Rd2) as (Ld2 & Dd2 & Vd2).
  rewrite compare_app_same_length by congruence.
  rewrite (digits_compare _ _ Dy1 Dy2) by congruence. rewrite Vy1, Vy2.
  destruct (Z.compare y1 y2); try reflexivity.
  cbn [append String.compare]. rewrite ascii_compare_refl.
  rewrite compare_app_same_length by congruence.
  rewrite (digits_compare _ _ Dm1 Dm2) by congruence. rewrite Vm1, Vm2.
  destruct (Z.compare m1 m2); try reflexivity.
  cbn [append String.compare]. rewrite ascii_compare_refl.
  rewrite (digits_compare _ _ Dd1 Dd2) by congruence. now rewrite Vd1, Vd2.
Qed.

(** X22.  The available dates are the keys of the days, each once, in
    ascending order of strings; for years from 1000 to 9999 this order of
    the keys is the order of the days in the calendar. *)
Theorem getAvailableDates_chronological data :
  Permutation (map fst (days data)) (getAvailableDates data)
  /\ StronglySorted string_le (getAvailableDates data)
  /\ (forall y1 m1 d1 y2 m2 d2,
        (1000 <= y1 <= 9999)%Z -> (1 <= m1 <= 12)%Z -> (1 <= d1 <= 31)%Z ->
        (1000 <= y2 <= 9999)%Z -> (1 <= m2 <= 12)%Z -> (1 <= d2 <= 31)%Z ->
        (string_le (date_key y1 m1 d1) (date_key y2 m2 d2)
         <-> date_le y1 m1 d1 y2 m2 d2)).
Proof.
  unfold getAvailableDates. split; [apply Array_sort_perm|].
  split; [apply Array_sort_strings|].
  intros y1 m1 d1 y2 m2 d2 Ry1 Rm1 Rd1 Ry2 Rm2 Rd2.
  unfold string_le, String.leb, date_le.
  rewrite date_key_compare by lia.
  destruct (Z.compare_spec y1 y2) as [Ey|Ly|Gy];
    [destruct (Z.compare_spec m1 m2) as [Em|Lm|Gm];
       [destruct (Z.compare_spec d1 d2) as [Ed|Ld|Gd]| |] | |];
    split; intro H; try reflexivity; try discriminate; lia.
Qed.

End AvailableDates.

(** ** The dataset of an export *)

Section DatasetFacts.
Variable Date_parse : string -> option Z.

Lemma on_day_key key rs :
  Forall (fun r => formatDateKey (timestamp r) = key) (on_day key rs).
Proof.
  apply Forall_forall. intros r I. unfold on_day in I.
  apply filter_In in I as [_ E]. now apply String.eqb_eq.
Qed.

Lemma on_day_Forall (P : GlucoseReading -> Prop) key rs :
  Forall P rs -> Forall P (on_day key rs).
Proof.
  intro F. apply Forall_forall. intros r I. unfold on_day in I.
  apply filter_In in I as [I _]. rewrite Forall_forall in F. now apply F.
Qed.

(** X21.  In the dataset of any export the device name is never empty, the
    days have distinct keys, and each day bears its key as date, has no
    wavetable yet and holds at least one reading; every reading of a day is
    well formed and its timestamp has the key of the day. *)
Theorem parseLibreViewCSV_days csvContent :
  let data := parseLibreViewCSV Date_parse csvContent in
  deviceName data <> EmptyString
  /\ NoDup (map fst (days data))
  /\ forall key day, In (key, day) (days data) ->
       date day = key /\ wavetable day = None /\ readings day <> []
       /\ Forall well_formed_reading (readings day)
       /\ Forall (fun r => formatDateKey (timestamp r) = key) (readings day).
Proof.
  unfold parseLibreViewCSV, dataset_from. cbv zeta.
  cbn [deviceName days]. split; [|split].
  - destruct (collect_rows _ _) as [|row0 rows]; [discriminate|].
    destruct (row_str "Device" row0) eqn:E; cbn [truthy]; discriminate.
  - apply grouping_keys.
  - intros key day I. apply grouping_day in I as (D & W & R & NE).
    split; [exact D|]. split; [exact W|]. split; [exact NE|].
    rewrite R. split; [|apply on_day_key].
    apply on_day_Forall, sorted_readings_well_formed.
Qed.

End DatasetFacts.

(** * Instances *)

Section Instances.
Local Open Scope string_scope.

Lemma parseTimestamp_day_month_witness :
  parseTimestamp no_native_parse "25-12-2024 8:05:59"
  = Some (newDate (parseInt "2024") (parseInt "12" - one)%num (parseInt "25")
                  (parseInt "8") (parseInt "05")).
Proof.
  apply (proj1 (parseTimestamp_day_month no_native_parse)
           "25" "12" "2024" "8" "05" ":59" "-"%char "-"%char);
    try reflexivity; try (split; [reflexivity | simpl; lia]).
  right. exists "5"%char, "9"%char. repeat split; reflexivity.
Defined.


Lemma missing_header_defaults_to_first_line_witness :
  ingest no_native_parse headerless_csv
  = Ingested (dataset_from no_native_parse (csv_lines headerless_csv) 0).
Proof.
  apply (missing_header_defaults_to_first_line no_native_parse headerless_csv).
  vm_compute. repeat constructor.
Defined.

Lemma resample_endpoints_monotone_witness :
  non_decreasing (resampleToWavetableSize [Fin (-1); Fin 0; Fin 1] 5).
Proof.
  apply (proj1 (proj2 (proj2 resample_endpoints_monotone))).
  - repeat constructor.
  - intros i j [Hij Hj]. simpl in Hj.
    destruct i as [|[|[|i]]], j as [|[|[|j]]]; try lia; reflexivity.
Defined.

Lemma readings_sorted_by_timestamp_witness :
  StronglySorted time_le (readings scenario_day).
Proof.
  apply (proj2 (readings_sorted_by_timestamp no_native_parse)
               scenario_csv "2024-06-01" scenario_day).
  vm_compute. left. reflexivity.
Defined.

End Instances.

(** * Further instances *)

Section MoreInstances.
Local Open Scope string_scope.

Lemma parseCSVLine_join_witness :
  parseCSVLine (join comma ["Device"; "Serial Number"; "Device Timestamp"])
  = ["Device"; "Serial Number"; "Device Timestamp"].
Proof. apply parseCSVLine_join; [discriminate | repeat constructor]. Defined.

Lemma parseCSVLine_quoted_witness :
  parseCSVLine (String dquote ("Libre 3, EU" ++ String dquote EmptyString))
  = ["Libre 3, EU"].
Proof. apply parseCSVLine_quoted. reflexivity. Defined.

Lemma parseCSVLine_unquoted_witness :
  join comma (parseCSVLine "01-06-2024 10:00,120") = "01-06-2024 10:00,120".
Proof. apply parseCSVLine_unquoted. reflexivity. Defined.

Lemma split_lines_join_witness :
  split_lines (join newline ["Device Timestamp,Glucose"; "01-06-2024 10:00,120"])
              EmptyString
  = ["Device Timestamp,Glucose"; "01-06-2024 10:00,120"]
  /\ split_lines (join crlf ["Device Timestamp,Glucose"; "01-06-2024 10:00,120"])
                 EmptyString
     = ["Device Timestamp,Glucose"; "01-06-2024 10:00,120"].
Proof. apply split_lines_join; [discriminate | repeat constructor]. Defined.

Lemma findHeaderIndex_first_witness :
  (findHeaderIndex ["Glucose Data,Generated on,01-06-2024";
                    "Device,Serial Number,Device Timestamp";
                    "Libre,A1,01-06-2024 10:00"] <= 1)%nat.
Proof.
  apply (proj1 (findHeaderIndex_first
                  ["Glucose Data,Generated on,01-06-2024";
                   "Device,Serial Number,Device Timestamp";
                   "Libre,A1,01-06-2024 10:00"]
                  1 "Device,Serial Number,Device Timestamp"
                  ltac:(lia) eq_refl eq_refl)).
Defined.

Lemma build_row_lookup_witness :
  row_get (trim "Device Timestamp")
          (build_row [" Device "; "Device Timestamp"]
                     ["Libre"; " 01-06-2024 10:00 "])
  = Some (trim " 01-06-2024 10:00 ").
Proof.
  apply (build_row_lookup _ _ 1); try reflexivity; [discriminate|].
  intros j h' Hj N. destruct j as [|[|[|j]]]; try lia; discriminate N.
Defined.

Lemma parseTimestamp_year_first_witness :
  calendar_date (parseTimestamp no_native_parse "2024-06-01 10:00")
  = Some (2024, 6, 1)%Z.
Proof.
  pose proof (parseTimestamp_year_first no_native_parse
                "2024" "06" "01" "10" "00" EmptyString "-"%char "-"%char) as H.
  apply H; try reflexivity; try (split; [reflexivity | simpl; lia]).
  - now left.
  - vm_compute. discriminate.
  - vm_compute. repeat split; discriminate.
Defined.

Lemma parseTimestamp_short_year_witness :
  calendar_date (parseTimestamp no_native_parse "24-06-01 10:00")
  = Some (2024, 6, 1)%Z.
Proof.
  pose proof (parseTimestamp_short_year no_native_parse
                "24" "06" "01" "10" "00" EmptyString "-"%char "-"%char) as H.
  apply H; try reflexivity; try (split; [reflexivity | simpl; lia]).
  - now left.
  - vm_compute. repeat split; discriminate.
Defined.

Lemma parseTimestamp_never_invalid_witness :
  exists t, DateTV 1717236000000 = DateTV t
            /\ isNaN (getTime (DateTV 1717236000000)) = false.
Proof.
  apply (proj2 (parseTimestamp_never_invalid no_native_parse)
               "2024-06-01 10:00").
  vm_compute. reflexivity.
Defined.

Lemma formatDateKey_calendar_witness :
  formatDateKey (newDate (of_Z 2024) (of_Z (6 - 1)) (of_Z 1) (of_Z 10) (of_Z 0))
  = date_key 2024 6 1.
Proof.
  apply formatDateKey_calendar; try lia.
  change (daysInMonth 2024 6) with 30%Z. lia.
Defined.

Lemma groupReadingsByDay_partition_witness :
  date scenario_day = "2024-06-01" /\ wavetable scenario_day = None
  /\ readings scenario_day = on_day "2024-06-01" (readings scenario_day)
  /\ readings scenario_day <> [].
Proof.
  apply (proj1 (proj2 (groupReadingsByDay_partition (readings scenario_day)))).
  vm_compute. left. reflexivity.
Defined.

Lemma calculateDayStats_extremes_witness :
  exists r, In r (readings (dayOf [Fin 95; Fin 140]))
    /\ value r = st_min (stats (calculateDayStats (dayOf [Fin 95; Fin 140]))).
Proof.
  apply (calculateDayStats_extremes (dayOf [Fin 95; Fin 140])).
  - discriminate.
  - intros r [<- | [<- | []]]; reflexivity.
Defined.

Lemma timeInRange_bounds_witness :
  exists q,
    st_timeInRange (stats (calculateDayStats (dayOf [Fin 95; Fin 240]))) = Fin q
    /\ (0 <= q <= 100)%Q.
Proof.
  apply (timeInRange_bounds (dayOf [Fin 95; Fin 240])). discriminate.
Defined.

Lemma normalizeGlucoseValues_range_witness :
  Forall unit_amplitude (normalizeGlucoseValues [Fin 80; Fin 120; Fin 200]).
Proof.
  apply (normalizeGlucoseValues_range [Fin 80; Fin 120; Fin 200]).
  - repeat constructor.
  - vm_compute. discriminate.
Defined.

Lemma generateWavetable_amplitude_witness :
  Forall unit_amplitude (generateWavetable (dayOf [Fin 80; Fin 200])).
Proof.
  apply (generateWavetable_amplitude (dayOf [Fin 80; Fin 200])).
  - repeat constructor.
  - vm_compute. discriminate.
Defined.

Lemma smoothWavetable_constant_witness :
  Forall (fun x => denotes x (1 # 2))
         (smoothWavetable [Fin (1 # 2); Fin (2 # 4); Fin (1 # 2)] 2).
Proof.
  apply (smoothWavetable_constant 2 (1 # 2)).
  repeat constructor; eexists; split; reflexivity.
Defined.

Lemma flat_day_is_silent_witness :
  generateWavetable (dayOf [Fin 120; Fin 120; Fin 120]) = zeros WAVETABLE_SIZE.
Proof.
  apply (flat_day_is_silent _ 120).
  repeat constructor; eexists; split; reflexivity.
Defined.

Lemma normalizeToPhysiologicalRange_range_witness :
  exists x,
    nth_error (normalizeToPhysiologicalRange [Fin 30; Fin 220; PInf]) 0 = Some x
    /\ (isNaN (Fin 30) = true -> x = NaN)
    /\ (isNaN (Fin 30) = false -> unit_amplitude x)
    /\ ((Fin 30 <=? absolute_min)%num = true -> x = Fin (-1))
    /\ ((absolute_max <=? Fin 30)%num = true -> x = Fin 1).
Proof.
  apply (proj2 (normalizeToPhysiologicalRange_range [Fin 30; Fin 220; PInf])
               0%nat (Fin 30)).
  reflexivity.
Defined.

Lemma getWaveformForDisplay_samples_witness :
  exists v, Some (Fin 1) = Some v /\ In v [Fin 0; Fin 1].
Proof.
  apply (proj1 (proj2 (getWaveformForDisplay_samples [Fin 0; Fin 1] 4))).
  - discriminate.
  - vm_compute. right. right. left. reflexivity.
Defined.

Lemma generateAllWavetables_spec_witness :
  exists w,
    wavetable (set_wavetable scenario_day (generateWavetable scenario_day))
    = Some w
    /\ List.length w = WAVETABLE_SIZE.
Proof.
  apply (proj1 (proj2 (generateAllWavetables_spec
                         [("2024-06-01", scenario_day)])
                 "2024-06-01"
                 (set_wavetable scenario_day (generateWavetable scenario_day))
                 (or_introl eq_refl))).
Defined.

Lemma computeRateOfChange_nonneg_witness :
  (zero <=? computeRateOfChange (readings (dayOf [Fin 100; Fin 130; Fin 110])))%num
  = true.
Proof.
  apply (proj1 (proj2 (computeRateOfChange_nonneg
                         (readings (dayOf [Fin 100; Fin 130; Fin 110]))))).
  repeat constructor.
Defined.

Lemma getAvailableDates_chronological_witness :
  string_le (date_key 2024 5 31) (date_key 2024 6 1)
  <-> date_le 2024 5 31 2024 6 1.
Proof.
  apply (proj2 (proj2 (getAvailableDates_chronological
                         (mkParsed [] mg_dL EmptyString EmptyString))));
    lia.
Defined.

Lemma parseLibreViewCSV_days_witness :
  date scenario_day = "2024-06-01" /\ wavetable scenario_day = None
  /\ readings scenario_day <> []
  /\ Forall well_formed_reading (readings scenario_day)
  /\ Forall (fun r => formatDateKey (timestamp r) = "2024-06-01")
            (readings scenario_day).
Proof.
  apply (proj2 (proj2 (parseLibreViewCSV_days no_native_parse scenario_csv))).
  vm_compute. left. reflexivity.
Defined.

End MoreInstances.
